(** * BadASDLParserGenerator: the node model of [ast_basis.py] and the schema
    parser of [ast_classgen.py], with the properties stated about them.

    Python objects live in a store; a value is an immediate scalar or a
    reference into the store, so that in-place mutation ([child.lineno += n],
    [old[:] = new], [setattr]) and aliasing are visible.  Exceptions are an
    explicit outcome.  Loops that Python does not bound ([while todo],
    recursion over children) take a fuel argument; running out of fuel is the
    outcome [Diverge], which is neither a result nor an exception. *)

From stdpp Require Import gmap strings list fin_maps.
From Stdlib Require Import ZArith Lia Ascii.

Open Scope Z_scope.
Set Warnings "-register-all".

(** ** Outcomes of a call *)

Inductive outcome (E A : Type) : Type :=
  | Ok (a : A)
  | Raise (e : E)
  | Diverge.

Arguments Ok {E A} a.
Arguments Raise {E A} e.
Arguments Diverge {E A}.

Definition obind {E A B : Type} (m : outcome E A) (k : A -> outcome E B) : outcome E B :=
  match m with
  | Ok a => k a
  | Raise e => Raise e
  | Diverge => Diverge
  end.

Declare Scope outcome_scope.
Delimit Scope outcome_scope with outcome.
Notation "'let!' x ':=' m 'in' k" := (obind m (fun x => k))
  (at level 10, x pattern, m at level 100, k at level 200) : outcome_scope.
Open Scope outcome_scope.

Definition returns {E A : Type} (m : outcome E A) : Prop := exists a, m = Ok a.

Module Basis.

(** The exceptions the functions of [ast_basis.py] can raise by themselves. *)
Inductive exn : Type :=
  | AttributeError
  | IndexError
  | UnboundLocalError.

Abbreviation result := (outcome exn).

(** ** Node model ([class AST]) *)

Definition addr := positive.

(** A Python value as the functions of [ast_basis.py] can tell them apart:
    [None], scalars, a tuple of names (what [_fields] and [_attribs] hold) and
    a reference to a mutable object of the store (a node or a list). *)
Inductive value : Type :=
  | VNone
  | VBool (b : bool)
  | VInt (z : Z)
  | VStr (s : string)
  | VTuple (names : list string)
  | VRef (a : addr).

#[global] Instance value_eq_dec : EqDecision value.
Proof. solve_decision. Defined.

(** An instance of [AST] or of a generated subclass.  [cls] is
    [__class__.__name__].  The four coordinates are [int | None] as annotated.
    [attrs] is the instance dictionary for every other name; [symref] lives
    there too, with the class default [None]. *)
Record AST : Type := mkAST {
  cls : string;
  _fields : list string;
  _attribs : list string;
  lineno : option Z;
  col_offset : option Z;
  end_lineno : option Z;
  end_col_offset : option Z;
  attrs : gmap string value
}.

Inductive obj : Type :=
  | ONode (n : AST)
  | OList (items : list value).

(** The heap.  In a store that Python can build every reference points to an
    object; the functions below take a dangling one for an object that is
    neither a node nor a list. *)
Abbreviation store := (gmap addr obj).

Definition of_coord (c : option Z) : value :=
  match c with
  | Some z => VInt z
  | None => VNone
  end.

(** [getattr(node, name)]; [None] stands for [AttributeError].  The dataclass
    defaults of [AST] make the seven declared names always readable. *)
Definition getattr (n : AST) (name : string) : option value :=
  if decide (name = "lineno") then Some (of_coord (lineno n))
  else if decide (name = "col_offset") then Some (of_coord (col_offset n))
  else if decide (name = "end_lineno") then Some (of_coord (end_lineno n))
  else if decide (name = "end_col_offset") then Some (of_coord (end_col_offset n))
  else if decide (name = "_fields") then Some (VTuple (_fields n))
  else if decide (name = "_attribs") then Some (VTuple (_attribs n))
  else match attrs n !! name with
       | Some v => Some v
       | None => if decide (name = "symref") then Some VNone else None
       end.

(** [isinstance(v, AST)], giving the node's address. *)
Definition as_AST (s : store) (v : value) : option addr :=
  match v with
  | VRef a => match s !! a with
              | Some (ONode _) => Some a
              | _ => None
              end
  | _ => None
  end.

(** [isinstance(v, list)], giving the list's address and items. *)
Definition as_list (s : store) (v : value) : option (addr * list value) :=
  match v with
  | VRef a => match s !! a with
              | Some (OList items) => Some (a, items)
              | _ => None
              end
  | _ => None
  end.

(** Reading an attribute every node has ([node._fields], [node.lineno], ...)
    off an arbitrary value: anything but a node raises [AttributeError]. *)
Definition node_of (s : store) (v : value) : result AST :=
  match v with
  | VRef a => match s !! a with
              | Some (ONode n) => Ok n
              | _ => Raise AttributeError
              end
  | _ => Raise AttributeError
  end.

(** ** Traversal library *)

(** The body shared by [iter_fields] and [iter_attribs]: one pair per name
    that [getattr] finds; [except AttributeError: pass] skips the others. *)
Fixpoint iter_names (n : AST) (names : list string) : list (string * value) :=
  match names with
  | [] => []
  | name :: rest =>
      match getattr n name with
      | Some v => (name, v) :: iter_names n rest
      | None => iter_names n rest
      end
  end.

Definition iter_fields (s : store) (node : value) : result (list (string * value)) :=
  let! n := node_of s node in
  Ok (iter_names n (_fields n)).

Definition iter_attribs (s : store) (node : value) : result (list (string * value)) :=
  let! n := node_of s node in
  Ok (iter_names n (_attribs n)).

(** [for item in attrib: if isinstance(item, AST): yield item] *)
Fixpoint yield_items (s : store) (items : list value) : list value :=
  match items with
  | [] => []
  | item :: rest =>
      match as_AST s item with
      | Some _ => item :: yield_items s rest
      | None => yield_items s rest
      end
  end.

(** One of the two loops of [iter_child_nodes], over the pairs of
    [iter_attribs] or [iter_fields]. *)
Fixpoint yield_children (s : store) (pairs : list (string * value)) : list value :=
  match pairs with
  | [] => []
  | (_, v) :: rest =>
      match as_AST s v with
      | Some _ => v :: yield_children s rest
      | None =>
          match as_list s v with
          | Some (_, items) => yield_items s items ++ yield_children s rest
          | None => yield_children s rest
          end
      end
  end.

(** The generator is taken as the list it yields over the store it is started
    on.  Its consumers here either drain it at once ([todo.extend]) or only
    write location coordinates between two yields, which it never reads as a
    child (lemma [iter_child_nodes_frame]). *)
Definition iter_child_nodes (s : store) (node : value) : result (list value) :=
  let! attribs := iter_attribs s node in
  let! fields := iter_fields s node in
  Ok (yield_children s attribs ++ yield_children s fields).

(** [walk]: the [while todo] loop on the deque, one round per unit of fuel. *)
Fixpoint walk_loop (fuel : nat) (s : store) (todo : list value) : result (list value) :=
  match fuel with
  | O => Diverge
  | S fuel' =>
      match todo with
      | [] => Ok []
      | node :: todo' =>
          let! kids := iter_child_nodes s node in
          let! rest := walk_loop fuel' s (todo' ++ kids) in
          Ok (node :: rest)
      end
  end.

Definition walk (fuel : nat) (s : store) (node : value) : result (list value) :=
  walk_loop fuel s [node].

(** ** Location utilities *)

Definition set_lineno (n : AST) (v : option Z) : AST :=
  mkAST (cls n) (_fields n) (_attribs n) v (col_offset n) (end_lineno n)
        (end_col_offset n) (attrs n).

Definition set_col_offset (n : AST) (v : option Z) : AST :=
  mkAST (cls n) (_fields n) (_attribs n) (lineno n) v (end_lineno n)
        (end_col_offset n) (attrs n).

Definition set_end_lineno (n : AST) (v : option Z) : AST :=
  mkAST (cls n) (_fields n) (_attribs n) (lineno n) (col_offset n) v
        (end_col_offset n) (attrs n).

Definition set_end_col_offset (n : AST) (v : option Z) : AST :=
  mkAST (cls n) (_fields n) (_attribs n) (lineno n) (col_offset n)
        (end_lineno n) v (attrs n).

(** Assigning to attributes of [node]: the object behind the reference is
    replaced in the store; a value that is no node raises. *)
Definition update_node (s : store) (node : value) (f : AST -> AST) : result store :=
  match node with
  | VRef a => match s !! a with
              | Some (ONode n) => Ok (<[a := ONode (f n)]> s)
              | _ => Raise AttributeError
              end
  | _ => Raise AttributeError
  end.

Definition newline : ascii := ascii_of_nat 10.

(** The [for c in source] loop: the state on leaving it. *)
Fixpoint split_loop (source : string) (lines : list string) (cur_line : string)
    (end_lineno : Z) : list string * string :=
  match source with
  | EmptyString => (lines, cur_line)
  | String c rest =>
      if decide (Z.of_nat (length lines) = end_lineno) then (lines, cur_line)
      else if decide (c = newline) then split_loop rest (lines ++ [cur_line]) "" end_lineno
      else split_loop rest lines (cur_line +:+ String c "") end_lineno
  end.

(** [for _ in range(k): lines.pop(0)] *)
Fixpoint pop_front (k : nat) (lines : list string) : result (list string) :=
  match k with
  | O => Ok lines
  | S k' =>
      match lines with
      | [] => Raise IndexError
      | _ :: lines' => pop_front k' lines'
      end
  end.

(** Python's index normalisation for [lines[i]]. *)
Definition py_index (len : nat) (i : Z) : result nat :=
  if decide (0 <= i < Z.of_nat len) then Ok (Z.to_nat i)
  else if decide (- Z.of_nat len <= i < 0) then Ok (Z.to_nat (Z.of_nat len + i))
  else Raise IndexError.

(** Python's clamping of one slice bound. *)
Definition py_bound (len : nat) (i : Z) : nat :=
  if decide (i < 0) then Z.to_nat (Z.max 0 (Z.of_nat len + i))
  else Z.to_nat (Z.min i (Z.of_nat len)).

Fixpoint str_take (k : nat) (t : string) : string :=
  match k, t with
  | S k', String c t' => String c (str_take k' t')
  | _, _ => EmptyString
  end.

Fixpoint str_drop (k : nat) (t : string) : string :=
  match k, t with
  | S k', String _ t' => str_drop k' t'
  | _, _ => t
  end.

(** [t[:stop]] and [t[start:]] *)
Definition slice_to (t : string) (stop : Z) : string :=
  str_take (py_bound (String.length t) stop) t.

Definition slice_from (t : string) (start : Z) : string :=
  str_drop (py_bound (String.length t) start) t.

(** [sep.join(lines)] *)
Fixpoint join (sep : string) (lines : list string) : string :=
  match lines with
  | [] => ""
  | [l] => l
  | l :: rest => l +:+ sep +:+ join sep rest
  end.

(** [lines[i] = f(lines[i])] *)
Definition assign_index (lines : list string) (i : Z) (f : string -> string)
    : result (list string) :=
  let! k := py_index (length lines) i in
  match lines !! k with
  | Some l => Ok (<[k := f l]> lines)
  | None => Raise IndexError
  end.

Definition get_source_segment (s : store) (source : string) (node : value)
    (padded : bool) : result (option string) :=
  let! n := node_of s node in
  match lineno n, col_offset n, end_lineno n, end_col_offset n with
  | Some lineno, Some col_offset, Some end_lineno, Some end_col_offset =>
      let col_offset := if padded then 0 else col_offset in
      let '(lines, cur_line) := split_loop source [] "" end_lineno in
      let lines := if decide (cur_line = "") then lines else lines ++ [cur_line] in
      (* del c: the loop variable is unbound when the loop never ran *)
      if decide (source = "") then Raise UnboundLocalError
      else
        let! lines := pop_front (Z.to_nat (lineno - 1)) lines in
        let! lines := assign_index lines (end_lineno - lineno)
                        (fun l => slice_to l (end_col_offset + 1)) in
        let! lines := assign_index lines 0 (fun l => slice_from l col_offset) in
        Ok (Some (join (String newline "") lines))
  | _, _, _, _ => Ok None
  end.

Definition copy_location (s : store) (old_node new_node : value) : result (value * store) :=
  let! o := node_of s old_node in
  let! s := update_node s new_node (fun n => set_lineno n (lineno o)) in
  let! s := update_node s new_node (fun n => set_col_offset n (col_offset o)) in
  let! s := update_node s new_node (fun n => set_end_lineno n (end_lineno o)) in
  let! s := update_node s new_node (fun n => set_end_col_offset n (end_col_offset o)) in
  Ok (new_node, s).

(** One [if node.x == None: node.x = x / else: x = node.x] of [_fix]: the
    node after it and the value of the local variable after it. *)
Definition fill (get : AST -> option Z) (set : AST -> option Z -> AST)
    (n : AST) (inherited : Z) : AST * Z :=
  match get n with
  | None => (set n (Some inherited), inherited)
  | Some own => (n, own)
  end.

(** [for x in xs: s = body(s, x)], stopping at the first exception. *)
Fixpoint for_each {A : Type} (body : store -> A -> result store) (s : store)
    (xs : list A) : result store :=
  match xs with
  | [] => Ok s
  | x :: rest => let! s' := body s x in for_each body s' rest
  end.

Fixpoint _fix (fuel : nat) (s : store) (node : value)
    (lineno' col_offset' end_lineno' end_col_offset' : Z) : result store :=
  match fuel with
  | O => Diverge
  | S fuel' =>
      let! n := node_of s node in
      let '(n, lineno') := fill lineno set_lineno n lineno' in
      let '(n, col_offset') := fill col_offset set_col_offset n col_offset' in
      let '(n, end_lineno') := fill end_lineno set_end_lineno n end_lineno' in
      let '(n, end_col_offset') := fill end_col_offset set_end_col_offset n end_col_offset' in
      let! s := update_node s node (fun _ => n) in
      let! kids := iter_child_nodes s node in
      for_each (fun s child =>
                  _fix fuel' s child lineno' col_offset' end_lineno' end_col_offset')
               s kids
  end.

Definition fix_missing_locations (fuel : nat) (s : store) (node : value)
    : result (value * store) :=
  let! s' := _fix fuel s node 1 0 1 0 in
  Ok (node, s').

(** The body of the loop of [increment_lineno]. *)
Definition bump (n : Z) (child : AST) : AST :=
  let child := match lineno child with
               | Some l => set_lineno child (Some (l + n))
               | None => child
               end in
  match end_lineno child with
  | Some l => set_end_lineno child (Some (l + n))
  | None => child
  end.

(** [for child in walk(node)]: [walk] is a generator, so each round of its
    loop (pop, extend the deque with the children, yield) is followed by the
    body on the yielded node before the next round reads the store. *)
Fixpoint increment_loop (fuel : nat) (s : store) (todo : list value) (n : Z)
    : result store :=
  match fuel with
  | O => Diverge
  | S fuel' =>
      match todo with
      | [] => Ok s
      | child :: todo' =>
          let! kids := iter_child_nodes s child in
          let! s' := update_node s child (bump n) in
          increment_loop fuel' s' (todo' ++ kids) n
      end
  end.

Definition increment_lineno (fuel : nat) (s : store) (node : value) (n : Z)
    : result (value * store) :=
  let! s' := increment_loop fuel s [node] n in
  Ok (node, s').

(** ** Visitor and Transformer *)

(** A method of a visitor: it reads and mutates the store and returns a value
    or raises. *)
Definition M (A : Type) : Type := store -> result (A * store).

Definition st_ret {A : Type} (a : A) : M A := fun s => Ok (a, s).

Definition st_bind {A B : Type} (m : M A) (k : A -> M B) : M B :=
  fun s => let! r := m s in k (fst r) (snd r).

Definition st_lift {A : Type} (f : store -> result A) : M A :=
  fun s => let! a := f s in Ok (a, s).

Definition st_update (f : store -> result store) : M unit :=
  fun s => let! s' := f s in Ok (tt, s').

Declare Scope st_scope.
Delimit Scope st_scope with st.
Notation "'do!' x ':=' m 'in' k" := (st_bind m (fun x => k))
  (at level 10, x pattern, m at level 100, k at level 200) : st_scope.
Open Scope st_scope.

(** [node.__class__.__name__] *)
Definition class_name (s : store) (node : value) : string :=
  match node with
  | VNone => "NoneType"
  | VBool _ => "bool"
  | VInt _ => "int"
  | VStr _ => "str"
  | VTuple _ => "tuple"
  | VRef a => match s !! a with
              | Some (ONode n) => cls n
              | Some (OList _) => "list"
              | None => "object"
              end
  end.

(** What a [visit_X] method can call on [self]. *)
Record Self : Type := mkSelf {
  self_visit : value -> M value;
  self_generic_visit : value -> M value
}.

(** A visitor class: the [visit_X] methods it defines, by method name, and
    its [generic_visit], which [NodeTransformer] overrides. *)
Record Visitor : Type := mkVisitor {
  methods : string -> option (Self -> value -> M value);
  generic_visit : (value -> M value) -> value -> M value
}.

(** [visit]: [getattr(self, "visit_" + name, self.generic_visit)(node)].
    One unit of fuel per nested call of [visit]. *)
Fixpoint visit (V : Visitor) (fuel : nat) (node : value) : M value :=
  match fuel with
  | O => fun _ => Diverge
  | S fuel' =>
      fun s =>
        let method := "visit_" +:+ class_name s node in
        match methods V method with
        | Some visitor =>
            visitor (mkSelf (visit V fuel') (generic_visit V (visit V fuel'))) node s
        | None => generic_visit V (visit V fuel') node s
        end
  end.

Fixpoint st_for_each {A : Type} (body : A -> M unit) (xs : list A) : M unit :=
  match xs with
  | [] => st_ret tt
  | x :: rest => do! _ := body x in st_for_each body rest
  end.

(** [NodeVisitor.generic_visit] *)
Definition NodeVisitor_generic_visit (self_visit : value -> M value) (node : value)
    : M value :=
  do! kids := st_lift (fun s => iter_child_nodes s node) in
  do! _ := st_for_each (fun child => do! _ := self_visit child in st_ret tt) kids in
  st_ret node.

Definition NodeVisitor (methods : string -> option (Self -> value -> M value)) : Visitor :=
  mkVisitor methods NodeVisitor_generic_visit.

(** [setattr(node, name, v)] and [delattr(node, name)] on the instance
    dictionary.  The transformer reaches them only with a name whose value was
    a node, which none of the declared names of [AST] can hold here. *)
Definition setattr (node : value) (name : string) (v : value) : M unit :=
  st_update (fun s =>
    update_node s node (fun n =>
      mkAST (cls n) (_fields n) (_attribs n) (lineno n) (col_offset n)
            (end_lineno n) (end_col_offset n) (<[name := v]> (attrs n)))).

Definition delattr (node : value) (name : string) : M unit :=
  fun s =>
    let! n := node_of s node in
    match attrs n !! name with
    | None => Raise AttributeError
    | Some _ =>
        st_update (fun s =>
          update_node s node (fun n =>
            mkAST (cls n) (_fields n) (_attribs n) (lineno n) (col_offset n)
                  (end_lineno n) (end_col_offset n) (delete name (attrs n)))) s
    end.

(** The [for value in old] loop of one sequence-valued attribute or field,
    then [old[:] = new].  [old] is the list object at [list_addr] and [items]
    what it holds when the loop starts (a method that resizes the list while
    it is iterated is not modelled).  For an element that is a node the call
    is [self.visit(old)], on the list, not on the element. *)
Fixpoint transform_items (self_visit : value -> M value) (old : value)
    (list_addr : addr) (items new : list value) : M unit :=
  match items with
  | [] => fun s => Ok (tt, <[list_addr := OList new]> s)
  | value :: rest =>
      fun s =>
        match as_AST s value with
        | Some _ =>
            (do! value := self_visit old in
             fun s =>
               match value with
               | VNone => transform_items self_visit old list_addr rest new s
               | _ =>
                   match as_list s value with
                   | Some (_, extension) =>
                       transform_items self_visit old list_addr rest (new ++ extension) s
                   | None =>
                       transform_items self_visit old list_addr rest (new ++ [value]) s
                   end
               end) s
        | None => transform_items self_visit old list_addr rest (new ++ [value]) s
        end
  end.

(** One of the two loops of [NodeTransformer.generic_visit], over the names
    of [iter_attribs] or [iter_fields].  The generator reads each name when it
    is resumed, so after the writes of the earlier rounds. *)
Fixpoint transform_names (self_visit : value -> M value) (node : value)
    (names : list string) : M unit :=
  match names with
  | [] => st_ret tt
  | name :: rest =>
      do! n := st_lift (fun s => node_of s node) in
      match getattr n name with
      | None => transform_names self_visit node rest
      | Some old =>
          fun s =>
            match as_list s old with
            | Some (list_addr, items) =>
                (do! _ := transform_items self_visit old list_addr items [] in
                 transform_names self_visit node rest) s
            | None =>
                match as_AST s old with
                | Some _ =>
                    (do! new := self_visit old in
                     do! _ := match new with
                              | VNone => delattr node name
                              | _ => setattr node name new
                              end in
                     transform_names self_visit node rest) s
                | None => transform_names self_visit node rest s
                end
            end
      end
  end.

(** [NodeTransformer.generic_visit] *)
Definition NodeTransformer_generic_visit (self_visit : value -> M value) (node : value)
    : M value :=
  do! n := st_lift (fun s => node_of s node) in
  do! _ := transform_names self_visit node (_attribs n) in
  do! n := st_lift (fun s => node_of s node) in
  do! _ := transform_names self_visit node (_fields n) in
  st_ret node.

Definition NodeTransformer (methods : string -> option (Self -> value -> M value))
    : Visitor :=
  mkVisitor methods NodeTransformer_generic_visit.

End Basis.

Module Classgen.

(** ** Grammar description ([Module], [TypeDef], ..., [Field])

    The dataclasses keep their names and fields, but for [Module], a keyword
    here, which is [AsdlModule]; [TypeDef.type_name], which is
    [typedef_name], and [Constructor.fields], which is [ctor_fields], since
    [Field.type_name] and [ProductType.fields] have the names already. *)

Record Field : Type := mkField {
  type_name : string;
  field_name : string;
  can_none : bool;
  can_many : bool
}.

Record Constructor : Type := mkConstructor {
  ctor_name : string;
  ctor_fields : list Field
}.

Inductive AbstractType : Type :=
  | ProductType (fields : list Field)
  | SumType (ctors : list Constructor) (attribs : list Field).

Record TypeDef : Type := mkTypeDef {
  typedef_name : string;
  type_def : AbstractType
}.

Record AsdlModule : Type := mkModule {
  mod_name : string;
  typedefs : list TypeDef
}.

(** [raise Exception(msg)] and [raise Exception(msg) from e] *)
Inductive Exception : Type :=
  | Exc (msg : string)
  | ExcFrom (msg : string) (cause : Exception).

Abbreviation result := (outcome Exception).

(** ** Characters

    The text is ASCII.  [\s] and [str.strip] take the ASCII whitespace of
    Python's [str]: tab to carriage return, the four separators 28 to 31, and
    the space.  [\w] is letters, digits and the underscore. *)

Definition code (c : ascii) : nat := nat_of_ascii c.

Definition is_space (c : ascii) : bool :=
  ((9 <=? code c) && (code c <=? 13) || (28 <=? code c) && (code c <=? 32))%nat.

Definition is_upper (c : ascii) : bool :=
  ((65 <=? code c) && (code c <=? 90))%nat.

Definition is_word (c : ascii) : bool :=
  (is_upper c || (97 <=? code c) && (code c <=? 122)
   || (48 <=? code c) && (code c <=? 57) || (code c =? 95))%nat.

(** ** The anchored patterns

    Each pattern is matched against a prefix of the text; a match gives the
    groups and the text from [m.end()] on.  The character classes that follow
    one another in these patterns are disjoint, so the greedy match is the
    only one. *)

(** [\s*], greedy *)
Fixpoint skip_space (t : string) : string :=
  match t with
  | String c rest => if is_space c then skip_space rest else t
  | EmptyString => t
  end.

(** a greedy run of [\w], possibly empty, and what follows it *)
Fixpoint span_word (t : string) : string * string :=
  match t with
  | String c rest =>
      if is_word c then let '(w, rest') := span_word rest in (String c w, rest')
      else ("", t)
  | EmptyString => ("", t)
  end.

(** [\w+] as a group *)
Definition word (t : string) : option (string * string) :=
  match span_word t with
  | (EmptyString, _) => None
  | (w, rest) => Some (w, rest)
  end.

(** one given character *)
Definition char (c : ascii) (t : string) : option string :=
  match t with
  | String c' rest => if decide (c' = c) then Some rest else None
  | EmptyString => None
  end.

(** a given literal *)
Fixpoint literal (l t : string) : option string :=
  match l with
  | EmptyString => Some t
  | String c l' =>
      match t with
      | String c' t' => if decide (c' = c) then literal l' t' else None
      | EmptyString => None
      end
  end.

(** a character [c] between two [\s*]: the patterns for the parentheses,
    the comma and the bar *)
Definition token (c : ascii) (t : string) : option string :=
  skip_space <$> char c (skip_space t).

(** the pattern of [getField]: [\s*], a word (the type name), an optional
    marker out of [?], [*], [+], then [\s+], a word (the field name), [\s*] *)
Definition match_field (t : string) : option (string * option ascii * string * string) :=
  '(type_name, t) ← word (skip_space t);
  let '(symbol, t) :=
    match t with
    | String c rest =>
        if decide (c = "?"%char \/ c = "*"%char \/ c = "+"%char)
        then (Some c, rest) else (None, t)
    | EmptyString => (None, t)
    end in
  match t with
  | String c rest =>
      if is_space c then
        '(field_name, t) ← word (skip_space rest);
        Some (type_name, symbol, field_name, skip_space t)
      else None
  | EmptyString => None
  end.

(** the first pattern of [getConstructor]: [\s*], a word, [\s*] *)
Definition match_name (t : string) : option (string * string) :=
  '(name, t) ← word (skip_space t);
  Some (name, skip_space t).

(** the pattern of the main loop: [\s*], a word, [\s*], [=], [\s*] *)
Definition match_typedef (t : string) : option (string * string) :=
  '(name, t) ← word (skip_space t);
  t ← char "="%char (skip_space t);
  Some (name, skip_space t).

(** [\s*], the literal [attributes], [\s*] *)
Definition match_attributes (t : string) : option string :=
  skip_space <$> literal "attributes" (skip_space t).

(** [\s*] and an opening parenthesis *)
Definition match_open (t : string) : option string :=
  char "("%char (skip_space t).

(** [$] under [re.MULTILINE]: at the end of the text or before a newline *)
Definition at_eol (t : string) : bool :=
  match t with
  | EmptyString => true
  | String c _ => bool_decide (c = Basis.newline)
  end.

(** [\s*] followed by [p], with backtracking: [p] is tried after every prefix
    of the whitespace run. *)
Fixpoint spaces_then (p : string -> bool) (t : string) : bool :=
  p t ||
  match t with
  | String c rest => is_space c && spaces_then p rest
  | EmptyString => false
  end.

(** What follows the closing brace: [\s*], optionally [attributes] and
    [\s*], then [$]. *)
Definition after_close (t : string) : bool :=
  spaces_then
    (fun t => at_eol t ||
              match literal "attributes" t with
              | Some t' => spaces_then at_eol t'
              | None => false
              end) t.

(** The body group of the module pattern: under [re.DOTALL] the greedy
    group of any characters ends at the last closing brace that
    [after_close] accepts; the [\s*] before the brace is left empty. *)
Fixpoint body_to_close (t : string) : option string :=
  match t with
  | EmptyString => None
  | String c rest =>
      match body_to_close rest with
      | Some body => Some (String c body)
      | None =>
          if bool_decide (c = "}"%char) && after_close rest then Some "" else None
      end
  end.

(** The module pattern: [\s*], [module], [\s+], a word (group 1), [\s*],
    an opening brace, [\s*], the body (group 2), the closing brace and what
    follows it. *)
Definition match_module (t : string) : option (string * string) :=
  t ← literal "module" (skip_space t);
  match t with
  | String c rest =>
      if is_space c then
        '(mod_name, t) ← word (skip_space rest);
        t ← char "{"%char (skip_space t);
        mod_raw ← body_to_close (skip_space t);
        Some (mod_name, mod_raw)
      else None
  | EmptyString => None
  end.

(** The [re.sub] that strips comments: every match runs from two dashes to
    the end of its line, the newline excluded; [in_comment] tells that the
    scan is inside a match. *)
Fixpoint strip_comments (in_comment : bool) (t : string) : string :=
  match t with
  | EmptyString => ""
  | String c rest =>
      if in_comment then
        if decide (c = Basis.newline) then String c (strip_comments false rest)
        else strip_comments true rest
      else
        match rest with
        | String c' _ =>
            if decide (c = "-"%char /\ c' = "-"%char) then strip_comments true rest
            else String c (strip_comments false rest)
        | EmptyString => String c (strip_comments false rest)
        end
  end.

(** [str.strip] *)
Fixpoint rstrip (t : string) : string :=
  match t with
  | EmptyString => ""
  | String c rest =>
      match rstrip rest with
      | EmptyString => if is_space c then "" else String c ""
      | rest' => String c rest'
      end
  end.

Definition strip (t : string) : string := rstrip (skip_space t).

(** [c in t] for a one-character [c] *)
Fixpoint contains (t : string) (c : ascii) : bool :=
  match t with
  | EmptyString => false
  | String c' rest => bool_decide (c' = c) || contains rest c
  end.

(** ** The parser

    The nested functions of [ParseAsdl] share the cursor [mod_raw]
    ([nonlocal]): they are computations on it that may raise. *)

Definition P (A : Type) : Type := string -> result (A * string).

Definition p_ret {A : Type} (a : A) : P A := fun mod_raw => Ok (a, mod_raw).

Definition p_bind {A B : Type} (m : P A) (k : A -> P B) : P B :=
  fun mod_raw => let! r := m mod_raw in k (fst r) (snd r).

Definition p_raise {A : Type} (msg : string) : P A :=
  fun _ => Raise (Exc msg).

(** [try: m / except Exception as e: raise Exception(msg) from e] *)
Definition p_context {A : Type} (msg : string) (m : P A) : P A :=
  fun mod_raw =>
    match m mod_raw with
    | Raise e => Raise (ExcFrom msg e)
    | r => r
    end.

(** [if (m := re.match(pattern, mod_raw)) == None: raise Exception(msg)],
    then [mod_raw = mod_raw[m.end():]] *)
Definition p_expect {A : Type} (pattern : string -> option (A * string)) (msg : string)
    : P A :=
  fun mod_raw =>
    match pattern mod_raw with
    | None => Raise (Exc msg)
    | Some (groups, rest) => Ok (groups, rest)
    end.

Declare Scope parser_scope.
Delimit Scope parser_scope with parser.
Notation "'do!' x ':=' m 'in' k" := (p_bind m (fun x => k))
  (at level 10, x pattern, m at level 100, k at level 200) : parser_scope.
Open Scope parser_scope.

Definition unit_groups (pattern : string -> option string) (t : string)
    : option (unit * string) :=
  pair tt <$> pattern t.

Definition getField : P Field :=
  do! groups := p_expect match_field "expected field" in
  let '(type_name, symbol, field_name) := groups in
  let can_none := match symbol with
                  | Some c => contains "?*" c
                  | None => false
                  end in
  let can_many := match symbol with
                  | Some c => contains "*+" c
                  | None => false
                  end in
  p_ret (mkField type_name field_name can_none can_many).

(** The [while True] loop of [getFields]. *)
Fixpoint getFields_loop (fuel : nat) (fields : list Field) : P (list Field) :=
  match fuel with
  | O => fun _ => Diverge
  | S fuel' =>
      do! field := getField in
      let fields := fields ++ [field] in
      fun mod_raw =>
        match token ","%char mod_raw with
        | None => Ok (fields, mod_raw)
        | Some rest => getFields_loop fuel' fields rest
        end
  end.

Definition getFields : P (list Field) :=
  do! _ := p_expect (unit_groups (token "("%char))
             "expected left parenthesis to begin field list." in
  do! fields := (fun mod_raw => getFields_loop (S (String.length mod_raw)) [] mod_raw) in
  do! _ := p_expect (unit_groups (token ")"%char))
             "expected right parenthesis to close field list." in
  p_ret fields.

Definition starts_upper (name : string) : bool :=
  match name with
  | String c _ => is_upper c
  | EmptyString => false
  end.

Definition getConstructor : P Constructor :=
  do! ctor_name := p_expect match_name "expected name in constructor" in
  if negb (starts_upper ctor_name)
  then p_raise "constructor name must start with an uppercase later"
  else fun mod_raw =>
    match token "("%char mod_raw with
    | None => Ok (mkConstructor ctor_name [], mod_raw)
    | Some _ =>
        p_context ("in ctor of '" +:+ ctor_name +:+ "'")
          (do! fields := getFields in p_ret (mkConstructor ctor_name fields)) mod_raw
    end.

(** The [while True] loop of [getSumType]. *)
Fixpoint getSumType_loop (fuel : nat) (ctors : list Constructor) : P (list Constructor) :=
  match fuel with
  | O => fun _ => Diverge
  | S fuel' =>
      do! ctor := getConstructor in
      let ctors := ctors ++ [ctor] in
      fun mod_raw =>
        match token "|"%char mod_raw with
        | None => Ok (ctors, mod_raw)
        | Some rest => getSumType_loop fuel' ctors rest
        end
  end.

Definition getSumType : P AbstractType :=
  do! ctors := (fun mod_raw => getSumType_loop (S (String.length mod_raw)) [] mod_raw) in
  fun mod_raw =>
    match match_attributes mod_raw with
    | Some rest => (do! attribs := getFields in p_ret (SumType ctors attribs)) rest
    | None => Ok (SumType ctors [], mod_raw)
    end.

Definition _default_types : list string :=
  ["ident"; "int"; "char"; "string"; "str"; "boolean"; "bool"; "float"].

(** The [try] block of one round of the main loop. *)
Definition getTypeDef (type_name : string) : P TypeDef :=
  if bool_decide (type_name = "AST") || bool_decide (type_name ∈ _default_types)
  then p_raise "cannot redefine basic type."
  else
    do! type := (fun mod_raw =>
                   match match_open mod_raw with
                   | None => getSumType mod_raw
                   | Some _ => (do! fields := getFields in p_ret (ProductType fields)) mod_raw
                   end) in
    p_ret (mkTypeDef type_name type).

(** The [while mod_raw.strip() != ""] loop. *)
Fixpoint typedefs_loop (fuel : nat) (mod_raw : string) (defined : gset string)
    (mod_body : list TypeDef) : result (list TypeDef) :=
  match fuel with
  | O => Diverge
  | S fuel' =>
      if decide (strip mod_raw = "") then Ok mod_body
      else
        match match_typedef mod_raw with
        | None => Raise (Exc "expected type definition")
        | Some (type_name, mod_raw) =>
            if decide (type_name ∈ defined)
            then Raise (Exc ("cannot define type '" +:+ type_name +:+ "' twice."))
            else
              let defined := {[type_name]} ∪ defined in
              let! r :=
                p_context ("in typedef of '" +:+ type_name +:+ "'")
                  (getTypeDef type_name) mod_raw in
              let '(typedef, mod_raw) := r in
              typedefs_loop fuel' mod_raw defined (mod_body ++ [typedef])
        end
  end.

Definition ParseAsdl (asdl_string : string) : result AsdlModule :=
  let asdl_string := strip_comments false asdl_string in
  match match_module asdl_string with
  | None => Raise (Exc "missing module statement")
  | Some (mod_name, mod_raw) =>
      let! mod_body := typedefs_loop (S (String.length mod_raw)) mod_raw ∅ [] in
      Ok (mkModule mod_name mod_body)
  end.


(** ** The class generator ([AsdlToPy])

    The characters that the format strings escape: newline, tab and the
    double quote. *)
Definition nl : string := String Basis.newline "".
Definition tab : string := String (ascii_of_nat 9) "".
Definition dq : string := String (ascii_of_nat 34) "".

(** [_default_types[name].__name__]: the dictionary with the name of the
    class that each key stands for. *)
Definition _default_types_items : list (string * string) :=
  [("ident", "str"); ("int", "int"); ("char", "int"); ("string", "str");
   ("str", "str"); ("boolean", "bool"); ("bool", "bool"); ("float", "float")].

Fixpoint dict_get (name : string) (items : list (string * string)) : option string :=
  match items with
  | [] => None
  | (key, v) :: rest => if decide (name = key) then Some v else dict_get name rest
  end.

Definition GetTypeName (name : string) : string :=
  match dict_get name _default_types_items with
  | Some class => class
  | None => "'" +:+ name +:+ "'"
  end.

Definition ToParam (field : Field) : string :=
  let type := GetTypeName (type_name field) in
  let type :=
    if can_many field then "list[" +:+ type +:+ "]"
    else if can_none field then type +:+ " | None"
    else type in
  field_name field +:+ ": " +:+ type.

Definition ToAssign (field : Field) : string :=
  let type := GetTypeName (type_name field) in
  let type :=
    if can_many field then "list[" +:+ type +:+ "]"
    else if can_none field then type +:+ " | None"
    else type in
  "self." +:+ field_name field +:+ ": " +:+ type +:+ " = " +:+ field_name field.

Definition GenAbstractClass (name : string) (attribs : list Field) : string :=
  if decide (length attribs = 0%nat) then "class " +:+ name +:+ "(AST): pass"
  else
    let names := Basis.join ", " ((fun x => dq +:+ field_name x +:+ dq) <$> attribs) in
    let params := Basis.join ", " (ToParam <$> attribs) in
    let assignments := Basis.join (nl +:+ tab +:+ tab) (ToAssign <$> attribs) in
    "class " +:+ name +:+ "(AST):" +:+ nl +:+ tab
    +:+ "def __init__(self, " +:+ params +:+ "):" +:+ nl +:+ tab +:+ tab
    +:+ "self._attribs = (" +:+ names +:+ ",)" +:+ nl +:+ tab +:+ tab
    +:+ assignments.

(** [parent] and [parent_attribs] have the defaults ["AST"] and [[]], which
    the call for a product type takes. *)
Definition GenDataClass (name : string) (fields : list Field) (parent : string)
    (parent_attribs : list Field) : string :=
  if decide (length fields = 0%nat) then "class " +:+ name +:+ "(" +:+ parent +:+ "): pass"
  else
    let superctor := "" in
    let fields_list :=
      if decide (0 < length fields)%nat
      then "self._fields = ("
           +:+ Basis.join ", " ((fun x => dq +:+ field_name x +:+ dq) <$> fields) +:+ ",)"
      else "" in
    let attrib_args := Basis.join ", " (field_name <$> parent_attribs) in
    let attrib_params := Basis.join ", " (ToParam <$> parent_attribs) in
    let params := Basis.join ", " (ToParam <$> fields) in
    let params_superctor : string * string :=
      if decide (0 < length parent_attribs)%nat
      then
        (if decide (strip params = "") then attrib_args
         else Basis.join ", " [attrib_params; params],
         "super().__init__(" +:+ attrib_args +:+ ")" +:+ nl +:+ tab +:+ tab)
      else (params, superctor) in
    let params := fst params_superctor in
    let superctor := snd params_superctor in
    let assignments :=
      Basis.join "" ((fun x => nl +:+ tab +:+ tab +:+ x) <$> (ToAssign <$> fields)) in
    "class " +:+ name +:+ "(" +:+ parent +:+ "):" +:+ nl +:+ tab
    +:+ "def __init__(self, " +:+ params +:+ "):" +:+ nl +:+ tab +:+ tab
    +:+ superctor +:+ fields_list +:+ assignments.

(** [f.readline()] and then [f.read()]: the text after the first line. *)
Fixpoint after_first_line (text : string) : string :=
  match text with
  | EmptyString => ""
  | String c rest => if decide (c = Basis.newline) then rest else after_first_line rest
  end.

(** The body of the [for typedef in asdl.typedefs] loop, on the text so
    far. *)
Definition gen_typedef (ast : string) (typedef : TypeDef) : string :=
  match type_def typedef with
  | ProductType fields =>
      let ast := ast +:+ (nl +:+ nl +:+ "## TYPE '" +:+ typedef_name typedef +:+ "'" +:+ nl) in
      ast +:+ GenDataClass (typedef_name typedef) fields "AST" []
  | SumType ctors attribs =>
      let ast := ast +:+ (nl +:+ nl +:+ "## TYPE '" +:+ typedef_name typedef +:+ "'" +:+ nl) in
      let ast := ast +:+ GenAbstractClass (typedef_name typedef) attribs in
      foldl (fun ast ctor =>
               let ast := ast +:+ (nl +:+ nl) in
               ast +:+ GenDataClass (ctor_name ctor) (ctor_fields ctor)
                         (typedef_name typedef) attribs)
            ast ctors
  end.

(** [AsdlToPy], with the text of the file [ast_basis.py] that it opens as
    [basis]. *)
Definition AsdlToPy (basis : string) (asdl_string : string) : result string :=
  let ast := after_first_line basis in
  let! asdl := ParseAsdl asdl_string in
  let ast := ast +:+ (nl +:+ nl +:+ "### GENERATED CLASSES FOR " +:+ mod_name asdl +:+ " ###") in
  Ok (foldl gen_typedef ast (typedefs asdl)).

End Classgen.

(** * Trees in the store, and the inputs of the examples *)

Module BasisSpec.
Import Basis.

Definition nl : string := String newline "".

(** The text of the example: two lines, each ended by a newline. *)
Definition example_source : string := "abc" +:+ nl +:+ "def" +:+ nl.

Definition leaf (name : string) (l c el ec : option Z) : AST :=
  mkAST name [] [] l c el ec ∅.

Definition example_span_store : store :=
  {[ 1%positive := ONode (leaf "Name" (Some 1) (Some 1) (Some 2) (Some 2)) ]}.

Definition no_end_line_store : store :=
  {[ 1%positive := ONode (leaf "Name" (Some 1) (Some 1) None (Some 2)) ]}.

Definition no_column_store : store :=
  {[ 1%positive := ONode (leaf "Name" (Some 1) None (Some 2) (Some 2)) ]}.


(** ** Direct children, as the spec words them *)

(** The values of the declared names that are set, in declared order. *)
Definition set_values (n : AST) (names : list string) : list value :=
  omap (getattr n) names.

Definition is_node (s : store) (v : value) : Prop := is_Some (as_AST s v).

(** What one value contributes: itself when it is a node, its node elements
    in sequence order when it is a sequence, nothing otherwise. *)
Definition nodes_of_value (s : store) (v : value) : list value :=
  match as_AST s v with
  | Some _ => [v]
  | None =>
      match as_list s v with
      | Some (_, items) => filter (is_node s) items
      | None => []
      end
  end.

(** Attribute values first, then field values. *)
Definition direct_children (s : store) (n : AST) : list value :=
  (set_values n (_attribs n) ≫= nodes_of_value s)
  ++ (set_values n (_fields n) ≫= nodes_of_value s).

(** ** Trees in the store *)

(** The shape of a tree: the address of a node and the shapes below it. *)
Inductive shape : Type :=
  | Sh (root : addr) (kids : list shape).

Definition root_of (t : shape) : addr := match t with Sh a _ => a end.
Definition kids_of (t : shape) : list shape := match t with Sh _ kids => kids end.

Definition roots (q : list shape) : list value := (fun t => VRef (root_of t)) <$> q.

(** The addresses of a tree, parent before children, and of a forest. *)
Fixpoint nodes (t : shape) : list addr :=
  match t with
  | Sh a kids => a :: concat (nodes <$> kids)
  end.

Definition forest_nodes (q : list shape) : list addr := concat (nodes <$> q).

Fixpoint height (t : shape) : nat :=
  match t with
  | Sh _ kids => S (foldr Nat.max 0%nat (height <$> kids))
  end.

(** The store holds the tree [t]: at each address of the shape there is a
    node whose children, as [iter_child_nodes] yields them, are the roots of
    the shapes below, in order. *)
Inductive tree_at (s : store) : shape -> Prop :=
  | tree_at_node a kids :
      iter_child_nodes s (VRef a) = Ok (roots kids) ->
      Forall (tree_at s) kids ->
      tree_at s (Sh a kids).

(** A tree and not a graph with sharing: no address occurs twice. *)
Definition is_tree (s : store) (t : shape) : Prop := tree_at s t /\ NoDup (nodes t).

(** Breadth-first order: the roots of a level, then the levels below it,
    each level being the children of the level above in order. *)
Fixpoint levels (depth : nat) (level : list shape) : list value :=
  match depth with
  | O => []
  | S depth' => roots level ++ levels depth' (level ≫= kids_of)
  end.

Definition breadth_first (t : shape) : list value := levels (height t) [t].

(** ** What the location utilities leave alone *)

(** Two nodes that differ at most in their four coordinates. *)
Definition same_shape (n n' : AST) : Prop :=
  cls n = cls n' /\ _fields n = _fields n' /\ _attribs n = _attribs n'
  /\ attrs n = attrs n'.

(** Two stores that differ at most in the coordinates of their nodes. *)
Definition same_structure (s s' : store) : Prop :=
  forall a,
    match s !! a, s' !! a with
    | Some (ONode n), Some (ONode n') => same_shape n n'
    | Some (OList l), Some (OList l') => l = l'
    | None, None => True
    | _, _ => False
    end.

(** ** Line shifting, as the spec words it *)

Definition shifted (delta : Z) (n : AST) : AST :=
  mkAST (cls n) (_fields n) (_attribs n)
        ((fun l => l + delta) <$> lineno n) (col_offset n)
        ((fun l => l + delta) <$> end_lineno n) (end_col_offset n)
        (attrs n).

(** ** Location filling, as the spec words it *)

(** The four coordinates handed down from a parent to a child. *)
Record coords : Type := mkCoords {
  c_lineno : Z;
  c_col_offset : Z;
  c_end_lineno : Z;
  c_end_col_offset : Z
}.

(** A coordinate already set stays; an unset one takes the inherited value. *)
Definition settle (own : option Z) (inherited : Z) : Z :=
  match own with
  | Some z => z
  | None => inherited
  end.

Definition settled (n : AST) (inh : coords) : coords :=
  mkCoords (settle (lineno n) (c_lineno inh))
           (settle (col_offset n) (c_col_offset inh))
           (settle (end_lineno n) (c_end_lineno inh))
           (settle (end_col_offset n) (c_end_col_offset inh)).

Definition located (n : AST) (c : coords) : AST :=
  mkAST (cls n) (_fields n) (_attribs n)
        (Some (c_lineno c)) (Some (c_col_offset c))
        (Some (c_end_lineno c)) (Some (c_end_col_offset c))
        (attrs n).

(** [filled s s' t inh]: in [s'] every node of [t] has the coordinates it had
    in [s] where they were set and, where not, those its parent has in [s']
    (for the root: [inh]); nothing else of the node has changed. *)
Inductive filled (s s' : store) : shape -> coords -> Prop :=
  | filled_node a kids inh n :
      s !! a = Some (ONode n) ->
      s' !! a = Some (ONode (located n (settled n inh))) ->
      Forall (fun k => filled s s' k (settled n inh)) kids ->
      filled s s' (Sh a kids) inh.

Definition has_location (n : AST) : Prop :=
  is_Some (lineno n) /\ is_Some (col_offset n)
  /\ is_Some (end_lineno n) /\ is_Some (end_col_offset n).

Definition root_coords : coords := mkCoords 1 0 1 0.


(** A forest none of whose trees is higher than [depth]. *)
Definition lower (depth : nat) (q : list shape) : Prop :=
  Forall (fun t => (height t <= depth)%nat) q.

(** What one call of [_fix] on the root of a tree achieves. *)
Definition fix_fills (t : shape) : Prop :=
  forall (s : store) (inh : coords) (fuel : nat),
    tree_at s t -> NoDup (nodes t) -> (height t <= fuel)%nat ->
    exists s',
      _fix fuel s (VRef (root_of t))
           (c_lineno inh) (c_col_offset inh) (c_end_lineno inh) (c_end_col_offset inh)
      = Ok s'
      /\ same_structure s s'
      /\ filled s s' t inh
      /\ (forall a, a ∉ nodes t -> s' !! a = s !! a).

(** A list of addresses given in full has no duplicate. *)
Ltac solve_NoDup :=
  match goal with
  | |- NoDup ?l => apply (bool_decide_unpack (NoDup l)); vm_compute; exact I
  end.

(** ** The inputs of the examples *)

(** A node with the given class, fields and instance dictionary and no
    attributes and no location. *)
Definition plain (name : string) (fields : list string) (dict : gmap string value) : AST :=
  mkAST name fields [] None None None None dict.

(** A parent whose field [body] is a list holding one node of class [Foo]
    and one number; two nodes [Bar] stand ready as replacements. *)
Definition body_store : store :=
  {[ 1%positive := ONode (plain "Parent" ["body"] {[ "body" := VRef 2%positive ]});
     2%positive := OList [VRef 3%positive; VInt 7];
     3%positive := ONode (plain "Foo" [] ∅);
     4%positive := ONode (plain "Bar" [] ∅);
     5%positive := ONode (plain "Bar" [] ∅) ]}.

(** [def visit_Foo(self, node): return [bar1, bar2]]: the handler builds a
    new list of the two replacement nodes. *)
Definition visit_Foo (self : Self) (node : value) : M value :=
  fun s => Ok (VRef 6%positive, <[6%positive := OList [VRef 4%positive; VRef 5%positive]]> s).

Definition FooSplitter : Visitor :=
  NodeTransformer (fun method => if decide (method = "visit_Foo") then Some visit_Foo else None).

(** A transformer and a visitor that define no [visit_X] method. *)
Definition PlainTransformer : Visitor := NodeTransformer (fun _ => None).
Definition PlainVisitor : Visitor := NodeVisitor (fun _ => None).

(** A tree of depth 2, partially populated: the root has two children, in
    the list of its field [body], and its field [orelse] is unset; each child
    has one child, in its field [value]; the attribute [ctx] of the first is
    unset; some coordinates are set. *)
Definition depth2_store : store :=
  {[ 1%positive := ONode (plain "Root" ["body"; "orelse"] {[ "body" := VRef 6%positive ]});
     2%positive := ONode (mkAST "Stmt" ["value"] ["ctx"] (Some 3) None None None
                                {[ "value" := VRef 4%positive ]});
     3%positive := ONode (mkAST "Stmt" ["value"] [] None (Some 8) (Some 5) None
                                {[ "value" := VRef 5%positive ]});
     4%positive := ONode (plain "Leaf" [] ∅);
     5%positive := ONode (mkAST "Leaf" [] [] (Some 4) None None (Some 9) ∅);
     6%positive := OList [VRef 2%positive; VRef 3%positive] ]}.

Definition depth2_shape : shape :=
  Sh 1%positive [Sh 2%positive [Sh 4%positive []]; Sh 3%positive [Sh 5%positive []]].


(** ** Texts as lines, for [get_source_segment] *)

(** A text whose lines are all ended by a newline. *)
Fixpoint text_of (lines : list string) : string :=
  match lines with
  | [] => ""
  | l :: rest => l +:+ String newline (text_of rest)
  end.

Fixpoint no_newline (l : string) : Prop :=
  match l with
  | EmptyString => True
  | String c rest => c <> newline /\ no_newline rest
  end.

(** [f] on the first, on the last element of a list. *)
Definition on_first {A : Type} (f : A -> A) (l : list A) : list A :=
  match l with
  | [] => []
  | x :: rest => f x :: rest
  end.

Fixpoint on_last {A : Type} (f : A -> A) (l : list A) : list A :=
  match l with
  | [] => []
  | [x] => [f x]
  | x :: rest => x :: on_last f rest
  end.

(** Lines [lineno] to [end_lineno] of the text, counted from 1. *)
Definition selected_lines (lines : list string) (lineno end_lineno : Z) : list string :=
  drop (Z.to_nat (lineno - 1)) (take (Z.to_nat end_lineno) lines).

(** The node [n] with the four coordinates of [o]. *)
Definition relocated (o n : AST) : AST :=
  mkAST (cls n) (_fields n) (_attribs n)
        (lineno o) (col_offset o) (end_lineno o) (end_col_offset o) (attrs n).


(** How many times [walk] yields the node at [a]. *)
Definition yields (a : addr) (l : list value) : nat :=
  length (filter (fun v => v = VRef a) l).

(** What [increment_lineno] does to an object that [walk] yields [k] times. *)
Definition shifted_object (delta : Z) (k : nat) (o : option obj) : option obj :=
  match o with
  | Some (ONode n) => Some (ONode (shifted (delta * Z.of_nat k) n))
  | _ => o
  end.

(** A root whose fields [left] and [right] hold the same child: not a tree. *)
Definition shared_store : store :=
  {[ 1%positive := ONode (plain "Pair" ["left"; "right"]
                            {[ "left" := VRef 2%positive; "right" := VRef 2%positive ]});
     2%positive := ONode (leaf "Name" (Some 10) (Some 0) (Some 12) (Some 4)) ]}.


(** No sequence-valued attribute or field of a node of the tree holds a
    node: every child is the value of a name. *)
Definition no_node_in_lists (s : store) (t : shape) : Prop :=
  forall a n name v l items,
    a ∈ nodes t -> s !! a = Some (ONode n) ->
    name ∈ _attribs n ++ _fields n ->
    getattr n name = Some v -> as_list s v = Some (l, items) ->
    Forall (fun item => as_AST s item = None) items.

(** A tree whose children are all values of names: the attribute [ctx] and
    the field [value] hold nodes, the field [dims] a list of numbers. *)
Definition chain_store : store :=
  {[ 1%positive := ONode (mkAST "Assign" ["value"; "dims"; "note"] ["ctx"]
                                None None None None
                                {[ "value" := VRef 2%positive; "ctx" := VRef 3%positive;
                                   "dims" := VRef 4%positive; "note" := VStr "n" ]});
     2%positive := ONode (plain "Name" [] ∅);
     3%positive := ONode (plain "Store" [] ∅);
     4%positive := OList [VInt 1; VInt 2] ]}.

Definition chain_shape : shape :=
  Sh 1%positive [Sh 3%positive []; Sh 2%positive []].


(** The node after [delattr(node, name)], after [setattr(node, name, v)], and
    after the transformer has put the visited result [new] in the place of
    the value of [name]. *)
Definition without_attr (name : string) (n : AST) : AST :=
  mkAST (cls n) (_fields n) (_attribs n) (lineno n) (col_offset n)
        (end_lineno n) (end_col_offset n) (delete name (attrs n)).

Definition with_attr (name : string) (v : value) (n : AST) : AST :=
  mkAST (cls n) (_fields n) (_attribs n) (lineno n) (col_offset n)
        (end_lineno n) (end_col_offset n) (<[name := v]> (attrs n)).

Definition rewritten (name : string) (new : value) (n : AST) : AST :=
  match new with
  | VNone => without_attr name n
  | _ => with_attr name new n
  end.

(** No value of the names [names] other than [name] is an object. *)
Definition others_scalar (n : AST) (names : list string) (name : string) : Prop :=
  forall name' v, name' ∈ names -> name' <> name -> getattr n name' = Some v ->
                  forall r, v <> VRef r.

(** [def visit_X(self, node): return new] *)
Definition returning (new : value) (self : Self) (node : value) : M value :=
  st_ret new.


(** An expression statement: the field [value] holds a node of class
    [Name], the field [note] a string. *)
Definition unary_node : AST :=
  plain "Expr" ["value"; "note"] {[ "value" := VRef 2%positive; "note" := VStr "n" ]}.

Definition unary_store : store :=
  {[ 1%positive := ONode unary_node; 2%positive := ONode (plain "Name" [] ∅) ]}.

(** A class with the one method [visit_Name], which returns [None]. *)
Definition drop_names (method : string) : option (Self -> value -> M value) :=
  if String.eqb method "visit_Name" then Some (returning VNone) else None.


(** ** A visitor that keeps a record

    [class Recorder(NodeVisitor)] with the one method
    [def generic_visit(self, node): self.seen.append(node); return super().generic_visit(node)],
    where [self.seen] is the list object at the address [seen]. *)
Definition list_append (seen : addr) (v : value) : M unit :=
  st_update (fun s =>
    match s !! seen with
    | Some (OList items) => Ok (<[seen := OList (items ++ [v])]> s)
    | _ => Raise AttributeError
    end).

Definition Recorder (seen : addr) : Visitor :=
  mkVisitor (fun _ => None)
    (fun self_visit node =>
       do! _ := list_append seen node in
       NodeVisitor_generic_visit self_visit node).

(** No name of a node of the tree holds the list [seen]. *)
Definition apart (s : store) (t : shape) (seen : addr) : Prop :=
  forall a n name,
    a ∈ nodes t -> s !! a = Some (ONode n) -> attrs n !! name <> Some (VRef seen).

(** A module whose body holds an expression statement, with a name below
    it, and a [pass]; the list at address 9 belongs to no node. *)
Definition nested_store : store :=
  {[ 1%positive := ONode (plain "Module" ["body"] {[ "body" := VRef 5%positive ]});
     5%positive := OList [VRef 2%positive; VRef 3%positive];
     2%positive := ONode (plain "Expr" ["value"] {[ "value" := VRef 4%positive ]});
     3%positive := ONode (plain "Pass" [] ∅);
     4%positive := ONode (plain "Name" [] ∅);
     9%positive := OList [] ]}.

Definition nested_shape : shape :=
  Sh 1%positive [Sh 2%positive [Sh 4%positive []]; Sh 3%positive []].


(** ** The lines of an arbitrary text *)

(** The lines of a text: the pieces that end with a newline character, and
    what follows the last newline when it is not empty.  [cur] is the line
    begun so far. *)
Fixpoint lines_from (cur source : string) : list string :=
  match source with
  | EmptyString => if decide (cur = "") then [] else [cur]
  | String c rest =>
      if decide (c = newline) then cur :: lines_from "" rest
      else lines_from (cur +:+ String c "") rest
  end.

Definition source_lines (source : string) : list string := lines_from "" source.

(** Spans that do not lie within a text: a start line after the end line, and
    a start line 0. *)
Definition backwards_span_store : store :=
  {[ 1%positive := ONode (leaf "Name" (Some 2) (Some 0) (Some 1) (Some 0)) ]}.

Definition line_zero_store : store :=
  {[ 1%positive := ONode (leaf "Name" (Some 0) (Some 0) (Some 1) (Some 0)) ]}.

(** An assignment whose nodes all have a location; no list holds a node. *)
Definition located_store : store :=
  {[ 1%positive := ONode (mkAST "Assign" ["value"; "dims"; "note"] ["ctx"]
                                (Some 1) (Some 0) (Some 2) (Some 2)
                                {[ "value" := VRef 2%positive; "ctx" := VRef 3%positive;
                                   "dims" := VRef 4%positive; "note" := VStr "n" ]});
     2%positive := ONode (leaf "Name" (Some 1) (Some 1) (Some 2) (Some 2));
     3%positive := ONode (leaf "Store" (Some 1) (Some 0) (Some 1) (Some 0));
     4%positive := OList [VInt 1; VInt 2] ]}.

End BasisSpec.

(** * The markers of a field, and the texts of the examples *)

Module ClassgenSpec.
Import Classgen.

(** The optional marker of the grammar: [field = type_name ('?'|'*'|'+')? field_name]. *)
Inductive marker : Type :=
  | NoMarker
  | Question
  | Star
  | Plus.

Definition marker_symbol (m : marker) : option ascii :=
  match m with
  | NoMarker => None
  | Question => Some "?"%char
  | Star => Some "*"%char
  | Plus => Some "+"%char
  end.

Definition marker_text (m : marker) : string :=
  match marker_symbol m with
  | Some c => String c ""
  | None => ""
  end.

(** The two flags each marker stands for: [(can_none, can_many)]. *)
Definition marker_flags (m : marker) : bool * bool :=
  match m with
  | NoMarker => (false, false)
  | Question => (true, false)
  | Star => (true, true)
  | Plus => (false, true)
  end.

(** A name: one or more [\w]. *)
Fixpoint all_word (w : string) : bool :=
  match w with
  | EmptyString => true
  | String c rest => is_word c && all_word rest
  end.

Definition is_name (w : string) : Prop := w <> "" /\ all_word w = true.

(** The text does not go on with a word character. *)
Definition word_ends (t : string) : Prop :=
  match t with
  | EmptyString => True
  | String c _ => is_word c = false
  end.


Abbreviation len := String.length.

(** A computation on the cursor that ends (it returns or raises) and, when
    it returns, has moved the cursor forward. *)
Definition consuming {A : Type} (m : P A) (mod_raw : string) : Prop :=
  m mod_raw <> Diverge
  /\ forall a rest, m mod_raw = Ok (a, rest) -> (len rest < len mod_raw)%nat.

Definition names (mod_body : list TypeDef) : list string := typedef_name <$> mod_body.





(** ** What a module that [ParseAsdl] returns satisfies *)

Definition field_ok (f : Field) : Prop :=
  is_name (type_name f) /\ is_name (field_name f).

Definition ctor_ok (c : Constructor) : Prop :=
  is_name (ctor_name c) /\ starts_upper (ctor_name c) = true
  /\ Forall field_ok (ctor_fields c).

Definition type_ok (type : AbstractType) : Prop :=
  match type with
  | ProductType fields => fields <> [] /\ Forall field_ok fields
  | SumType ctors attribs =>
      ctors <> [] /\ Forall ctor_ok ctors /\ Forall field_ok attribs
  end.

Definition typedef_ok (typedef : TypeDef) : Prop :=
  is_name (typedef_name typedef)
  /\ typedef_name typedef <> "AST"
  /\ (typedef_name typedef ∉ _default_types)
  /\ type_ok (type_def typedef).

Definition module_ok (m : AsdlModule) : Prop :=
  is_name (mod_name m) /\ Forall typedef_ok (typedefs m).


(** ** The exceptions of [ParseAsdl] *)

(** What a field list raises once its opening parenthesis is read. *)
Definition field_error (e : Exception) : Prop :=
  e = Exc "expected field"
  \/ e = Exc "expected right parenthesis to close field list.".

(** What a constructor raises: the errors of its field list come chained
    to the exception that names the constructor. *)
Definition ctor_error (e : Exception) : Prop :=
  e = Exc "expected name in constructor"
  \/ e = Exc "constructor name must start with an uppercase later"
  \/ exists ctor_name cause,
       is_name ctor_name /\ starts_upper ctor_name = true
       /\ e = ExcFrom ("in ctor of '" +:+ ctor_name +:+ "'") cause
       /\ field_error cause.

(** What the body of a type definition raises. *)
Definition typedef_error (e : Exception) : Prop :=
  e = Exc "cannot redefine basic type."
  \/ e = Exc "expected left parenthesis to begin field list."
  \/ field_error e
  \/ ctor_error e.

(** What [ParseAsdl] raises. *)
Definition parse_error (e : Exception) : Prop :=
  e = Exc "missing module statement"
  \/ e = Exc "expected type definition"
  \/ exists type_name,
       is_name type_name
       /\ (e = Exc ("cannot define type '" +:+ type_name +:+ "' twice.")
           \/ exists cause,
                e = ExcFrom ("in typedef of '" +:+ type_name +:+ "'") cause
                /\ typedef_error cause).


(** ** Comments *)

(** Two dashes in a row somewhere in the text. *)
Fixpoint has_comment (t : string) : bool :=
  match t with
  | String c rest =>
      match rest with
      | String c' _ => bool_decide (c = "-"%char /\ c' = "-"%char) || has_comment rest
      | EmptyString => false
      end
  | EmptyString => false
  end.


(** ** The generated annotations *)

(** The annotation a marker stands for, around the name [type] of the
    class: [T], [T | None], [list[T]]. *)
Definition marker_annotation (m : marker) (type : string) : string :=
  match m with
  | NoMarker => type
  | Question => type +:+ " | None"
  | Star | Plus => "list[" +:+ type +:+ "]"
  end.

End ClassgenSpec.

(** * Properties of the node model *)

Module BasisProofs.
Import Basis BasisSpec.

(** ** Source segments *)

Lemma node_of_lookup (s : store) (node : value) (n : AST) :
  node_of s node = Ok n <-> exists a, node = VRef a /\ s !! a = Some (ONode n).
Proof.
  split.
  - destruct node as [| | | | |a]; simpl; try discriminate.
    destruct (s !! a) as [[m|]|] eqn:E; try discriminate.
    intros [= ->]. eauto.
  - intros (a & -> & E). simpl. by rewrite E.
Qed.

(** A missing coordinate is found before anything else is looked at. *)
Lemma get_source_segment_missing (s : store) (source : string) (node : value)
    (n : AST) (padded : bool) :
  node_of s node = Ok n ->
  lineno n = None \/ col_offset n = None \/ end_lineno n = None \/ end_col_offset n = None ->
  get_source_segment s source node padded = Ok None.
Proof.
  intros Hn Hmiss. unfold get_source_segment. rewrite Hn. simpl.
  destruct (lineno n), (col_offset n), (end_lineno n), (end_col_offset n);
    try reflexivity.
  destruct Hmiss as [H|[H|[H|H]]]; discriminate.
Qed.

(** C3, as the spec states it, fails: the end column is inclusive, so the
    span (1,1)-(2,2) of the example text ends with the whole of [def]. *)
Lemma get_source_segment_example_not_bc_de :
  get_source_segment example_span_store example_source (VRef 1%positive) false
  <> Ok (Some ("bc" +:+ nl +:+ "de")).
Proof. vm_compute. discriminate. Qed.

(** C3 (amended): on the text of the example, a node spanning (line 1,
    column 1) to (line 2, column 2), not padded, gives the two lines from
    column 1 of the first to column 2 of the second, that column included;
    and a node whose [end_lineno] is unset gives the absent result on every
    text, padded or not. *)
Theorem get_source_segment_example (s : store) (node : value) (n : AST) :
  node_of s node = Ok n ->
  (lineno n = Some 1 -> col_offset n = Some 1 ->
   end_lineno n = Some 2 -> end_col_offset n = Some 2 ->
   get_source_segment s example_source node false = Ok (Some ("bc" +:+ nl +:+ "def")))
  /\ (end_lineno n = None ->
      forall source padded, get_source_segment s source node padded = Ok None).
Proof.
  intros Hn. split.
  - intros Hl Hc Hel Hec. unfold get_source_segment.
    rewrite Hn. simpl. rewrite Hl, Hc, Hel, Hec. reflexivity.
  - intros Hel source padded.
    apply (get_source_segment_missing s source node n padded Hn). auto.
Qed.

Lemma get_source_segment_example_witness :
  get_source_segment example_span_store example_source (VRef 1%positive) false
    = Ok (Some ("bc" +:+ nl +:+ "def"))
  /\ get_source_segment no_end_line_store example_source (VRef 1%positive) true
    = Ok None.
Proof.
  split.
  - apply (get_source_segment_example example_span_store (VRef 1%positive)
             (leaf "Name" (Some 1) (Some 1) (Some 2) (Some 2)));
      reflexivity.
  - apply (get_source_segment_example no_end_line_store (VRef 1%positive)
             (leaf "Name" (Some 1) (Some 1) None (Some 2)));
      reflexivity.
Defined.

(** C10: a node whose start column is unset gives the absent result even
    when padded, because the four coordinates are checked before the padded
    override; yet once all four are set the padded result does not depend on
    the start column. *)
Theorem get_source_segment_padded_needs_column (s : store) (source : string)
    (a : addr) (n : AST) :
  s !! a = Some (ONode n) ->
  (col_offset n = None -> get_source_segment s source (VRef a) true = Ok None)
  /\ (forall c c' : Z,
        get_source_segment (<[a := ONode (set_col_offset n (Some c))]> s) source (VRef a) true
        = get_source_segment (<[a := ONode (set_col_offset n (Some c'))]> s) source (VRef a) true).
Proof.
  intros Ha. split.
  - intros Hc. apply (get_source_segment_missing s source (VRef a) n true).
    + apply node_of_lookup. eauto.
    + auto.
  - intros c c'. unfold get_source_segment. simpl.
    rewrite !lookup_insert_eq. simpl. reflexivity.
Qed.

Lemma get_source_segment_padded_needs_column_witness :
  get_source_segment no_column_store example_source (VRef 1%positive) true = Ok None.
Proof.
  apply (get_source_segment_padded_needs_column no_column_store example_source
           1%positive (leaf "Name" (Some 1) None (Some 2) (Some 2)));
    reflexivity.
Defined.

(** ** Direct children *)

Lemma yield_items_filter (s : store) (items : list value) :
  yield_items s items = filter (is_node s) items.
Proof.
  induction items as [|item items IH]; [reflexivity|].
  simpl. rewrite filter_cons.
  destruct (decide (is_node s item)) as [[b Hb]|Hn].
  - rewrite Hb. by rewrite IH.
  - destruct (as_AST s item) as [b|] eqn:E; [|exact IH].
    exfalso. apply Hn. unfold is_node. rewrite E. eauto.
Qed.

Lemma yield_children_values (s : store) (n : AST) (names : list string) :
  yield_children s (iter_names n names) = set_values n names ≫= nodes_of_value s.
Proof.
  unfold set_values. induction names as [|name names IH]; [reflexivity|].
  simpl. destruct (getattr n name) as [v|]; [|exact IH].
  simpl. change (list_bind _ _ ?f ?l) with (l ≫= f).
  change (list_omap _ _ ?f ?l) with (omap f l).
  rewrite <- IH. unfold nodes_of_value.
  destruct (as_AST s v); [reflexivity|].
  destruct (as_list s v) as [[l items]|]; [|reflexivity].
  by rewrite yield_items_filter.
Qed.

Lemma iter_child_nodes_node (s : store) (a : addr) (n : AST) :
  s !! a = Some (ONode n) ->
  iter_child_nodes s (VRef a) = Ok (direct_children s n).
Proof.
  intros Ha. unfold iter_child_nodes, iter_attribs, iter_fields, direct_children.
  simpl. rewrite Ha. simpl. by rewrite !yield_children_values.
Qed.

Lemma nodes_of_value_are_nodes (s : store) (v : value) :
  Forall (is_node s) (nodes_of_value s v).
Proof.
  unfold nodes_of_value. destruct (as_AST s v) as [a|] eqn:E.
  - constructor; [|constructor]. unfold is_node. rewrite E. eauto.
  - destruct (as_list s v) as [[l items]|]; [|constructor].
    apply Forall_forall. intros x Hx. by apply list_elem_of_filter in Hx as [Hx _].
Qed.

Lemma direct_children_are_nodes (s : store) (n : AST) :
  Forall (is_node s) (direct_children s n).
Proof.
  unfold direct_children. apply Forall_app. split.
  - apply Forall_bind, Forall_forall. intros v _. apply nodes_of_value_are_nodes.
  - apply Forall_bind, Forall_forall. intros v _. apply nodes_of_value_are_nodes.
Qed.

(** C5: on a node, [iter_child_nodes] yields the direct children: what the
    attribute values contribute, in declared attribute order, then what the
    field values contribute, in declared field order, where a value that is a
    node contributes itself, a sequence contributes its node elements in
    sequence order, and any other value contributes nothing; everything
    yielded is a node. *)
Theorem iter_child_nodes_direct_children (s : store) (a : addr) (n : AST) :
  s !! a = Some (ONode n) ->
  iter_child_nodes s (VRef a)
  = Ok ((set_values n (_attribs n) ≫= nodes_of_value s)
        ++ (set_values n (_fields n) ≫= nodes_of_value s))
  /\ (forall v, is_node s v -> nodes_of_value s v = [v])
  /\ (forall v l items,
        as_list s v = Some (l, items) -> nodes_of_value s v = filter (is_node s) items)
  /\ (forall v, ~ is_node s v -> as_list s v = None -> nodes_of_value s v = [])
  /\ (forall kids, iter_child_nodes s (VRef a) = Ok kids -> Forall (is_node s) kids).
Proof.
  intros Ha. split; [exact (iter_child_nodes_node s a n Ha)|].
  split; [|split; [|split]].
  - intros v [b Hb]. unfold nodes_of_value. by rewrite Hb.
  - intros v l items Hl. unfold nodes_of_value.
    destruct (as_AST s v) as [b|] eqn:E; [|by rewrite Hl].
    destruct v as [| | | | |r]; try discriminate.
    simpl in E, Hl. destruct (s !! r) as [[?|?]|]; discriminate.
  - intros v Hv Hl. unfold nodes_of_value.
    destruct (as_AST s v) as [b|] eqn:E; [|by rewrite Hl].
    exfalso. apply Hv. unfold is_node. rewrite E. eauto.
  - intros kids. rewrite (iter_child_nodes_node s a n Ha). intros [= <-].
    apply direct_children_are_nodes.
Qed.

Lemma iter_child_nodes_direct_children_witness :
  iter_child_nodes depth2_store (VRef 1%positive)
  = Ok [VRef 2%positive; VRef 3%positive].
Proof.
  assert (depth2_store !! 1%positive
          = Some (ONode (plain "Root" ["body"; "orelse"] {[ "body" := VRef 6%positive ]})))
    as Hroot by reflexivity.
  pose proof (proj1 (iter_child_nodes_direct_children depth2_store 1%positive _ Hroot))
    as Hkids.
  rewrite Hkids. vm_compute. reflexivity.
Defined.

(** ** The transformer on a sequence-valued field *)

(** A visitor without a method [visit_list] that is handed a list falls back
    to its generic handler, which reads [_attribs] off the list. *)
Lemma visit_list_raises (methods : string -> option (Self -> value -> M value))
    (fuel : nat) (s : store) (l : addr) (items : list value) :
  methods "visit_list" = None ->
  s !! l = Some (OList items) ->
  visit (NodeTransformer methods) (S fuel) (VRef l) s = Raise AttributeError
  /\ visit (NodeVisitor methods) (S fuel) (VRef l) s = Raise AttributeError.
Proof.
  intros Hm Hl. split.
  - simpl. rewrite Hl. change ("visit_" +:+ "list") with "visit_list". rewrite Hm.
    unfold NodeTransformer_generic_visit, st_bind, st_lift. simpl. by rewrite Hl.
  - simpl. rewrite Hl. change ("visit_" +:+ "list") with "visit_list". rewrite Hm.
    unfold NodeVisitor_generic_visit, st_bind, st_lift, iter_child_nodes, iter_attribs.
    simpl. by rewrite Hl.
Qed.

(** C1, at the failing input: the parent's field [body] holds a list with one
    node [Foo] and a number, and the transformer's [visit_Foo] returns two
    replacements, as visiting the element itself shows.  The generic handler
    never calls [visit_Foo]: it visits the list, and the call raises
    [AttributeError], with any fuel that lets the two nested calls of [visit]
    run.  The list is not rewritten into the two replacements and the
    number. *)
Theorem transformer_visits_the_list (fuel : nat) :
  visit FooSplitter (S fuel) (VRef 3%positive) body_store
  = Ok (VRef 6%positive,
        <[6%positive := OList [VRef 4%positive; VRef 5%positive]]> body_store)
  /\ visit FooSplitter (S (S fuel)) (VRef 1%positive) body_store = Raise AttributeError.
Proof. split; reflexivity. Qed.

(** With no [visit_list], the loop over a list that holds a node raises at the
    first node, whatever methods the transformer has for the elements. *)
Lemma transform_items_raises (methods : string -> option (Self -> value -> M value))
    (fuel : nat) (s : store) (l : addr) (list_items items new : list value) :
  methods "visit_list" = None ->
  s !! l = Some (OList list_items) ->
  Exists (is_node s) items ->
  transform_items (visit (NodeTransformer methods) (S fuel)) (VRef l) l items new s
  = Raise AttributeError.
Proof.
  intros Hm Hl Hex.
  pose proof (proj1 (visit_list_raises methods fuel s l list_items Hm Hl)) as Hvisit.
  remember (visit (NodeTransformer methods) (S fuel)) as self_visit eqn:Hself.
  clear Hself. revert new.
  induction Hex as [item items [b Hb]|item items _ IH]; intros new.
  - simpl. rewrite Hb. unfold st_bind. by rewrite Hvisit.
  - simpl. destruct (as_AST s item) as [b|]; [|apply IH].
    unfold st_bind. by rewrite Hvisit.
Qed.

(** ** Shapes *)


Lemma shape_forall_ind (P : shape -> Prop) :
  (forall a kids, Forall P kids -> P (Sh a kids)) -> forall t, P t.
Proof.
  intros step. fix IH 1. intros [a kids]. apply step.
  induction kids as [|k kids IHkids]; constructor; [apply IH|exact IHkids].
Qed.

Lemma tree_at_inv (s : store) (a : addr) (kids : list shape) :
  tree_at s (Sh a kids) ->
  iter_child_nodes s (VRef a) = Ok (roots kids) /\ Forall (tree_at s) kids.
Proof. by inversion 1. Qed.

Lemma roots_app (q r : list shape) : roots (q ++ r) = roots q ++ roots r.
Proof. apply fmap_app. Qed.

Lemma forest_nodes_cons (t : shape) (q : list shape) :
  forest_nodes (t :: q) = nodes t ++ forest_nodes q.
Proof. reflexivity. Qed.

Lemma forest_nodes_app (q r : list shape) :
  forest_nodes (q ++ r) = forest_nodes q ++ forest_nodes r.
Proof. unfold forest_nodes. by rewrite fmap_app, concat_app. Qed.

Lemma elem_of_forest_nodes (a : addr) (q : list shape) :
  a ∈ forest_nodes q <-> exists k, k ∈ q /\ a ∈ nodes k.
Proof.
  induction q as [|t q IH].
  - split; [intros H; by apply elem_of_nil in H|].
    intros (k & Hk & _). by apply elem_of_nil in Hk.
  - rewrite forest_nodes_cons, elem_of_app, IH. split.
    + intros [H|(k & Hk & H)].
      * exists t. split; [apply list_elem_of_here|exact H].
      * exists k. split; [by apply list_elem_of_further|exact H].
    + intros (k & Hk & H). apply elem_of_cons in Hk as [->|Hk]; eauto.
Qed.

Lemma nodes_unfold (t : shape) : nodes t = root_of t :: forest_nodes (kids_of t).
Proof. by destruct t. Qed.

(** The nodes of a forest are its roots and the nodes of the forest below. *)
Lemma forest_nodes_levels (q : list shape) :
  forest_nodes q ≡ₚ (root_of <$> q) ++ forest_nodes (q ≫= kids_of).
Proof.
  induction q as [|t q IH]; [reflexivity|].
  rewrite forest_nodes_cons, nodes_unfold, IH. simpl.
  change (list_bind _ _ ?f ?l) with (l ≫= f).
  rewrite forest_nodes_app. constructor.
  rewrite !(assoc_L (++)).
  by rewrite (Permutation_app_comm (forest_nodes (kids_of t)) (root_of <$> q)).
Qed.

Lemma forest_nodes_length (q : list shape) :
  length (forest_nodes q) = (length q + length (forest_nodes (q ≫= kids_of)))%nat.
Proof.
  rewrite (Permutation_length (forest_nodes_levels q)).
  by rewrite length_app, length_fmap.
Qed.

Lemma lower_zero (q : list shape) : lower 0 q -> q = [].
Proof.
  destruct q as [|[a kids] q]; [reflexivity|].
  intros H. apply Forall_cons in H as [H _]. simpl in H. lia.
Qed.

Lemma height_kids (a : addr) (kids : list shape) (depth : nat) :
  (height (Sh a kids) <= S depth)%nat -> lower depth kids.
Proof.
  simpl. intros H. apply le_S_n in H. unfold lower.
  induction kids as [|k kids IH]; [constructor|].
  simpl in H. apply Nat.max_lub_iff in H as [Hk Hkids].
  constructor; [exact Hk|]. apply IH, Hkids.
Qed.

Lemma lower_kids (depth : nat) (q : list shape) :
  lower (S depth) q -> lower depth (q ≫= kids_of).
Proof.
  unfold lower. induction 1 as [|[a kids] q Ht _ IH]; [constructor|].
  simpl. apply Forall_app. split; [|exact IH].
  by apply (height_kids a).
Qed.

Lemma tree_at_kids (s : store) (q : list shape) :
  Forall (tree_at s) q -> Forall (tree_at s) (q ≫= kids_of).
Proof.
  induction 1 as [|[a kids] q Ht _ IH]; [constructor|].
  simpl. apply Forall_app. split; [|exact IH].
  by apply tree_at_inv in Ht as [_ Hk].
Qed.

(** ** Walking *)

Lemma obind_Ok {E A : Type} (m : outcome E A) : (let! x := m in Ok x) = m.
Proof. by destruct m. Qed.

(** The deque as a queue: once the nodes [q] at its front have been yielded,
    it holds what was behind them followed by their children. *)
Lemma walk_loop_front (s : store) (q : list shape) :
  Forall (tree_at s) q ->
  forall (fuel : nat) (r : list value),
    walk_loop (length q + fuel) s (roots q ++ r)
    = let! rest := walk_loop fuel s (r ++ roots (q ≫= kids_of)) in
      Ok (roots q ++ rest).
Proof.
  induction 1 as [|[a kids] q Ht _ IH]; intros fuel r.
  - simpl. rewrite app_nil_r. symmetry. apply obind_Ok.
  - apply tree_at_inv in Ht as [Hkids _].
    change (walk_loop (S (length q + fuel)) s (VRef a :: (roots q ++ r))
            = let! rest := walk_loop fuel s (r ++ roots (kids ++ (q ≫= kids_of))) in
              Ok (VRef a :: (roots q ++ rest))).
    simpl walk_loop. rewrite Hkids. simpl obind.
    rewrite <- (assoc_L (++)), IH, roots_app, (assoc_L (++)).
    by destruct (walk_loop fuel s ((r ++ roots kids) ++ roots (q ≫= kids_of))).
Qed.

Lemma walk_loop_levels (s : store) (depth : nat) :
  forall (q : list shape) (fuel : nat),
    Forall (tree_at s) q -> lower depth q ->
    walk_loop (length (forest_nodes q) + S fuel) s (roots q) = Ok (levels depth q).
Proof.
  induction depth as [|depth IH]; intros q fuel Htree Hlow.
  - apply lower_zero in Hlow. subst q. reflexivity.
  - rewrite forest_nodes_length, <- (assoc_L Nat.add).
    rewrite <- (app_nil_r (roots q)) at 1.
    rewrite (walk_loop_front s q Htree). simpl app.
    rewrite (IH (q ≫= kids_of) fuel (tree_at_kids s q Htree) (lower_kids depth q Hlow)).
    reflexivity.
Qed.

Lemma levels_nodes (depth : nat) :
  forall q : list shape, lower depth q -> levels depth q ≡ₚ VRef <$> forest_nodes q.
Proof.
  induction depth as [|depth IH]; intros q Hlow.
  - apply lower_zero in Hlow. by subst q.
  - simpl. rewrite (IH _ (lower_kids depth q Hlow)).
    rewrite (forest_nodes_levels q), fmap_app. unfold roots.
    by rewrite <- list_fmap_compose.
Qed.

Lemma breadth_first_nodes (t : shape) : breadth_first t ≡ₚ VRef <$> nodes t.
Proof.
  unfold breadth_first. rewrite (levels_nodes (height t) [t]).
  - unfold forest_nodes. simpl. by rewrite app_nil_r.
  - by constructor.
Qed.

Lemma walk_tree (s : store) (t : shape) (fuel : nat) :
  tree_at s t ->
  (length (nodes t) < fuel)%nat ->
  walk fuel s (VRef (root_of t)) = Ok (breadth_first t).
Proof.
  intros Htree Hfuel. unfold walk, breadth_first.
  replace fuel with (length (forest_nodes [t]) + S (fuel - S (length (nodes t))))%nat.
  - apply (walk_loop_levels s (height t) [t]); by constructor.
  - unfold forest_nodes. simpl. rewrite app_nil_r. lia.
Qed.

(** C4: on a tree held by the store, with fuel for one round per node and
    one more, [walk] yields the nodes in breadth-first order: the root first,
    then level after level, each level being the children of the level above
    in [iter_child_nodes] order, which makes all the nodes of the tree; when
    the root has two children with one child each, these are five nodes: the
    root, its two children, then their children. *)
Theorem walk_breadth_first (s : store) (t : shape) (fuel : nat) :
  tree_at s t ->
  (length (nodes t) < fuel)%nat ->
  walk fuel s (VRef (root_of t)) = Ok (breadth_first t)
  /\ (exists rest, breadth_first t = VRef (root_of t) :: rest)
  /\ breadth_first t ≡ₚ VRef <$> nodes t
  /\ (forall r a b c d,
        t = Sh r [Sh a [Sh c []]; Sh b [Sh d []]] ->
        walk fuel s (VRef r) = Ok [VRef r; VRef a; VRef b; VRef c; VRef d]).
Proof.
  intros Htree Hfuel. split; [|split; [|split]].
  - exact (walk_tree s t fuel Htree Hfuel).
  - unfold breadth_first. destruct t as [a kids]. simpl. eauto.
  - apply breadth_first_nodes.
  - intros r a b c d ->. exact (walk_tree s _ fuel Htree Hfuel).
Qed.

Lemma walk_breadth_first_witness :
  walk 6 depth2_store (VRef 1%positive)
  = Ok [VRef 1%positive; VRef 2%positive; VRef 3%positive; VRef 4%positive;
        VRef 5%positive].
Proof.
  refine (proj2 (proj2 (proj2
            (walk_breadth_first depth2_store depth2_shape 6 _ _)))
            1%positive 2%positive 3%positive 4%positive 5%positive eq_refl).
  - repeat (constructor; [reflexivity|]); repeat constructor.
  - vm_compute. lia.
Defined.

(** ** What a write of coordinates leaves alone *)

Lemma same_shape_refl (n : AST) : same_shape n n.
Proof. by repeat split. Qed.

Lemma same_shape_trans (n1 n2 n3 : AST) :
  same_shape n1 n2 -> same_shape n2 n3 -> same_shape n1 n3.
Proof.
  intros (? & ? & ? & ?) (? & ? & ? & ?). repeat split; congruence.
Qed.

Lemma same_structure_refl (s : store) : same_structure s s.
Proof.
  intros a. destruct (s !! a) as [[n|l]|]; [apply same_shape_refl|reflexivity|exact I].
Qed.

Lemma same_structure_trans (s1 s2 s3 : store) :
  same_structure s1 s2 -> same_structure s2 s3 -> same_structure s1 s3.
Proof.
  intros H12 H23 a. specialize (H12 a). specialize (H23 a).
  destruct (s1 !! a) as [[n1|l1]|], (s2 !! a) as [[n2|l2]|], (s3 !! a) as [[n3|l3]|];
    try contradiction; try exact I.
  - by apply (same_shape_trans n1 n2 n3).
  - congruence.
Qed.

Lemma same_structure_insert (s : store) (a : addr) (n n' : AST) :
  s !! a = Some (ONode n) -> same_shape n n' ->
  same_structure s (<[a := ONode n']> s).
Proof.
  intros Ha Hshape b. destruct (decide (a = b)) as [<-|Hne].
  - by rewrite lookup_insert_eq, Ha.
  - rewrite lookup_insert_ne by done. apply same_structure_refl.
Qed.

Lemma as_AST_frame (s s' : store) (v : value) :
  same_structure s s' -> as_AST s v = as_AST s' v.
Proof.
  intros H. destruct v as [| | | | |a]; try reflexivity.
  simpl. specialize (H a).
  by destruct (s !! a) as [[n|l]|], (s' !! a) as [[n'|l']|].
Qed.

Lemma as_list_frame (s s' : store) (v : value) :
  same_structure s s' -> as_list s v = as_list s' v.
Proof.
  intros H. destruct v as [| | | | |a]; try reflexivity.
  simpl. specialize (H a).
  destruct (s !! a) as [[n|l]|], (s' !! a) as [[n'|l']|];
    try contradiction; try reflexivity.
  by subst.
Qed.

Lemma yield_items_frame (s s' : store) (items : list value) :
  same_structure s s' -> yield_items s items = yield_items s' items.
Proof.
  intros H. induction items as [|item items IH]; [reflexivity|].
  simpl. rewrite <- (as_AST_frame s s' item H), IH. reflexivity.
Qed.

(** A coordinate is never a child. *)
Lemma coord_not_object (s : store) (c : option Z) :
  as_AST s (of_coord c) = None /\ as_list s (of_coord c) = None.
Proof. by destruct c. Qed.

Lemma yield_children_frame (s s' : store) (n n' : AST) (names : list string) :
  same_structure s s' -> same_shape n n' ->
  yield_children s (iter_names n names) = yield_children s' (iter_names n' names).
Proof.
  intros Hs (_ & Hf & Ha & Hattrs).
  induction names as [|name names IH]; [reflexivity|].
  simpl. unfold getattr. rewrite <- Hf, <- Ha, <- Hattrs.
  repeat case_decide; simpl;
    rewrite ?(proj1 (coord_not_object _ _)), ?(proj2 (coord_not_object _ _)); try exact IH.
  - destruct (attrs n !! name) as [v|]; simpl; [|exact IH].
    rewrite <- (as_AST_frame s s' v Hs), <- (as_list_frame s s' v Hs), IH.
    destruct (as_AST s v); [reflexivity|].
    destruct (as_list s v) as [[l items]|]; [|reflexivity].
    by rewrite (yield_items_frame s s' items Hs).
  - destruct (attrs n !! name) as [v|]; simpl; [|exact IH].
    rewrite <- (as_AST_frame s s' v Hs), <- (as_list_frame s s' v Hs), IH.
    destruct (as_AST s v); [reflexivity|].
    destruct (as_list s v) as [[l items]|]; [|reflexivity].
    by rewrite (yield_items_frame s s' items Hs).
Qed.

(** Between two yields the consumers of [iter_child_nodes] only write
    coordinates: the generator yields the same children. *)
Lemma iter_child_nodes_frame (s s' : store) (v : value) :
  same_structure s s' -> iter_child_nodes s v = iter_child_nodes s' v.
Proof.
  intros H. destruct v as [| | | | |a]; try reflexivity.
  unfold iter_child_nodes, iter_attribs, iter_fields. simpl.
  pose proof (H a) as Ha.
  destruct (s !! a) as [[n|l]|], (s' !! a) as [[n'|l']|];
    try contradiction; try reflexivity.
  simpl. pose proof Ha as (_ & Hf & Hat & _). rewrite <- Hf, <- Hat.
  by rewrite (yield_children_frame s s' n n' (_attribs n) H Ha),
    (yield_children_frame s s' n n' (_fields n) H Ha).
Qed.

Lemma walk_loop_frame (s s' : store) (fuel : nat) (todo : list value) :
  same_structure s s' -> walk_loop fuel s todo = walk_loop fuel s' todo.
Proof.
  intros H. revert todo. induction fuel as [|fuel IH]; intros todo; [reflexivity|].
  simpl. destruct todo as [|v todo]; [reflexivity|].
  rewrite <- (iter_child_nodes_frame s s' v H).
  destruct (iter_child_nodes s v) as [kids| |]; simpl; [|reflexivity|reflexivity].
  by rewrite IH.
Qed.

Lemma tree_at_frame (s s' : store) (t : shape) :
  same_structure s s' -> tree_at s t -> tree_at s' t.
Proof.
  intros H. induction t as [a kids IH] using shape_forall_ind.
  intros Ht. apply tree_at_inv in Ht as [Hkids Hsub]. constructor.
  - by rewrite <- (iter_child_nodes_frame s s' (VRef a) H).
  - apply Forall_forall. intros k Hk.
    rewrite Forall_forall in IH, Hsub. by apply IH, Hsub.
Qed.

Lemma iter_child_nodes_Ok (s : store) (v : value) (kids : list value) :
  iter_child_nodes s v = Ok kids ->
  exists a n, v = VRef a /\ s !! a = Some (ONode n).
Proof.
  unfold iter_child_nodes, iter_attribs.
  destruct (node_of s v) as [n| |] eqn:E; simpl; try discriminate.
  apply node_of_lookup in E as (a & -> & Ha). eauto.
Qed.

(** ** Line shifting *)

Lemma bump_shifted (delta : Z) (n : AST) : bump delta n = shifted delta n.
Proof.
  destruct n as [c f a l co el eco d]. unfold bump, shifted. simpl.
  destruct l, el; reflexivity.
Qed.

Lemma shifted_zero (n : AST) : shifted 0 n = n.
Proof.
  destruct n as [c f a l co el eco d]. unfold shifted. simpl.
  destruct l, el; simpl; rewrite ?Z.add_0_r; reflexivity.
Qed.

Lemma same_shape_shifted (delta : Z) (n : AST) : same_shape n (shifted delta n).
Proof. by repeat split. Qed.

(** The interleaved loop does to each node [walk] yields what the body says,
    once per time the node is yielded; here no node is yielded twice. *)
Lemma increment_loop_spec (delta : Z) (fuel : nat) :
  forall (s : store) (todo l : list value),
    walk_loop fuel s todo = Ok l ->
    NoDup l ->
    exists s',
      increment_loop fuel s todo delta = Ok s'
      /\ same_structure s s'
      /\ (forall a, VRef a ∈ l ->
            exists n, s !! a = Some (ONode n) /\ s' !! a = Some (ONode (shifted delta n)))
      /\ (forall a, VRef a ∉ l -> s' !! a = s !! a).
Proof.
  induction fuel as [|fuel IH]; intros s todo l Hwalk Hnd; [discriminate|].
  simpl in Hwalk. simpl. destruct todo as [|v todo].
  - injection Hwalk as <-. exists s. split; [reflexivity|].
    split; [apply same_structure_refl|]. split; [|reflexivity].
    intros a Ha. by apply elem_of_nil in Ha.
  - destruct (iter_child_nodes s v) as [kids| |] eqn:Ekids; simpl in *; try discriminate.
    destruct (walk_loop fuel s (todo ++ kids)) as [rest| |] eqn:Erest;
      simpl in *; try discriminate.
    injection Hwalk as <-.
    destruct (iter_child_nodes_Ok s v kids Ekids) as (a & n & -> & Ha).
    simpl. rewrite Ha. simpl. rewrite bump_shifted.
    set (s1 := <[a := ONode (shifted delta n)]> s).
    assert (same_structure s s1) as Hs1
      by apply (same_structure_insert s a n _ Ha (same_shape_shifted delta n)).
    apply NoDup_cons in Hnd as [Hfresh Hnd].
    rewrite (walk_loop_frame s s1 fuel _ Hs1) in Erest.
    destruct (IH s1 (todo ++ kids) rest Erest Hnd) as (s' & Hrun & Hs' & Hin & Hout).
    exists s'. split; [exact Hrun|].
    split; [by apply (same_structure_trans s s1 s')|]. split.
    + intros b Hb. apply elem_of_cons in Hb as [[= ->]|Hb].
      * exists n. split; [exact Ha|].
        rewrite (Hout a Hfresh). apply lookup_insert_eq.
      * assert (a <> b) as Hne by (intros ->; contradiction).
        destruct (Hin b Hb) as (m & Hm & Hm').
        exists m. split; [|exact Hm'].
        unfold s1 in Hm. by rewrite lookup_insert_ne in Hm.
    + intros b Hb. apply not_elem_of_cons in Hb as [Hne Hb].
      rewrite (Hout b Hb). unfold s1. apply lookup_insert_ne. congruence.
Qed.

Lemma breadth_first_elem (t : shape) (a : addr) :
  VRef a ∈ breadth_first t <-> a ∈ nodes t.
Proof.
  rewrite (breadth_first_nodes t). rewrite list_elem_of_fmap. split.
  - by intros (b & [= ->] & Hb).
  - eauto.
Qed.

(** C9: on a tree, with fuel for one round per node and one more,
    [increment_lineno] returns the node it was given; in the store it leaves,
    every node of the tree has [delta] added to its start line if that was
    set and to its end line if that was set, with its columns, its unset
    lines and everything else as before; nothing outside the tree has
    changed; and with [delta = 0] the store is the one it started from. *)
Theorem increment_lineno_shifts (s : store) (t : shape) (delta : Z) (fuel : nat) :
  is_tree s t ->
  (length (nodes t) < fuel)%nat ->
  exists s',
    increment_lineno fuel s (VRef (root_of t)) delta = Ok (VRef (root_of t), s')
    /\ (forall a, a ∈ nodes t ->
          exists n, s !! a = Some (ONode n)
                    /\ s' !! a = Some (ONode (shifted delta n)))
    /\ (forall a, a ∉ nodes t -> s' !! a = s !! a)
    /\ (delta = 0 -> s' = s).
Proof.
  intros [Htree Hnd] Hfuel.
  pose proof (walk_tree s t fuel Htree Hfuel) as Hwalk.
  assert (NoDup (breadth_first t)) as Hnd'.
  { rewrite (breadth_first_nodes t). apply NoDup_fmap; [|exact Hnd].
    by intros x y [= ->]. }
  destruct (increment_loop_spec delta fuel s _ _ Hwalk Hnd')
    as (s' & Hrun & _ & Hin & Hout).
  exists s'. unfold increment_lineno. rewrite Hrun. simpl.
  split; [reflexivity|].
  assert (forall a, a ∈ nodes t ->
            exists n, s !! a = Some (ONode n)
                      /\ s' !! a = Some (ONode (shifted delta n))) as Hin'.
  { intros a Ha. apply Hin. by apply breadth_first_elem. }
  assert (forall a, a ∉ nodes t -> s' !! a = s !! a) as Hout'.
  { intros a Ha. apply Hout. by rewrite breadth_first_elem. }
  split; [exact Hin'|]. split; [exact Hout'|].
  intros ->. apply map_eq. intros a.
  destruct (decide (a ∈ nodes t)) as [Ha|Ha].
  - destruct (Hin' a Ha) as (n & Hn & Hn'). by rewrite Hn', Hn, shifted_zero.
  - by apply Hout'.
Qed.

Lemma increment_lineno_shifts_witness :
  exists s',
    increment_lineno 6 depth2_store (VRef 1%positive) 3 = Ok (VRef 1%positive, s')
    /\ (forall a, a ∈ nodes depth2_shape ->
          exists n, depth2_store !! a = Some (ONode n)
                    /\ s' !! a = Some (ONode (shifted 3 n)))
    /\ (forall a, a ∉ nodes depth2_shape -> s' !! a = depth2_store !! a)
    /\ (3 = 0 -> s' = depth2_store).
Proof.
  apply (increment_lineno_shifts depth2_store depth2_shape 3 6).
  - split.
    + repeat (constructor; [reflexivity|]); repeat constructor.
    + solve_NoDup.
  - vm_compute. lia.
Defined.

(** ** Location filling *)

(** One call of [_fix] on a node: the four fills leave the node with the
    settled coordinates, and these go down to the children. *)
Lemma _fix_node (fuel : nat) (s : store) (a : addr) (n : AST) (inh : coords) :
  s !! a = Some (ONode n) ->
  _fix (S fuel) s (VRef a)
       (c_lineno inh) (c_col_offset inh) (c_end_lineno inh) (c_end_col_offset inh)
  = let s1 := <[a := ONode (located n (settled n inh))]> s in
    let! kids := iter_child_nodes s1 (VRef a) in
    for_each (fun s child =>
                _fix fuel s child
                     (c_lineno (settled n inh)) (c_col_offset (settled n inh))
                     (c_end_lineno (settled n inh)) (c_end_col_offset (settled n inh)))
             s1 kids.
Proof.
  intros Ha. simpl. rewrite Ha. simpl.
  destruct n as [c f at_ l co el eco d], inh as [il ico iel ieco].
  destruct l, co, el, eco; reflexivity.
Qed.

Lemma same_shape_located (n : AST) (c : coords) : same_shape n (located n c).
Proof. by repeat split. Qed.

(** [filled] only looks at the nodes of the shape. *)
Lemma filled_agree (s1 s2 s1' s2' : store) (t : shape) :
  forall inh,
    filled s1 s2 t inh ->
    (forall a, a ∈ nodes t -> s1' !! a = s1 !! a) ->
    (forall a, a ∈ nodes t -> s2' !! a = s2 !! a) ->
    filled s1' s2' t inh.
Proof.
  induction t as [a kids IH] using shape_forall_ind.
  intros inh Hf H1 H2. inversion Hf as [? ? ? n Ha Ha' Hkids]; subst.
  apply (filled_node s1' s2' a kids inh n).
  - rewrite H1; [exact Ha|]. simpl. apply list_elem_of_here.
  - rewrite H2; [exact Ha'|]. simpl. apply list_elem_of_here.
  - rewrite Forall_forall in IH, Hkids. apply Forall_forall. intros k Hk.
    apply (IH k Hk); [by apply Hkids| |].
    + intros b Hb. apply H1. simpl. right.
      apply elem_of_forest_nodes. eauto.
    + intros b Hb. apply H2. simpl. right.
      apply elem_of_forest_nodes. eauto.
Qed.

Lemma filled_located (s s' : store) (t : shape) :
  forall inh,
    filled s s' t inh ->
    forall a, a ∈ nodes t -> exists n', s' !! a = Some (ONode n') /\ has_location n'.
Proof.
  induction t as [a kids IH] using shape_forall_ind.
  intros inh Hf b Hb. inversion Hf as [? ? ? n Ha Ha' Hkids]; subst.
  simpl in Hb. apply elem_of_cons in Hb as [->|Hb].
  - eexists. split; [exact Ha'|]. by repeat split; eexists.
  - apply elem_of_forest_nodes in Hb as (k & Hk & Hb).
    rewrite Forall_forall in IH, Hkids.
    by apply (IH k Hk _ (Hkids k Hk)).
Qed.

(** The loop over the children: each call works inside its own subtree. *)
Lemma for_each_fix_fills (fuel : nat) (inh : coords) (kids : list shape) :
  Forall fix_fills kids ->
  forall s : store,
    Forall (tree_at s) kids -> NoDup (forest_nodes kids) -> lower fuel kids ->
    exists s',
      for_each (fun s child =>
                  _fix fuel s child (c_lineno inh) (c_col_offset inh)
                       (c_end_lineno inh) (c_end_col_offset inh))
               s (roots kids)
      = Ok s'
      /\ same_structure s s'
      /\ Forall (fun k => filled s s' k inh) kids
      /\ (forall a, a ∉ forest_nodes kids -> s' !! a = s !! a).
Proof.
  induction 1 as [|k kids Hk _ IH]; intros s Htree Hnd Hlow.
  - exists s. split; [reflexivity|]. split; [apply same_structure_refl|].
    split; [constructor|reflexivity].
  - apply Forall_cons in Htree as [Htk Htree].
    apply Forall_cons in Hlow as [Hlk Hlow].
    rewrite forest_nodes_cons in Hnd. apply NoDup_app in Hnd as (Hndk & Hdisj & Hnd).
    destruct (Hk s inh fuel Htk Hndk Hlk) as (s1 & Hrun1 & Hs1 & Hf1 & Hout1).
    assert (Forall (tree_at s1) kids) as Htree1.
    { apply Forall_forall. intros k' Hk'. rewrite Forall_forall in Htree.
      by apply (tree_at_frame s s1), Htree. }
    destruct (IH s1 Htree1 Hnd Hlow) as (s2 & Hrun2 & Hs2 & Hf2 & Hout2).
    exists s2. simpl. rewrite Hrun1. simpl. split; [exact Hrun2|].
    split; [by apply (same_structure_trans s s1 s2)|]. split.
    + constructor.
      * apply (filled_agree s s1 s s2 k inh Hf1); [reflexivity|].
        intros a Ha. apply Hout2, Hdisj, Ha.
      * rewrite Forall_forall in Hf2. apply Forall_forall. intros k' Hk'.
        apply (filled_agree s1 s2 s s2 k' inh (Hf2 k' Hk')); [|reflexivity].
        intros a Ha. symmetry. apply Hout1. intros Hak.
        apply (Hdisj a Hak). apply elem_of_forest_nodes. eauto.
    + intros a Ha. rewrite forest_nodes_cons in Ha.
      apply not_elem_of_app in Ha as [Hak Hakids].
      by rewrite (Hout2 a Hakids), (Hout1 a Hak).
Qed.

Lemma _fix_fills (t : shape) : fix_fills t.
Proof.
  induction t as [a kids IH] using shape_forall_ind.
  intros s inh fuel Htree Hnd Hfuel.
  destruct fuel as [|fuel]; [simpl in Hfuel; lia|].
  pose proof (height_kids a kids fuel Hfuel) as Hlow.
  apply tree_at_inv in Htree as [Hkids Htree].
  destruct (iter_child_nodes_Ok s (VRef a) _ Hkids) as (a' & n & [= <-] & Ha).
  simpl in Hnd. apply NoDup_cons in Hnd as [Hfresh Hnd].
  set (s1 := <[a := ONode (located n (settled n inh))]> s).
  assert (same_structure s s1) as Hs1
    by apply (same_structure_insert s a n _ Ha (same_shape_located n _)).
  assert (Forall (tree_at s1) kids) as Htree1.
  { apply Forall_forall. intros k Hk. rewrite Forall_forall in Htree.
    by apply (tree_at_frame s s1), Htree. }
  destruct (for_each_fix_fills fuel (settled n inh) kids IH s1 Htree1 Hnd Hlow)
    as (s2 & Hrun & Hs2 & Hf & Hout).
  exists s2. simpl root_of. rewrite (_fix_node fuel s a n inh Ha).
  cbv zeta. fold s1. rewrite <- (iter_child_nodes_frame s s1 (VRef a) Hs1), Hkids.
  simpl obind. split; [exact Hrun|].
  split; [by apply (same_structure_trans s s1 s2)|]. split.
  - apply (filled_node s s2 a kids inh n Ha).
    + rewrite (Hout a Hfresh). apply lookup_insert_eq.
    + rewrite Forall_forall in Hf. apply Forall_forall. intros k Hk.
      apply (filled_agree s1 s2 s s2 k _ (Hf k Hk)); [|reflexivity].
      intros b Hb. symmetry. apply lookup_insert_ne. intros <-.
      apply Hfresh. apply elem_of_forest_nodes. eauto.
  - intros b Hb. simpl in Hb. apply not_elem_of_cons in Hb as [Hne Hb].
    rewrite (Hout b Hb). by apply lookup_insert_ne.
Qed.

(** C6: on a tree, with fuel for its height, [fix_missing_locations] returns
    the node it was given; in the store it leaves, every node of the tree
    keeps each coordinate that was set and has each unset one from its
    parent's coordinates in that store, the root from (1, 0, 1, 0); so every
    node of the tree has its four coordinates set; the tree has the same
    shape, and nothing outside it has changed. *)
Theorem fix_missing_locations_fills (s : store) (t : shape) (fuel : nat) :
  is_tree s t ->
  (height t <= fuel)%nat ->
  exists s',
    fix_missing_locations fuel s (VRef (root_of t)) = Ok (VRef (root_of t), s')
    /\ filled s s' t root_coords
    /\ (forall a, a ∈ nodes t -> exists n', s' !! a = Some (ONode n') /\ has_location n')
    /\ tree_at s' t
    /\ (forall a, a ∉ nodes t -> s' !! a = s !! a).
Proof.
  intros [Htree Hnd] Hfuel.
  destruct (_fix_fills t s root_coords fuel Htree Hnd Hfuel)
    as (s' & Hrun & Hs' & Hf & Hout).
  exists s'. unfold fix_missing_locations.
  change (_fix fuel s (VRef (root_of t)) 1 0 1 0)
    with (_fix fuel s (VRef (root_of t))
               (c_lineno root_coords) (c_col_offset root_coords)
               (c_end_lineno root_coords) (c_end_col_offset root_coords)).
  rewrite Hrun. simpl.
  split; [reflexivity|]. split; [exact Hf|].
  split; [exact (filled_located s s' t root_coords Hf)|].
  split; [by apply (tree_at_frame s s')|exact Hout].
Qed.

Lemma fix_missing_locations_fills_witness :
  exists s',
    fix_missing_locations 3 depth2_store (VRef 1%positive) = Ok (VRef 1%positive, s')
    /\ filled depth2_store s' depth2_shape root_coords
    /\ (forall a, a ∈ nodes depth2_shape ->
          exists n', s' !! a = Some (ONode n') /\ has_location n')
    /\ tree_at s' depth2_shape
    /\ (forall a, a ∉ nodes depth2_shape -> s' !! a = depth2_store !! a).
Proof.
  apply (fix_missing_locations_fills depth2_store depth2_shape 3).
  - split.
    + repeat (constructor; [reflexivity|]); repeat constructor.
    + solve_NoDup.
  - vm_compute. lia.
Defined.

(** The same call, run: the second statement keeps its own start line 3 and
    hands it to its child; the third keeps column 8 and end line 5, and its
    child adds its own start line 4 and end column 9. *)
Example fix_missing_locations_depth2 :
  fix_missing_locations 3 depth2_store (VRef 1%positive)
  = Ok (VRef 1%positive,
        {[ 1%positive := ONode (mkAST "Root" ["body"; "orelse"] []
                                      (Some 1) (Some 0) (Some 1) (Some 0)
                                      {[ "body" := VRef 6%positive ]});
           2%positive := ONode (mkAST "Stmt" ["value"] ["ctx"]
                                      (Some 3) (Some 0) (Some 1) (Some 0)
                                      {[ "value" := VRef 4%positive ]});
           3%positive := ONode (mkAST "Stmt" ["value"] [] (Some 1) (Some 8) (Some 5) (Some 0)
                                      {[ "value" := VRef 5%positive ]});
           4%positive := ONode (mkAST "Leaf" [] [] (Some 3) (Some 0) (Some 1) (Some 0) ∅);
           5%positive := ONode (mkAST "Leaf" [] [] (Some 4) (Some 8) (Some 5) (Some 9) ∅);
           6%positive := OList [VRef 2%positive; VRef 3%positive] ]}).
Proof. vm_compute. reflexivity. Qed.

(** ** What never raises on a tree *)

Lemma tree_nodes_are_nodes (s : store) (t : shape) :
  tree_at s t -> forall a, a ∈ nodes t -> exists n, s !! a = Some (ONode n).
Proof.
  induction t as [a kids IH] using shape_forall_ind.
  intros Ht b Hb. apply tree_at_inv in Ht as [Hkids Hsub].
  simpl in Hb. apply elem_of_cons in Hb as [->|Hb].
  - destruct (iter_child_nodes_Ok s (VRef a) _ Hkids) as (a' & n & [= <-] & Ha). eauto.
  - apply elem_of_forest_nodes in Hb as (k & Hk & Hb).
    rewrite Forall_forall in IH, Hsub. by apply (IH k Hk (Hsub k Hk)).
Qed.

Lemma height_le_size (t : shape) : (height t <= length (nodes t))%nat.
Proof.
  induction t as [a kids IH] using shape_forall_ind.
  simpl. apply le_n_S. change (concat (nodes <$> kids)) with (forest_nodes kids).
  induction IH as [|k kids Hk _ IHkids]; [simpl; lia|].
  rewrite forest_nodes_cons, length_app. simpl.
  change (list_fmap _ _ ?f ?l) with (f <$> l).
  apply Nat.max_lub; lia.
Qed.

Lemma iter_names_pairs (n : AST) (names : list string) (name : string) (v : value) :
  (name, v) ∈ iter_names n names <-> name ∈ names /\ getattr n name = Some v.
Proof.
  induction names as [|name' names IH]; simpl.
  - split; [intros H; by apply elem_of_nil in H|].
    intros [H _]. by apply elem_of_nil in H.
  - destruct (getattr n name') as [v'|] eqn:E.
    + rewrite !elem_of_cons, IH. split.
      * intros [[= -> ->]|[H1 H2]]; auto.
      * intros [[->|H1] H2]; [left; congruence|auto].
    + rewrite elem_of_cons, IH. split.
      * intros [H1 H2]; auto.
      * intros [[->|H1] H2]; [congruence|auto].
Qed.

Lemma update_node_Ok (s : store) (b : addr) (m : AST) (f : AST -> AST) :
  s !! b = Some (ONode m) -> update_node s (VRef b) f = Ok (<[b := ONode (f m)]> s).
Proof. intros Hb. simpl. by rewrite Hb. Qed.

Lemma copy_location_returns (s : store) (a b : addr) (n m : AST) :
  s !! a = Some (ONode n) -> s !! b = Some (ONode m) ->
  returns (copy_location s (VRef a) (VRef b)).
Proof.
  intros Ha Hb. unfold copy_location, returns.
  rewrite (proj2 (node_of_lookup s (VRef a) n)) by eauto. cbn [obind].
  rewrite (update_node_Ok s b m _ Hb). cbn [obind].
  rewrite (update_node_Ok _ b _ _ (lookup_insert_eq _ _ _)). cbn [obind].
  rewrite (update_node_Ok _ b _ _ (lookup_insert_eq _ _ _)). cbn [obind].
  rewrite (update_node_Ok _ b _ _ (lookup_insert_eq _ _ _)). cbn [obind].
  eauto.
Qed.

Lemma st_for_each_visit (self_visit : value -> M value) (s : store) (kids : list shape) :
  Forall (fun k => self_visit (VRef (root_of k)) s = Ok (VRef (root_of k), s)) kids ->
  st_for_each (fun child => do! _ := self_visit child in st_ret tt) (roots kids) s
  = Ok (tt, s).
Proof.
  induction 1 as [|k kids Hk _ IH]; [reflexivity|].
  simpl. unfold st_bind at 1. unfold st_bind at 1. rewrite Hk. simpl. exact IH.
Qed.

(** The visitor without methods of its own goes through a tree and returns
    the node it was given, with the store as it was. *)
Lemma visit_plain_tree (t : shape) :
  forall (s : store) (fuel : nat),
    tree_at s t -> (height t <= fuel)%nat ->
    visit PlainVisitor fuel (VRef (root_of t)) s = Ok (VRef (root_of t), s).
Proof.
  induction t as [a kids IH] using shape_forall_ind.
  intros s fuel Ht Hfuel. destruct fuel as [|fuel]; [simpl in Hfuel; lia|].
  pose proof (height_kids a kids fuel Hfuel) as Hlow.
  apply tree_at_inv in Ht as [Hkids Hsub].
  simpl. unfold NodeVisitor_generic_visit, st_bind at 1, st_lift.
  rewrite Hkids. simpl. unfold st_bind at 1.
  rewrite (st_for_each_visit (visit PlainVisitor fuel) s kids); [reflexivity|].
  rewrite Forall_forall in IH, Hsub. unfold lower in Hlow. rewrite Forall_forall in Hlow.
  apply Forall_forall. intros k Hk. by apply IH; [|apply Hsub|apply Hlow].
Qed.


(** * Further properties of the node model *)

(** ** Copying a location *)

(** X1: between two nodes, [copy_location] returns the new node and leaves
    it with the four coordinates of the old one, set or not, whatever it had
    before; nothing else in the store changes; so the new node then has the
    source segment of the old one.  When either argument is not a node the
    call raises [AttributeError]. *)
Theorem copy_location_copies (s : store) (old_node new_node : value) :
  (forall a b o n,
     old_node = VRef a -> new_node = VRef b ->
     s !! a = Some (ONode o) -> s !! b = Some (ONode n) ->
     copy_location s old_node new_node
     = Ok (new_node, <[b := ONode (relocated o n)]> s)
     /\ forall source padded,
          get_source_segment (<[b := ONode (relocated o n)]> s) source new_node padded
          = get_source_segment s source old_node padded)
  /\ ((forall o, node_of s old_node <> Ok o) \/ (forall n, node_of s new_node <> Ok n) ->
      copy_location s old_node new_node = Raise AttributeError).
Proof.
  split.
  - intros a b o n -> -> Ha Hb. split.
    + unfold copy_location.
      rewrite (proj2 (node_of_lookup s (VRef a) o)) by eauto. cbn [obind].
      rewrite (update_node_Ok s b n _ Hb). cbn [obind].
      rewrite (update_node_Ok _ b _ _ (lookup_insert_eq _ _ _)). cbn [obind].
      rewrite (update_node_Ok _ b _ _ (lookup_insert_eq _ _ _)). cbn [obind].
      rewrite (update_node_Ok _ b _ _ (lookup_insert_eq _ _ _)). cbn [obind].
      by rewrite !insert_insert_eq.
    + intros source padded. unfold get_source_segment. simpl.
      rewrite lookup_insert_eq, Ha. reflexivity.
  - intros Hbad. unfold copy_location.
    destruct (node_of s old_node) as [o| |] eqn:Eo.
    + destruct Hbad as [Hbad|Hbad]; [by destruct (Hbad o)|].
      cbn [obind]. destruct new_node as [| | | | |b]; try reflexivity.
      simpl. destruct (s !! b) as [[n|l]|] eqn:Eb; try reflexivity.
      destruct (Hbad n). simpl. by rewrite Eb.
    + destruct old_node as [| | | | |a]; simpl in Eo; try (by injection Eo as <-).
      destruct (s !! a) as [[?|?]|]; simpl in Eo; try discriminate; by injection Eo as <-.
    + destruct old_node as [| | | | |a]; simpl in Eo; try discriminate.
      destruct (s !! a) as [[?|?]|]; discriminate.
Qed.

Lemma copy_location_copies_witness :
  copy_location depth2_store (VRef 3%positive) (VRef 4%positive)
  = Ok (VRef 4%positive,
        <[4%positive := ONode (mkAST "Leaf" [] [] None (Some 8) (Some 5) None ∅)]>
          depth2_store)
  /\ copy_location depth2_store (VRef 6%positive) (VRef 4%positive) = Raise AttributeError.
Proof.
  split.
  - apply (proj1 (copy_location_copies depth2_store (VRef 3%positive) (VRef 4%positive))
             3%positive 4%positive
             (mkAST "Stmt" ["value"] [] None (Some 8) (Some 5) None
                    {[ "value" := VRef 5%positive ]})
             (plain "Leaf" [] ∅));
      reflexivity.
  - apply (proj2 (copy_location_copies depth2_store (VRef 6%positive) (VRef 4%positive))).
    left. intros o. vm_compute. discriminate.
Defined.

(** ** Source segments of a text given by its lines *)

Lemma append_cons (c : ascii) (t u : string) : String c t +:+ u = String c (t +:+ u).
Proof. reflexivity. Qed.

Lemma append_nil_r (t : string) : t +:+ "" = t.
Proof. induction t as [|c t IH]; [reflexivity|]. by rewrite append_cons, IH. Qed.

Lemma append_assoc (t u v : string) : (t +:+ u) +:+ v = t +:+ (u +:+ v).
Proof. induction t as [|c t IH]; [reflexivity|]. by rewrite !append_cons, IH. Qed.

(** One line of the text goes into [lines] when the loop has not yet all the
    lines it wants. *)
Lemma split_loop_line (l rest cur : string) (acc : list string) (e : Z) :
  no_newline l ->
  Z.of_nat (length acc) <> e ->
  split_loop (l +:+ String newline rest) acc cur e
  = split_loop rest (acc ++ [cur +:+ l]) "" e.
Proof.
  intros Hl He. revert cur. induction l as [|c l IH]; intros cur.
  - change ("" +:+ String newline rest) with (String newline rest).
    cbn [split_loop]. rewrite decide_False by done. rewrite decide_True by done.
    by rewrite append_nil_r.
  - destruct Hl as [Hc Hl]. rewrite append_cons. cbn [split_loop].
    rewrite decide_False by done. rewrite decide_False by done.
    rewrite (IH Hl), append_assoc. reflexivity.
Qed.

Lemma text_of_nonempty (l : string) (rest : list string) : text_of (l :: rest) <> "".
Proof. simpl. by destruct l. Qed.

(** The loop stops with the first [e] lines of the text, or all of them. *)
Lemma split_loop_text (lines acc : list string) (e : Z) :
  Forall no_newline lines ->
  Z.of_nat (length acc) <= e ->
  split_loop (text_of lines) acc "" e
  = (acc ++ take (Z.to_nat e - length acc) lines, "").
Proof.
  intros Hlines. revert acc.
  induction Hlines as [|l lines Hl _ IH]; intros acc He.
  - simpl. by rewrite take_nil, app_nil_r.
  - destruct (decide (Z.of_nat (length acc) = e)) as [Heq|Hne].
    + replace (Z.to_nat e - length acc)%nat with 0%nat by lia.
      simpl take. rewrite app_nil_r.
      pose proof (text_of_nonempty l lines) as Hne.
      destruct (text_of (l :: lines)) as [|c t]; [done|].
      simpl. by rewrite decide_True.
    + simpl text_of. rewrite (split_loop_line l _ "" acc e Hl Hne). simpl.
      rewrite IH by (rewrite length_app; simpl; lia).
      rewrite length_app. simpl.
      replace (Z.to_nat e - length acc)%nat
        with (S (Z.to_nat e - (length acc + 1)))%nat by lia.
      simpl. by rewrite <- (assoc_L (++)).
Qed.

Lemma pop_front_drop (k : nat) (lines : list string) :
  (k <= length lines)%nat -> pop_front k lines = Ok (drop k lines).
Proof.
  revert lines. induction k as [|k IH]; intros lines Hk; [reflexivity|].
  destruct lines as [|l lines]; simpl in *; [lia|]. apply IH. lia.
Qed.

Lemma pop_front_short (k : nat) (lines : list string) :
  (length lines < k)%nat -> pop_front k lines = Raise IndexError.
Proof.
  revert lines. induction k as [|k IH]; intros lines Hk; [lia|].
  destruct lines as [|l lines]; simpl in *; [reflexivity|]. apply IH. lia.
Qed.

Lemma insert_last_on_last {A : Type} (f : A -> A) (l : list A) (x : A) :
  l !! (length l - 1)%nat = Some x -> <[(length l - 1)%nat := f x]> l = on_last f l.
Proof.
  induction l as [|y l IH]; [discriminate|].
  destruct l as [|z l]; [by intros [= ->]|].
  replace (length (y :: z :: l) - 1)%nat with (S (length (z :: l) - 1))
    by (simpl; lia).
  intros H. specialize (IH H).
  transitivity (y :: <[(length (z :: l) - 1)%nat := f x]> (z :: l)); [reflexivity|].
  by rewrite IH.
Qed.

Lemma selected_lines_length (lines : list string) (l el : Z) :
  1 <= l <= el -> el <= Z.of_nat (length lines) ->
  Z.of_nat (length (selected_lines lines l el)) = el - l + 1.
Proof.
  intros Hl Hel. unfold selected_lines. rewrite length_drop, length_take. lia.
Qed.

Lemma assign_index_last (lines : list string) (i : Z) (f : string -> string) :
  lines <> [] -> i = Z.of_nat (length lines) - 1 ->
  assign_index lines i f = Ok (on_last f lines).
Proof.
  intros Hne ->. unfold assign_index, py_index.
  assert (0 < length lines)%nat as Hlen by (destruct lines; simpl; [done|lia]).
  rewrite decide_True by lia. cbn [obind].
  replace (Z.to_nat (Z.of_nat (length lines) - 1)) with (length lines - 1)%nat by lia.
  destruct (lines !! (length lines - 1)%nat) as [x|] eqn:E.
  - by rewrite (insert_last_on_last f lines x E).
  - apply lookup_ge_None in E. lia.
Qed.

Lemma assign_index_first (lines : list string) (f : string -> string) :
  lines <> [] -> assign_index lines 0 f = Ok (on_first f lines).
Proof.
  intros Hne. destruct lines as [|l lines]; [done|].
  unfold assign_index, py_index. rewrite decide_True by (simpl; lia). reflexivity.
Qed.

(** X2: on a text whose lines are all ended by a newline, for a node whose
    span lies within the text (1 <= start line <= end line <= number of
    lines), [get_source_segment] returns the lines from the start line to the
    end line, the last one cut after the end column (that column included),
    then the first one cut before the start column (kept whole when
    [padded]), joined by newlines.  Columns follow Python's slices: a column
    beyond the line is the end of the line, a negative one counts from the
    end. *)
Theorem get_source_segment_lines (s : store) (node : value) (n : AST)
    (lines : list string) (padded : bool) (l c el ec : Z) :
  node_of s node = Ok n ->
  lineno n = Some l -> col_offset n = Some c ->
  end_lineno n = Some el -> end_col_offset n = Some ec ->
  Forall no_newline lines ->
  1 <= l <= el -> el <= Z.of_nat (length lines) ->
  get_source_segment s (text_of lines) node padded
  = Ok (Some (join (String newline "")
                (on_first (fun t => slice_from t (if padded then 0 else c))
                   (on_last (fun t => slice_to t (ec + 1))
                      (selected_lines lines l el))))).
Proof.
  intros Hn Hl Hc Hel Hec Hlines Hspan Hin.
  pose proof (selected_lines_length lines l el Hspan Hin) as Hlen.
  assert (selected_lines lines l el <> []) as Hne.
  { intros E. rewrite E in Hlen. simpl in Hlen. lia. }
  unfold get_source_segment. rewrite Hn. cbn [obind]. rewrite Hl, Hc, Hel, Hec.
  rewrite (split_loop_text lines [] el Hlines) by (simpl; lia).
  simpl app. simpl length. rewrite Nat.sub_0_r.
  rewrite decide_False.
  2:{ destruct lines as [|x lines]; [simpl in Hin; lia|apply text_of_nonempty]. }
  rewrite decide_True by done.
  rewrite pop_front_drop by (rewrite length_take; lia).
  cbn [obind]. fold (selected_lines lines l el).
  rewrite (assign_index_last _ (el - l)) by (done || lia).
  cbn [obind]. rewrite assign_index_first.
  - reflexivity.
  - destruct (selected_lines lines l el) as [|x [|y r]]; done.
Qed.

Lemma get_source_segment_lines_witness :
  get_source_segment example_span_store (text_of ["abc"; "def"; "ghi"]) (VRef 1%positive) true
  = Ok (Some ("abc" +:+ nl +:+ "def")).
Proof.
  apply (get_source_segment_lines example_span_store (VRef 1%positive)
           (leaf "Name" (Some 1) (Some 1) (Some 2) (Some 2))
           ["abc"; "def"; "ghi"] true 1 1 2 2);
    first [reflexivity | lia | simpl; lia | repeat constructor; discriminate].
Defined.

(** X3: on such a text, a node whose four coordinates are set and whose end
    line lies beyond the last line of the text (and not before its start
    line) makes [get_source_segment] raise [IndexError], padded or not. *)
Theorem get_source_segment_past_end (s : store) (node : value) (n : AST)
    (lines : list string) (padded : bool) (l c el ec : Z) :
  node_of s node = Ok n ->
  lineno n = Some l -> col_offset n = Some c ->
  end_lineno n = Some el -> end_col_offset n = Some ec ->
  Forall no_newline lines -> lines <> [] ->
  l <= el -> Z.of_nat (length lines) < el ->
  get_source_segment s (text_of lines) node padded = Raise IndexError.
Proof.
  intros Hn Hl Hc Hel Hec Hlines Hne Hspan Hpast.
  unfold get_source_segment. rewrite Hn. cbn [obind]. rewrite Hl, Hc, Hel, Hec.
  rewrite (split_loop_text lines [] el Hlines) by (simpl; lia).
  simpl app. simpl length. rewrite Nat.sub_0_r.
  rewrite take_ge by lia.
  rewrite decide_False by (destruct lines; [done|apply text_of_nonempty]).
  rewrite decide_True by done.
  destruct (decide (Z.to_nat (l - 1) <= length lines)%nat) as [Hk|Hk].
  - rewrite pop_front_drop by done. cbn [obind].
    unfold assign_index, py_index. rewrite length_drop.
    rewrite decide_False by lia. rewrite decide_False by lia. reflexivity.
  - rewrite pop_front_short by lia. reflexivity.
Qed.

Lemma get_source_segment_past_end_witness :
  get_source_segment example_span_store (text_of ["abc"]) (VRef 1%positive) false
  = Raise IndexError.
Proof.
  apply (get_source_segment_past_end example_span_store (VRef 1%positive)
           (leaf "Name" (Some 1) (Some 1) (Some 2) (Some 2))
           ["abc"] false 1 1 2 2);
    first [reflexivity | lia | simpl; lia | discriminate
          | repeat constructor; discriminate].
Defined.

(** X4: on the empty text, a node whose four coordinates are set makes
    [get_source_segment] raise [UnboundLocalError], whatever the coordinates:
    [del c] runs with the loop variable never bound. *)
Theorem get_source_segment_empty_text (s : store) (node : value) (n : AST)
    (padded : bool) :
  node_of s node = Ok n ->
  has_location n ->
  get_source_segment s "" node padded = Raise UnboundLocalError.
Proof.
  intros Hn ([l Hl] & [c Hc] & [el Hel] & [ec Hec]).
  unfold get_source_segment. rewrite Hn. cbn [obind]. rewrite Hl, Hc, Hel, Hec.
  reflexivity.
Qed.

Lemma get_source_segment_empty_text_witness :
  get_source_segment example_span_store "" (VRef 1%positive) true
  = Raise UnboundLocalError.
Proof.
  apply (get_source_segment_empty_text example_span_store (VRef 1%positive)
           (leaf "Name" (Some 1) (Some 1) (Some 2) (Some 2)) true).
  - reflexivity.
  - repeat split; eexists; reflexivity.
Defined.

(** ** Line shifting, on any store *)

Lemma shifted_shifted (d1 d2 : Z) (n : AST) :
  shifted d2 (shifted d1 n) = shifted (d1 + d2) n.
Proof.
  destruct n as [c f a l co el eco d]. unfold shifted. simpl.
  destruct l, el; simpl; rewrite <- ?Z.add_assoc; reflexivity.
Qed.

Lemma yields_cons_eq (a : addr) (l : list value) :
  yields a (VRef a :: l) = S (yields a l).
Proof. unfold yields. rewrite filter_cons. by rewrite decide_True. Qed.

Lemma yields_cons_ne (a b : addr) (l : list value) :
  a <> b -> yields b (VRef a :: l) = yields b l.
Proof.
  intros Hne. unfold yields. rewrite filter_cons.
  by rewrite decide_False by congruence.
Qed.

(** The interleaved loop shifts each node once per time [walk] yields it. *)
Lemma increment_loop_counts (delta : Z) (fuel : nat) :
  forall (s : store) (todo l : list value),
    walk_loop fuel s todo = Ok l ->
    exists s',
      increment_loop fuel s todo delta = Ok s'
      /\ same_structure s s'
      /\ forall a, s' !! a = shifted_object delta (yields a l) (s !! a).
Proof.
  induction fuel as [|fuel IH]; intros s todo l Hwalk; [discriminate|].
  simpl in Hwalk. simpl. destruct todo as [|v todo].
  - injection Hwalk as <-. exists s. split; [reflexivity|].
    split; [apply same_structure_refl|].
    intros a. unfold shifted_object, yields. simpl.
    destruct (s !! a) as [[n|?]|]; try reflexivity.
    by rewrite Z.mul_0_r, shifted_zero.
  - destruct (iter_child_nodes s v) as [kids| |] eqn:Ekids; simpl in *; try discriminate.
    destruct (walk_loop fuel s (todo ++ kids)) as [rest| |] eqn:Erest;
      simpl in *; try discriminate.
    injection Hwalk as <-.
    destruct (iter_child_nodes_Ok s v kids Ekids) as (a & n & -> & Ha).
    simpl. rewrite Ha. simpl. rewrite bump_shifted.
    set (s1 := <[a := ONode (shifted delta n)]> s).
    assert (same_structure s s1) as Hs1
      by apply (same_structure_insert s a n _ Ha (same_shape_shifted delta n)).
    rewrite (walk_loop_frame s s1 fuel _ Hs1) in Erest.
    destruct (IH s1 (todo ++ kids) rest Erest) as (s' & Hrun & Hs' & Hall).
    exists s'. split; [exact Hrun|].
    split; [by apply (same_structure_trans s s1 s')|].
    intros b. rewrite (Hall b). unfold s1. destruct (decide (a = b)) as [<-|Hne].
    + rewrite lookup_insert_eq, Ha, yields_cons_eq. unfold shifted_object.
      rewrite shifted_shifted. do 3 f_equal. lia.
    + rewrite lookup_insert_ne by done. by rewrite yields_cons_ne.
Qed.

(** X5: whenever [walk] ends on a store, tree or not, [increment_lineno]
    returns the node it was given and has added [delta] to the set lines of
    every node once per time [walk] yields that node: a node reached along
    two paths is shifted twice.  Nothing else changes. *)
Theorem increment_lineno_per_yield (s : store) (node : value) (fuel : nat)
    (delta : Z) (l : list value) :
  walk fuel s node = Ok l ->
  exists s',
    increment_lineno fuel s node delta = Ok (node, s')
    /\ forall a, s' !! a = shifted_object delta (yields a l) (s !! a).
Proof.
  intros Hwalk.
  destruct (increment_loop_counts delta fuel s [node] l Hwalk) as (s' & Hrun & _ & Hall).
  exists s'. unfold increment_lineno. rewrite Hrun. by split.
Qed.

Lemma increment_lineno_per_yield_witness :
  exists s',
    increment_lineno 4 shared_store (VRef 1%positive) 5 = Ok (VRef 1%positive, s')
    /\ forall a,
         s' !! a
         = shifted_object 5 (yields a [VRef 1%positive; VRef 2%positive; VRef 2%positive])
             (shared_store !! a).
Proof.
  apply (increment_lineno_per_yield shared_store (VRef 1%positive) 4 5
           [VRef 1%positive; VRef 2%positive; VRef 2%positive]).
  reflexivity.
Defined.

(** X6: whenever [walk] ends on a store, shifting by [d1] and then by [d2]
    leaves the store that shifting by [d1 + d2] leaves; and shifting by
    [delta] and then by [- delta] gives the first store back. *)
Theorem increment_lineno_compose (s : store) (node : value) (fuel : nat)
    (d1 d2 : Z) (l : list value) :
  walk fuel s node = Ok l ->
  exists s1 s2,
    increment_lineno fuel s node d1 = Ok (node, s1)
    /\ increment_lineno fuel s1 node d2 = Ok (node, s2)
    /\ increment_lineno fuel s node (d1 + d2) = Ok (node, s2)
    /\ (d2 = - d1 -> s2 = s).
Proof.
  intros Hwalk.
  destruct (increment_loop_counts d1 fuel s [node] l Hwalk) as (s1 & Hrun1 & Hs1 & Hall1).
  assert (walk_loop fuel s1 [node] = Ok l) as Hwalk1
    by (by rewrite <- (walk_loop_frame s s1 fuel _ Hs1)).
  destruct (increment_loop_counts d2 fuel s1 [node] l Hwalk1) as (s2 & Hrun2 & _ & Hall2).
  destruct (increment_loop_counts (d1 + d2) fuel s [node] l Hwalk)
    as (s3 & Hrun3 & _ & Hall3).
  assert (forall a, s2 !! a = shifted_object (d1 + d2) (yields a l) (s !! a)) as Hall.
  { intros a. rewrite Hall2, Hall1. unfold shifted_object.
    destruct (s !! a) as [[n|?]|]; try reflexivity.
    rewrite shifted_shifted. do 3 f_equal. lia. }
  assert (s3 = s2) as -> by (apply map_eq; intros a; by rewrite Hall3, Hall).
  exists s1, s2. unfold increment_lineno. rewrite Hrun1, Hrun2, Hrun3.
  repeat split. intros ->. apply map_eq. intros a. rewrite Hall.
  unfold shifted_object. destruct (s !! a) as [[n|?]|]; try reflexivity.
  replace ((d1 + - d1) * Z.of_nat (yields a l)) with 0 by lia.
  by rewrite shifted_zero.
Qed.

Lemma increment_lineno_compose_witness :
  exists s1 s2,
    increment_lineno 6 depth2_store (VRef 1%positive) 7 = Ok (VRef 1%positive, s1)
    /\ increment_lineno 6 s1 (VRef 1%positive) (- 7) = Ok (VRef 1%positive, s2)
    /\ increment_lineno 6 depth2_store (VRef 1%positive) (7 + - 7)
       = Ok (VRef 1%positive, s2)
    /\ (- 7 = - 7 -> s2 = depth2_store).
Proof.
  apply (increment_lineno_compose depth2_store (VRef 1%positive) 6 7 (- 7)
           [VRef 1%positive; VRef 2%positive; VRef 3%positive; VRef 4%positive;
            VRef 5%positive]).
  reflexivity.
Defined.

(** ** Location filling, again *)

Lemma located_settled_id (n : AST) (inh : coords) :
  has_location n -> located n (settled n inh) = n.
Proof.
  intros ([l Hl] & [c Hc] & [el Hel] & [ec Hec]).
  destruct n as [cl f at_ l0 co0 el0 eco0 d]. simpl in *. subst.
  reflexivity.
Qed.

(** Where every node of the shape has its four coordinates, filling changes
    no node of it. *)
Lemma filled_located_same (s s' : store) (t : shape) :
  forall inh,
    filled s s' t inh ->
    (forall a, a ∈ nodes t -> exists n, s !! a = Some (ONode n) /\ has_location n) ->
    forall a, a ∈ nodes t -> s' !! a = s !! a.
Proof.
  induction t as [a kids IH] using shape_forall_ind.
  intros inh Hf Hloc b Hb. inversion Hf as [? ? ? n Ha Ha' Hkids]; subst.
  simpl in Hb. apply elem_of_cons in Hb as [->|Hb].
  - destruct (Hloc a) as (m & Hm & Hlm); [simpl; apply list_elem_of_here|].
    rewrite Ha in Hm. injection Hm as <-.
    by rewrite Ha', Ha, located_settled_id.
  - apply elem_of_forest_nodes in Hb as (k & Hk & Hb).
    rewrite Forall_forall in IH, Hkids.
    apply (IH k Hk _ (Hkids k Hk)); [|exact Hb].
    intros c Hc. apply Hloc. simpl. right. apply elem_of_forest_nodes. eauto.
Qed.

(** X7: on a tree, with fuel for its height, [fix_missing_locations] is
    idempotent: a second call on the store the first one leaves returns the
    node again and leaves that store as it is. *)
Theorem fix_missing_locations_idempotent (s : store) (t : shape) (fuel : nat) :
  is_tree s t ->
  (height t <= fuel)%nat ->
  exists s',
    fix_missing_locations fuel s (VRef (root_of t)) = Ok (VRef (root_of t), s')
    /\ fix_missing_locations fuel s' (VRef (root_of t)) = Ok (VRef (root_of t), s').
Proof.
  intros [Htree Hnd] Hfuel.
  destruct (_fix_fills t s root_coords fuel Htree Hnd Hfuel)
    as (s' & Hrun & Hs' & Hf & Hout).
  pose proof (tree_at_frame s s' t Hs' Htree) as Htree'.
  destruct (_fix_fills t s' root_coords fuel Htree' Hnd Hfuel)
    as (s'' & Hrun' & _ & Hf' & Hout').
  assert (s'' = s') as ->.
  { apply map_eq. intros a. destruct (decide (a ∈ nodes t)) as [Ha|Ha].
    - apply (filled_located_same s' s'' t root_coords Hf'); [|exact Ha].
      exact (filled_located s s' t root_coords Hf).
    - by apply Hout'. }
  exists s'. unfold fix_missing_locations.
  change (_fix fuel ?x (VRef (root_of t)) 1 0 1 0)
    with (_fix fuel x (VRef (root_of t))
               (c_lineno root_coords) (c_col_offset root_coords)
               (c_end_lineno root_coords) (c_end_col_offset root_coords)).
  by rewrite Hrun, Hrun'.
Qed.

Lemma fix_missing_locations_idempotent_witness :
  exists s',
    fix_missing_locations 3 depth2_store (VRef 1%positive) = Ok (VRef 1%positive, s')
    /\ fix_missing_locations 3 s' (VRef 1%positive) = Ok (VRef 1%positive, s').
Proof.
  apply (fix_missing_locations_idempotent depth2_store depth2_shape 3).
  - split.
    + repeat (constructor; [reflexivity|]); repeat constructor.
    + solve_NoDup.
  - vm_compute. lia.
Defined.

(** ** The transformer where it visits nodes *)

(** Only the instance dictionary can hold a reference. *)
Lemma getattr_ref (n : AST) (name : string) (r : addr) :
  getattr n name = Some (VRef r) -> attrs n !! name = Some (VRef r).
Proof.
  unfold getattr. repeat case_decide; try discriminate.
  - by destruct (lineno n).
  - by destruct (col_offset n).
  - by destruct (end_lineno n).
  - by destruct (end_col_offset n).
  - by destruct (attrs n !! name).
  - by destruct (attrs n !! name).
Qed.

Lemma as_AST_ref (s : store) (v : value) (c : addr) :
  as_AST s v = Some c -> v = VRef c /\ exists m, s !! c = Some (ONode m).
Proof.
  destruct v as [| | | | |r]; try discriminate. simpl.
  destruct (s !! r) as [[m|?]|] eqn:E; try discriminate.
  intros [= <-]. eauto.
Qed.

(** A list without nodes is rewritten into itself. *)
Lemma transform_items_no_nodes (self_visit : value -> M value) (old : value)
    (list_addr : addr) (s : store) (items new : list value) :
  Forall (fun item => as_AST s item = None) items ->
  transform_items self_visit old list_addr items new s
  = Ok (tt, <[list_addr := OList (new ++ items)]> s).
Proof.
  intros Hitems. revert new.
  induction Hitems as [|item items Hitem _ IH]; intros new.
  - simpl. by rewrite app_nil_r.
  - simpl. rewrite Hitem, IH. by rewrite <- (assoc_L (++)).
Qed.

Lemma setattr_same (s : store) (a : addr) (n : AST) (name : string) (v : value) :
  s !! a = Some (ONode n) -> attrs n !! name = Some v ->
  setattr (VRef a) name v s = Ok (tt, s).
Proof.
  intros Ha Hv. unfold setattr, st_update. simpl. rewrite Ha. simpl.
  rewrite (insert_id (attrs n) name v Hv).
  destruct n as [c f at_ l co el eco d]. simpl.
  by rewrite (insert_id s a _ Ha).
Qed.

Lemma elem_of_set_values (s : store) (n : AST) (names : list string) (name : string)
    (v : value) :
  name ∈ names -> getattr n name = Some v -> is_node s v ->
  v ∈ set_values n names ≫= nodes_of_value s.
Proof.
  intros Hname Hv [c Hc]. apply list_elem_of_bind. exists v. split.
  - unfold nodes_of_value. rewrite Hc. apply list_elem_of_here.
  - unfold set_values. apply list_elem_of_omap. eauto.
Qed.

(** One of the two loops of the generic handler: when the lists hold no node
    and visiting a child gives the child back with the store as it was, the
    loop leaves the store as it was. *)
Lemma transform_names_unchanged (self_visit : value -> M value) (s : store)
    (a : addr) (n : AST) (names : list string) :
  s !! a = Some (ONode n) ->
  (forall name v l items,
     name ∈ names -> getattr n name = Some v -> as_list s v = Some (l, items) ->
     Forall (fun item => as_AST s item = None) items) ->
  (forall name v,
     name ∈ names -> getattr n name = Some v -> is_node s v ->
     self_visit v s = Ok (v, s)) ->
  transform_names self_visit (VRef a) names s = Ok (tt, s).
Proof.
  intros Ha. induction names as [|name names IH]; intros Hlists Hnodes; [reflexivity|].
  assert (transform_names self_visit (VRef a) names s = Ok (tt, s)) as Hrest.
  { apply IH.
    - intros name' v l items Hin. apply Hlists. by apply list_elem_of_further.
    - intros name' v Hin. apply Hnodes. by apply list_elem_of_further. }
  simpl. unfold st_bind at 1, st_lift. simpl. rewrite Ha. simpl.
  destruct (getattr n name) as [old|] eqn:Eold; [|exact Hrest].
  destruct (as_list s old) as [[l items]|] eqn:El.
  - unfold st_bind.
    rewrite (transform_items_no_nodes self_visit old l s items []
               (Hlists name old l items (list_elem_of_here _ _) Eold El)).
    simpl. rewrite insert_id; [exact Hrest|].
    destruct old as [| | | | |r]; try discriminate. simpl in El.
    destruct (s !! r) as [[?|items']|] eqn:Er; try discriminate.
    by injection El as <- <-.
  - destruct (as_AST s old) as [c|] eqn:Ec; [|exact Hrest].
    unfold st_bind at 1.
    rewrite (Hnodes name old (list_elem_of_here _ _) Eold) by (unfold is_node; eauto).
    simpl. apply as_AST_ref in Ec as [-> _].
    unfold st_bind. rewrite (setattr_same s a n name (VRef c) Ha (getattr_ref _ _ _ Eold)).
    simpl. exact Hrest.
Qed.

(** X8: on a tree in which no sequence-valued attribute or field holds a
    node, the transformer without methods of its own is the identity: with
    fuel for the height of the tree, [visit] returns the node it was given and
    leaves the store as it was. *)
Theorem plain_transformer_identity (s : store) (t : shape) (fuel : nat) :
  tree_at s t ->
  no_node_in_lists s t ->
  (height t <= fuel)%nat ->
  visit PlainTransformer fuel (VRef (root_of t)) s = Ok (VRef (root_of t), s).
Proof.
  revert fuel. induction t as [a kids IH] using shape_forall_ind.
  intros fuel Htree Hlists Hfuel. destruct fuel as [|fuel]; [simpl in Hfuel; lia|].
  pose proof (height_kids a kids fuel Hfuel) as Hlow.
  apply tree_at_inv in Htree as [Hkids Hsub].
  destruct (iter_child_nodes_Ok s (VRef a) _ Hkids) as (a' & n & [= <-] & Ha).
  rewrite (iter_child_nodes_node s a n Ha) in Hkids. injection Hkids as Hkids.
  assert (forall v, is_node s v -> v ∈ direct_children s n ->
            visit PlainTransformer fuel v s = Ok (v, s)) as Hvisit.
  { intros v _ Hv. rewrite Hkids in Hv. unfold roots in Hv.
    apply list_elem_of_fmap in Hv as (k & -> & Hk).
    rewrite Forall_forall in IH, Hsub. unfold lower in Hlow.
    rewrite Forall_forall in Hlow.
    apply (IH k Hk fuel (Hsub k Hk)); [|by apply Hlow].
    intros b m name v l items Hb. apply Hlists. simpl. right.
    apply elem_of_forest_nodes. eauto. }
  assert (forall names,
            names ⊆ _attribs n ++ _fields n ->
            (forall name v, name ∈ names -> getattr n name = Some v -> is_node s v ->
                            v ∈ direct_children s n) ->
            transform_names (visit PlainTransformer fuel) (VRef a) names s = Ok (tt, s))
    as Hloop.
  { intros names Hsubset Hchildren. apply (transform_names_unchanged _ s a n names Ha).
    - intros name v l items Hname. apply (Hlists a n name v l items); auto.
      simpl. apply list_elem_of_here.
    - intros name v Hname Hv Hnode. apply Hvisit; [exact Hnode|].
      by apply (Hchildren name). }
  simpl. unfold NodeTransformer_generic_visit, st_bind at 1, st_lift.
  simpl. rewrite Ha. simpl. unfold st_bind at 1.
  rewrite Hloop; cycle 1.
  { intros name Hname. apply elem_of_app. by left. }
  { intros name v Hname Hv Hnode. unfold direct_children. apply elem_of_app. left.
    by apply (elem_of_set_values s n _ name). }
  simpl. unfold st_bind at 1. rewrite Ha. simpl. unfold st_bind at 1.
  rewrite Hloop; cycle 1.
  { intros name Hname. apply elem_of_app. by right. }
  { intros name v Hname Hv Hnode. unfold direct_children. apply elem_of_app. right.
    by apply (elem_of_set_values s n _ name). }
  reflexivity.
Qed.

Lemma plain_transformer_identity_witness :
  visit PlainTransformer 2 (VRef 1%positive) chain_store
  = Ok (VRef 1%positive, chain_store).
Proof.
  apply (plain_transformer_identity chain_store chain_shape 2).
  - repeat (constructor; [reflexivity|]); repeat constructor.
  - intros a n name v l items Ha Hn Hname Hv Hl.
    apply elem_of_cons in Ha as [->|Ha].
    + injection Hn as <-.
      repeat (apply elem_of_cons in Hname as [->|Hname]);
        try (by apply elem_of_nil in Hname);
        injection Hv as <-; try discriminate.
      injection Hl as <- <-. repeat constructor.
    + apply elem_of_cons in Ha as [->|Ha].
      * injection Hn as <-. by apply elem_of_nil in Hname.
      * apply elem_of_cons in Ha as [->|Ha]; [|by apply elem_of_nil in Ha].
        injection Hn as <-. by apply elem_of_nil in Hname.
  - vm_compute. lia.
Defined.

Lemma scalar_not_object (s : store) (v : value) :
  (forall r, v <> VRef r) -> as_list s v = None /\ as_AST s v = None.
Proof. intros Hv. destruct v as [| | | | |r]; try done. by destruct (Hv r). Qed.

(** A loop of the generic handler over names that hold no object does
    nothing. *)
Lemma transform_names_scalars (self_visit : value -> M value) (s : store)
    (a : addr) (n : AST) (names : list string) :
  s !! a = Some (ONode n) ->
  (forall name v, name ∈ names -> getattr n name = Some v -> forall r, v <> VRef r) ->
  transform_names self_visit (VRef a) names s = Ok (tt, s).
Proof.
  intros Ha. induction names as [|name names IH]; intros Hscalar; [reflexivity|].
  assert (transform_names self_visit (VRef a) names s = Ok (tt, s)) as Hrest.
  { apply IH. intros name' v Hin. apply Hscalar. by apply list_elem_of_further. }
  simpl. unfold st_bind at 1, st_lift. simpl. rewrite Ha. simpl.
  destruct (getattr n name) as [old|] eqn:Eold; [|exact Hrest].
  destruct (scalar_not_object s old (Hscalar name old (list_elem_of_here _ _) Eold))
    as [-> ->].
  exact Hrest.
Qed.

Lemma getattr_rewritten_ne (n : AST) (name name' : string) (new : value) :
  name' <> name -> getattr (rewritten name new n) name' = getattr n name'.
Proof.
  intros Hne. unfold getattr, rewritten.
  destruct new; simpl; rewrite ?lookup_delete_ne, ?lookup_insert_ne by done;
    reflexivity.
Qed.

Lemma rewrite_attr (s : store) (a : addr) (n : AST) (name : string) (old new : value) :
  s !! a = Some (ONode n) -> attrs n !! name = Some old ->
  match new with
  | VNone => delattr (VRef a) name
  | _ => setattr (VRef a) name new
  end s = Ok (tt, <[a := ONode (rewritten name new n)]> s).
Proof.
  intros Ha Hold.
  destruct new; unfold delattr, setattr, st_update; simpl; rewrite Ha; simpl;
    rewrite ?Hold; simpl; rewrite ?Ha; reflexivity.
Qed.

(** The loop over names of which one holds a node, whose visit gives [new]
    and leaves the store alone. *)
Lemma transform_names_single (self_visit : value -> M value) (s : store)
    (a c : addr) (n : AST) (name : string) (new : value) (names : list string) :
  s !! a = Some (ONode n) ->
  getattr n name = Some (VRef c) -> is_node s (VRef c) ->
  self_visit (VRef c) s = Ok (new, s) ->
  NoDup names -> name ∈ names -> others_scalar n names name ->
  transform_names self_visit (VRef a) names s
  = Ok (tt, <[a := ONode (rewritten name new n)]> s).
Proof.
  intros Ha Hname [c' Hc] Hvisit.
  induction names as [|name' names IH]; intros Hnd Hin Hothers.
  { by apply elem_of_nil in Hin. }
  apply NoDup_cons in Hnd as [Hfresh Hnd].
  simpl. unfold st_bind at 1, st_lift. simpl. rewrite Ha. simpl.
  destruct (decide (name' = name)) as [->|Hne].
  - rewrite Hname. pose proof Hc as Hc'. simpl in Hc'.
    destruct (s !! c) as [[m|?]|] eqn:Ec; try discriminate.
    simpl. rewrite Ec. unfold st_bind at 1. rewrite Hvisit. simpl.
    unfold st_bind.
    rewrite (rewrite_attr s a n name (VRef c) new Ha (getattr_ref _ _ _ Hname)).
    simpl. apply transform_names_scalars with (n := rewritten name new n).
    + apply lookup_insert_eq.
    + intros name' v Hin' Hv.
      assert (name' <> name) as Hne by (intros ->; contradiction).
      rewrite (getattr_rewritten_ne n name name' new Hne) in Hv.
      apply (Hothers name' v); [by apply list_elem_of_further|exact Hne|exact Hv].
  - apply elem_of_cons in Hin as [->|Hin]; [done|].
    assert (others_scalar n names name) as Hothers'.
    { intros name'' v Hin'. apply Hothers. by apply list_elem_of_further. }
    destruct (getattr n name') as [old|] eqn:Eold; [|by apply IH].
    destruct (scalar_not_object s old
                (Hothers name' old (list_elem_of_here _ _) Hne Eold)) as [-> ->].
    by apply IH.
Qed.

Lemma yield_children_scalars (s : store) (n : AST) (names : list string) :
  (forall name v, name ∈ names -> getattr n name = Some v -> forall r, v <> VRef r) ->
  yield_children s (iter_names n names) = [].
Proof.
  induction names as [|name names IH]; intros Hscalar; [reflexivity|].
  assert (yield_children s (iter_names n names) = []) as Hrest.
  { apply IH. intros name' v Hin. apply Hscalar. by apply list_elem_of_further. }
  simpl. destruct (getattr n name) as [v|] eqn:Ev; [|exact Hrest].
  simpl. destruct (scalar_not_object s v (Hscalar name v (list_elem_of_here _ _) Ev))
    as [-> ->].
  exact Hrest.
Qed.

(** X9: take a node whose declared names are all different and hold no
    object but for one, [name], which holds a node, and a transformer whose
    method for the class of that node returns [new] without touching the
    store.  Then the generic handler returns the node it was given, with the
    attribute [name] deleted when [new] is [None] and set to [new]
    otherwise, and nothing else changed; after a deletion the node has no
    child left. *)
Theorem transformer_rewrites_child (methods : string -> option (Self -> value -> M value))
    (fuel : nat) (s : store) (a c : addr) (n : AST) (name : string) (new : value) :
  s !! a = Some (ONode n) ->
  NoDup (_attribs n ++ _fields n) ->
  name ∈ _attribs n ++ _fields n ->
  getattr n name = Some (VRef c) ->
  is_node s (VRef c) ->
  others_scalar n (_attribs n ++ _fields n) name ->
  methods ("visit_" +:+ class_name s (VRef c)) = Some (returning new) ->
  generic_visit (NodeTransformer methods) (visit (NodeTransformer methods) (S fuel))
    (VRef a) s
  = Ok (VRef a, <[a := ONode (rewritten name new n)]> s)
  /\ (new = VNone ->
      iter_child_nodes (<[a := ONode (rewritten name new n)]> s) (VRef a) = Ok []).
Proof.
  intros Ha Hnd Hin Hname Hc Hothers Hmethod.
  assert (visit (NodeTransformer methods) (S fuel) (VRef c) s = Ok (new, s)) as Hvisit.
  { cbn [visit Basis.methods NodeTransformer]. by rewrite Hmethod. }
  set (sv := visit (NodeTransformer methods) (S fuel)) in *. clearbody sv.
  set (n' := rewritten name new n).
  assert (_attribs n' = _attribs n /\ _fields n' = _fields n) as [Hat Hfi]
    by (unfold n', rewritten; by destruct new).
  apply NoDup_app in Hnd as (Hnda & Hdisj & Hndf).
  split.
  - simpl generic_visit. unfold NodeTransformer_generic_visit, st_bind at 1, st_lift.
    simpl. rewrite Ha. simpl. unfold st_bind at 1.
    destruct (decide (name ∈ _attribs n)) as [Hia|Hia].
    + rewrite (transform_names_single sv s a c n name new (_attribs n)); try done.
      2:{ intros name' v Hin'. apply Hothers, elem_of_app. by left. }
      simpl. unfold st_bind at 1. rewrite lookup_insert_eq. simpl. unfold st_bind at 1.
      fold n'. rewrite Hfi.
      rewrite (transform_names_scalars sv _ a n' (_fields n)).
      * reflexivity.
      * apply lookup_insert_eq.
      * intros name' v Hin' Hv.
        assert (name' <> name) as Hne by (intros ->; by apply (Hdisj name)).
        unfold n' in Hv. rewrite (getattr_rewritten_ne n name name' new Hne) in Hv.
        apply (Hothers name' v); [apply elem_of_app; by right|exact Hne|exact Hv].
    + apply elem_of_app in Hin as [Hin|Hin]; [done|].
      rewrite (transform_names_scalars sv s a n (_attribs n) Ha).
      2:{ intros name' v Hin' Hv.
          apply (Hothers name' v); [apply elem_of_app; by left| |exact Hv].
          intros ->. contradiction. }
      simpl. unfold st_bind at 1. rewrite Ha. simpl. unfold st_bind at 1.
      rewrite (transform_names_single sv s a c n name new (_fields n)); try done.
      intros name' v Hin'. apply Hothers, elem_of_app. by right.
  - intros ->. unfold iter_child_nodes, iter_attribs, iter_fields. simpl.
    rewrite lookup_insert_eq. simpl. fold n'.
    assert (forall name' v, getattr n' name' = Some v ->
              name' ∈ _attribs n ++ _fields n -> forall r, v <> VRef r) as Hscalar.
    { intros name' v Hv Hin' r ->. destruct (decide (name' = name)) as [->|Hne].
      - apply getattr_ref in Hv. unfold n', rewritten, without_attr in Hv.
        simpl in Hv. by rewrite lookup_delete_eq in Hv.
      - unfold n' in Hv. rewrite (getattr_rewritten_ne n name name' VNone Hne) in Hv.
        by apply (Hothers name' (VRef r) Hin' Hne Hv r). }
    rewrite !yield_children_scalars; [reflexivity| |].
    + intros name' v Hin' Hv. apply (Hscalar name' v Hv).
      simpl in Hin'. apply elem_of_app. by right.
    + intros name' v Hin' Hv. apply (Hscalar name' v Hv).
      simpl in Hin'. apply elem_of_app. by left.
Qed.

Lemma transformer_rewrites_child_witness :
  generic_visit (NodeTransformer drop_names) (visit (NodeTransformer drop_names) 1)
    (VRef 1%positive) unary_store
  = Ok (VRef 1%positive,
        <[1%positive := ONode (rewritten "value" VNone unary_node)]> unary_store)
  /\ (VNone = VNone ->
      iter_child_nodes
        (<[1%positive := ONode (rewritten "value" VNone unary_node)]> unary_store)
        (VRef 1%positive) = Ok []).
Proof.
  apply (transformer_rewrites_child drop_names 0 unary_store 1%positive 2%positive
           unary_node "value" VNone).
  - reflexivity.
  - simpl. solve_NoDup.
  - simpl. apply list_elem_of_here.
  - reflexivity.
  - exists 2%positive. reflexivity.
  - intros name' v Hin Hne Hv r ->. simpl in Hin.
    apply elem_of_cons in Hin as [->|Hin]; [done|].
    apply elem_of_cons in Hin as [->|Hin]; [|by apply elem_of_nil in Hin].
    vm_compute in Hv. discriminate.
  - reflexivity.
Defined.

(** ** The order of the visitor *)

Section Recorder.
Variables (s : store) (seen : addr) (items0 : list value).
Hypothesis Hseen : s !! seen = Some (OList items0).

Lemma as_AST_seen (items : list value) (v : value) :
  as_AST (<[seen := OList items]> s) v = as_AST s v.
Proof.
  destruct v as [| | | | |a]; try reflexivity. simpl.
  destruct (decide (seen = a)) as [<-|Hne].
  - by rewrite lookup_insert_eq, Hseen.
  - by rewrite lookup_insert_ne.
Qed.

Lemma as_list_seen (items : list value) (v : value) :
  v <> VRef seen -> as_list (<[seen := OList items]> s) v = as_list s v.
Proof.
  destruct v as [| | | | |a]; try reflexivity. simpl. intros Hne.
  rewrite lookup_insert_ne; [reflexivity|]. congruence.
Qed.

Lemma yield_items_seen (items l : list value) :
  yield_items (<[seen := OList items]> s) l = yield_items s l.
Proof.
  induction l as [|v l IH]; [reflexivity|]. simpl.
  rewrite as_AST_seen, IH. reflexivity.
Qed.

Lemma yield_children_seen (items : list value) (n : AST) (names : list string) :
  (forall name, getattr n name <> Some (VRef seen)) ->
  yield_children (<[seen := OList items]> s) (iter_names n names)
  = yield_children s (iter_names n names).
Proof.
  intros Hn. induction names as [|name names IH]; [reflexivity|]. simpl.
  destruct (getattr n name) as [v|] eqn:Ev; [|exact IH].
  simpl. rewrite as_AST_seen, IH.
  rewrite as_list_seen; [|intros ->; by apply (Hn name)].
  destruct (as_list s v) as [[b l]|]; [|reflexivity].
  by rewrite yield_items_seen.
Qed.

Lemma iter_child_nodes_seen (items : list value) (a : addr) (n : AST) :
  s !! a = Some (ONode n) ->
  (forall name, getattr n name <> Some (VRef seen)) ->
  iter_child_nodes (<[seen := OList items]> s) (VRef a) = iter_child_nodes s (VRef a).
Proof.
  intros Ha Hn.
  assert (seen <> a) as Hne by (intros ->; congruence).
  unfold iter_child_nodes, iter_attribs, iter_fields. simpl.
  rewrite lookup_insert_ne by exact Hne. rewrite Ha. simpl.
  by rewrite !yield_children_seen.
Qed.

Lemma st_for_each_record (self_visit : value -> M value) (kids : list shape) :
  Forall (fun k => forall items,
            self_visit (VRef (root_of k)) (<[seen := OList items]> s)
            = Ok (VRef (root_of k),
                  <[seen := OList (items ++ (VRef <$> nodes k))]> s)) kids ->
  forall items,
    st_for_each (fun child => do! _ := self_visit child in st_ret tt) (roots kids)
      (<[seen := OList items]> s)
    = Ok (tt, <[seen := OList (items ++ (VRef <$> forest_nodes kids))]> s).
Proof.
  induction 1 as [|k kids Hk _ IH]; intros items.
  - simpl. unfold st_ret. by rewrite app_nil_r.
  - simpl. unfold st_bind at 1. unfold st_bind at 1. rewrite Hk. simpl.
    rewrite IH. unfold forest_nodes. simpl. by rewrite fmap_app, app_assoc.
Qed.

Lemma recorder_visit (t : shape) :
  forall (fuel : nat) (items : list value),
    tree_at s t -> apart s t seen -> (height t <= fuel)%nat ->
    visit (Recorder seen) fuel (VRef (root_of t)) (<[seen := OList items]> s)
    = Ok (VRef (root_of t), <[seen := OList (items ++ (VRef <$> nodes t))]> s).
Proof.
  induction t as [a kids IH] using shape_forall_ind.
  intros fuel items Ht Hapart Hfuel. destruct fuel as [|fuel]; [simpl in Hfuel; lia|].
  pose proof (height_kids a kids fuel Hfuel) as Hlow.
  apply tree_at_inv in Ht as [Hkids Hsub].
  destruct (iter_child_nodes_Ok _ _ _ Hkids) as (a' & n & [= <-] & Ha).
  cbn [visit Basis.methods Basis.generic_visit Recorder root_of].
  unfold st_bind at 1, list_append, st_update. rewrite lookup_insert_eq. simpl.
  rewrite insert_insert_eq.
  unfold NodeVisitor_generic_visit, st_bind at 1, st_lift.
  rewrite (iter_child_nodes_seen _ a n Ha), Hkids.
  2:{ intros name Hname. apply getattr_ref in Hname. revert Hname.
      apply (Hapart a n name); [|exact Ha]. simpl. apply list_elem_of_here. }
  simpl. unfold st_bind at 1.
  rewrite (st_for_each_record (visit (Recorder seen) fuel) kids).
  - simpl. unfold st_ret. do 3 f_equal.
    change (concat (nodes <$> kids)) with (forest_nodes kids).
    by rewrite <- app_assoc.
  - rewrite Forall_forall in IH, Hsub. unfold lower in Hlow. rewrite Forall_forall in Hlow.
    apply Forall_forall. intros k Hk items'. apply IH; [exact Hk|by apply Hsub| |by apply Hlow].
    intros b m name Hb. apply Hapart. simpl. apply list_elem_of_further.
    apply elem_of_forest_nodes. by exists k.
Qed.

End Recorder.

(** X16: [NodeVisitor] goes through a tree depth first.  A subclass
    whose [generic_visit] appends the node to a list [seen] and then calls
    the inherited one, started on the root of a tree of which no node refers
    to that list, returns the root and has appended the nodes of the tree to
    the list, each node before its children and the whole subtree of a child
    before the next child; nothing else in the store has changed. *)
Theorem visitor_depth_first (s : store) (t : shape) (seen : addr) (items : list value)
    (fuel : nat) :
  tree_at s t ->
  s !! seen = Some (OList items) ->
  apart s t seen ->
  (height t <= fuel)%nat ->
  visit (Recorder seen) fuel (VRef (root_of t)) s
  = Ok (VRef (root_of t), <[seen := OList (items ++ (VRef <$> nodes t))]> s).
Proof.
  intros Ht Hseen Hapart Hfuel.
  rewrite <- (insert_id s seen (OList items) Hseen) at 1.
  by apply (recorder_visit s seen items Hseen).
Qed.

Lemma visitor_depth_first_witness :
  visit (Recorder 9%positive) 3 (VRef 1%positive) nested_store
  = Ok (VRef 1%positive,
        <[9%positive := OList ([] ++ (VRef <$> nodes nested_shape))]> nested_store).
Proof.
  apply (visitor_depth_first nested_store nested_shape 9%positive [] 3).
  - repeat (constructor; [reflexivity|]); repeat constructor.
  - reflexivity.
  - intros a n name Ha Hn Hname.
    repeat (apply elem_of_cons in Ha as [->|Ha]); try (by apply elem_of_nil in Ha).
    + change (nested_store !! 1%positive)
        with (Some (ONode (plain "Module" ["body"] {[ "body" := VRef 5%positive ]}))) in Hn.
      injection Hn as <-. simpl in Hname.
      apply lookup_singleton_Some in Hname as [_ Hname]. discriminate.
    + change (nested_store !! 2%positive)
        with (Some (ONode (plain "Expr" ["value"] {[ "value" := VRef 4%positive ]}))) in Hn.
      injection Hn as <-. simpl in Hname.
      apply lookup_singleton_Some in Hname as [_ Hname]. discriminate.
    + change (nested_store !! 4%positive) with (Some (ONode (plain "Name" [] ∅))) in Hn.
      injection Hn as <-. simpl in Hname. by rewrite lookup_empty in Hname.
    + change (nested_store !! 3%positive) with (Some (ONode (plain "Pass" [] ∅))) in Hn.
      injection Hn as <-. simpl in Hname. by rewrite lookup_empty in Hname.
  - vm_compute. lia.
Defined.

(** ** The operations that never raise *)

(** What the loop of [get_source_segment] and the statement after it leave
    in [lines]: the first [e] lines of the text, or all of them. *)
Lemma split_loop_lines (source cur cur' : string) (acc lines : list string) (e : Z) :
  Z.of_nat (length acc) < e \/ (Z.of_nat (length acc) = e /\ cur = "") ->
  split_loop source acc cur e = (lines, cur') ->
  (if decide (cur' = "") then lines else lines ++ [cur'])
  = take (Z.to_nat e) (acc ++ lines_from cur source).
Proof.
  revert acc cur. induction source as [|c rest IH]; intros acc cur Hacc.
  - simpl. intros [= <- <-]. destruct (decide (cur = "")) as [->|Hcur].
    + rewrite app_nil_r, take_ge; [reflexivity|lia].
    + destruct Hacc as [Hacc|[_ ?]]; [|done].
      rewrite take_ge; [reflexivity|]. rewrite length_app. simpl. lia.
  - cbn [split_loop lines_from].
    destruct (decide (Z.of_nat (length acc) = e)) as [He|He].
    + intros [= <- <-]. destruct Hacc as [?|[_ ->]]; [lia|].
      rewrite decide_True by done.
      replace (Z.to_nat e) with (length acc) by lia.
      by rewrite take_app_length.
    + destruct Hacc as [Hacc|[? _]]; [|done].
      destruct (decide (c = newline)).
      * intros Hrun.
        assert (Z.of_nat (length (acc ++ [cur])) < e
                \/ (Z.of_nat (length (acc ++ [cur])) = e /\ "" = "")) as Hacc'.
        { rewrite length_app. simpl.
          destruct (decide (Z.of_nat (length acc) + 1 = e)); [right|left]; [split|];
            first [reflexivity|lia]. }
        rewrite (IH _ _ Hacc' Hrun). by rewrite <- (assoc_L (++)).
      * intros Hrun. apply (IH _ _ (or_introl Hacc) Hrun).
Qed.

(** A span within the text gives a segment. *)
Lemma get_source_segment_within (s : store) (node : value) (n : AST)
    (source : string) (padded : bool) (l c el ec : Z) :
  node_of s node = Ok n ->
  lineno n = Some l -> col_offset n = Some c ->
  end_lineno n = Some el -> end_col_offset n = Some ec ->
  1 <= l <= el -> el <= Z.of_nat (length (source_lines source)) ->
  get_source_segment s source node padded
  = Ok (Some (join (String newline "")
                (on_first (fun t => slice_from t (if padded then 0 else c))
                   (on_last (fun t => slice_to t (ec + 1))
                      (selected_lines (source_lines source) l el))))).
Proof.
  intros Hn Hl Hc Hel Hec Hspan Hin.
  pose proof (selected_lines_length (source_lines source) l el Hspan Hin) as Hlen.
  assert (selected_lines (source_lines source) l el <> []) as Hne.
  { intros E. rewrite E in Hlen. simpl in Hlen. lia. }
  assert (source <> "") as Hsource.
  { intros ->. simpl in Hin. lia. }
  unfold get_source_segment. rewrite Hn. cbn [obind]. rewrite Hl, Hc, Hel, Hec.
  destruct (split_loop source [] "" el) as [lines cur'] eqn:Erun.
  apply split_loop_lines in Erun; [|left; simpl; lia].
  rewrite Erun. simpl app. fold (source_lines source).
  rewrite decide_False by exact Hsource.
  rewrite pop_front_drop by (rewrite length_take; lia).
  cbn [obind]. fold (selected_lines (source_lines source) l el).
  rewrite (assign_index_last _ (el - l)) by (done || lia).
  cbn [obind]. rewrite assign_index_first.
  - reflexivity.
  - destruct (selected_lines (source_lines source) l el) as [|x [|y r]]; done.
Qed.

(** A span that ends beyond the text raises. *)
Lemma get_source_segment_beyond (s : store) (node : value) (n : AST)
    (source : string) (padded : bool) (l c el ec : Z) :
  node_of s node = Ok n ->
  lineno n = Some l -> col_offset n = Some c ->
  end_lineno n = Some el -> end_col_offset n = Some ec ->
  source <> "" -> l <= el -> Z.of_nat (length (source_lines source)) < el ->
  get_source_segment s source node padded = Raise IndexError.
Proof.
  intros Hn Hl Hc Hel Hec Hsource Hspan Hpast.
  unfold get_source_segment. rewrite Hn. cbn [obind]. rewrite Hl, Hc, Hel, Hec.
  destruct (split_loop source [] "" el) as [lines cur'] eqn:Erun.
  apply split_loop_lines in Erun; [|left; simpl; lia].
  rewrite Erun. simpl app. fold (source_lines source).
  rewrite take_ge by lia.
  rewrite decide_False by exact Hsource.
  destruct (decide (Z.to_nat (l - 1) <= length (source_lines source))%nat) as [Hk|Hk].
  - rewrite pop_front_drop by done. cbn [obind].
    unfold assign_index, py_index. rewrite length_drop.
    rewrite decide_False by lia. rewrite decide_False by lia. reflexivity.
  - rewrite pop_front_short by lia. reflexivity.
Qed.

Lemma height_positive (t : shape) : (1 <= height t)%nat.
Proof. destruct t. simpl. lia. Qed.

(** The generic handler of the transformer without methods of its own, on
    a tree in which no list holds a node, with fuel for the subtrees. *)
Lemma plain_transformer_generic (t : shape) :
  forall (s : store) (fuel : nat),
    tree_at s t -> no_node_in_lists s t -> (height t <= S fuel)%nat ->
    generic_visit PlainTransformer (visit PlainTransformer fuel) (VRef (root_of t)) s
    = Ok (VRef (root_of t), s).
Proof.
  induction t as [a kids IH] using shape_forall_ind.
  intros s fuel Htree Hlists Hfuel.
  pose proof (height_kids a kids fuel Hfuel) as Hlow.
  apply tree_at_inv in Htree as [Hkids Hsub].
  destruct (iter_child_nodes_Ok s (VRef a) _ Hkids) as (a' & n & [= <-] & Ha).
  rewrite (iter_child_nodes_node s a n Ha) in Hkids. injection Hkids as Hkids.
  assert (forall v, v ∈ direct_children s n ->
            visit PlainTransformer fuel v s = Ok (v, s)) as Hvisit.
  { intros v Hv. rewrite Hkids in Hv. unfold roots in Hv.
    apply list_elem_of_fmap in Hv as (k & -> & Hk).
    rewrite Forall_forall in IH, Hsub. unfold lower in Hlow.
    rewrite Forall_forall in Hlow.
    pose proof (Hlow k Hk) as Hheight. pose proof (height_positive k) as Hpos.
    destruct fuel as [|fuel]; [lia|].
    change (visit PlainTransformer (S fuel) (VRef (root_of k)) s)
      with (generic_visit PlainTransformer (visit PlainTransformer fuel)
              (VRef (root_of k)) s).
    apply (IH k Hk s fuel (Hsub k Hk)); [|exact Hheight].
    intros b m name v l items Hb. apply Hlists. simpl. right.
    apply elem_of_forest_nodes. eauto. }
  assert (forall names,
            (forall name v, name ∈ names -> getattr n name = Some v -> is_node s v ->
                            v ∈ direct_children s n) ->
            names ⊆ _attribs n ++ _fields n ->
            transform_names (visit PlainTransformer fuel) (VRef a) names s = Ok (tt, s))
    as Hloop.
  { intros names Hchildren Hsubset.
    apply (transform_names_unchanged _ s a n names Ha).
    - intros name v l items Hname. apply (Hlists a n name v l items); auto.
      simpl. apply list_elem_of_here.
    - intros name v Hname Hv Hnode. apply Hvisit. by apply (Hchildren name). }
  change (generic_visit PlainTransformer) with NodeTransformer_generic_visit.
  unfold NodeTransformer_generic_visit, st_bind at 1, st_lift.
  simpl. rewrite Ha. simpl. unfold st_bind at 1.
  rewrite Hloop; cycle 1.
  { intros name v Hname Hv Hnode. unfold direct_children. apply elem_of_app. left.
    by apply (elem_of_set_values s n _ name). }
  { intros name Hname. apply elem_of_app. by left. }
  simpl. unfold st_bind at 1. rewrite Ha. simpl. unfold st_bind at 1.
  rewrite Hloop; cycle 1.
  { intros name v Hname Hv Hnode. unfold direct_children. apply elem_of_app. right.
    by apply (elem_of_set_values s n _ name). }
  { intros name Hname. apply elem_of_app. by right. }
  reflexivity.
Qed.

(** C2, as the spec states it, fails.  [get_source_segment] raises on a
    node whose four coordinates are set when the span does not lie within
    the text: [IndexError] when the end line lies beyond the text, when the
    start line comes after the end line and when the start line is 0, and
    [UnboundLocalError] on the empty text.  And on a tree whose root has a
    sequence-valued field that holds a node, the transformer without methods
    of its own raises [AttributeError]: it visits the list, not the node in
    it. *)
Lemma traversal_can_raise :
  get_source_segment example_span_store "a" (VRef 1%positive) false = Raise IndexError
  /\ is_tree body_store (Sh 1%positive [Sh 3%positive []])
  /\ visit PlainTransformer 2 (VRef 1%positive) body_store = Raise AttributeError
  /\ get_source_segment example_span_store "" (VRef 1%positive) false
     = Raise UnboundLocalError
  /\ get_source_segment backwards_span_store (text_of ["a"; "b"]) (VRef 1%positive) false
     = Raise IndexError
  /\ get_source_segment line_zero_store (text_of ["a"; "b"]) (VRef 1%positive) false
     = Raise IndexError.
Proof.
  split; [reflexivity|]. split; [|repeat split; reflexivity]. split.
  - repeat (constructor; [reflexivity|]); repeat constructor.
  - solve_NoDup.
Qed.

(** C2 (amended): on a tree, partially populated or not, with fuel for one
    round per node and one more: [iter_fields] and [iter_attribs] return the
    pairs of the declared names that are set, skipping the others;
    [iter_child_nodes] and [copy_location] return; [get_source_segment]
    returns the absent result when a coordinate is missing and, when the
    four are set and the start line is not below 1 nor after the end line,
    it returns a segment if the end line is within the lines of the text,
    and raises otherwise ([UnboundLocalError] on the empty text,
    [IndexError] when the end line lies beyond the text); [walk] returns;
    [visit] and [generic_visit] of the visitor without methods of its own
    return the node, with the store as it was, and so do those of the
    transformer without methods of its own when no sequence-valued
    attribute or field of the tree holds a node; [fix_missing_locations]
    and [increment_lineno] return. *)
Theorem traversal_never_raises (s : store) (t : shape) (fuel : nat) (delta : Z) :
  is_tree s t ->
  (length (nodes t) < fuel)%nat ->
  (forall a, a ∈ nodes t ->
     exists n,
       s !! a = Some (ONode n)
       /\ iter_fields s (VRef a) = Ok (iter_names n (_fields n))
       /\ iter_attribs s (VRef a) = Ok (iter_names n (_attribs n))
       /\ (forall names name v,
             (name, v) ∈ iter_names n names <-> name ∈ names /\ getattr n name = Some v)
       /\ returns (iter_child_nodes s (VRef a))
       /\ (forall b, b ∈ nodes t -> returns (copy_location s (VRef a) (VRef b)))
       /\ (lineno n = None \/ col_offset n = None
           \/ end_lineno n = None \/ end_col_offset n = None ->
           forall source padded, get_source_segment s source (VRef a) padded = Ok None)
       /\ (forall l c el ec source padded,
             lineno n = Some l -> col_offset n = Some c ->
             end_lineno n = Some el -> end_col_offset n = Some ec ->
             1 <= l <= el ->
             (el <= Z.of_nat (length (source_lines source)) ->
              exists segment,
                get_source_segment s source (VRef a) padded = Ok (Some segment))
             /\ (source = "" ->
                 get_source_segment s source (VRef a) padded = Raise UnboundLocalError)
             /\ (source <> "" -> Z.of_nat (length (source_lines source)) < el ->
                 get_source_segment s source (VRef a) padded = Raise IndexError)))
  /\ returns (walk fuel s (VRef (root_of t)))
  /\ visit PlainVisitor fuel (VRef (root_of t)) s = Ok (VRef (root_of t), s)
  /\ generic_visit PlainVisitor (visit PlainVisitor fuel) (VRef (root_of t)) s
     = Ok (VRef (root_of t), s)
  /\ (no_node_in_lists s t ->
      visit PlainTransformer fuel (VRef (root_of t)) s = Ok (VRef (root_of t), s)
      /\ generic_visit PlainTransformer (visit PlainTransformer fuel) (VRef (root_of t)) s
         = Ok (VRef (root_of t), s))
  /\ returns (fix_missing_locations fuel s (VRef (root_of t)))
  /\ returns (increment_lineno fuel s (VRef (root_of t)) delta).
Proof.
  intros [Htree Hnd] Hfuel.
  pose proof (height_le_size t) as Hheight.
  split; [|split; [|split; [|split; [|split; [|split]]]]].
  - intros a Ha. destruct (tree_nodes_are_nodes s t Htree a Ha) as [n Hn].
    assert (node_of s (VRef a) = Ok n) as Hnode by (simpl; by rewrite Hn).
    exists n. split; [exact Hn|].
    split; [unfold iter_fields; simpl; by rewrite Hn|].
    split; [unfold iter_attribs; simpl; by rewrite Hn|].
    split; [apply iter_names_pairs|].
    split; [rewrite (iter_child_nodes_node s a n Hn); by eexists|].
    split; [|split].
    + intros b Hb. destruct (tree_nodes_are_nodes s t Htree b Hb) as [m Hm].
      by apply (copy_location_returns s a b n m).
    + intros Hmiss source padded.
      by apply (get_source_segment_missing s source (VRef a) n padded).
    + intros l c el ec source padded Hl Hc Hel Hec Hspan. split; [|split].
      * intros Hin. eexists.
        by apply (get_source_segment_within s (VRef a) n source padded l c el ec).
      * intros ->. unfold get_source_segment. rewrite Hnode. cbn [obind].
        rewrite Hl, Hc, Hel, Hec. reflexivity.
      * intros Hsource Hpast.
        apply (get_source_segment_beyond s (VRef a) n source padded l c el ec);
          try done. lia.
  - rewrite (walk_tree s t fuel Htree Hfuel). by eexists.
  - apply visit_plain_tree; [exact Htree|lia].
  - destruct fuel as [|fuel]; [lia|].
    pose proof (visit_plain_tree t s (S (S fuel)) Htree) as Hvisit.
    simpl in Hvisit. simpl. apply Hvisit. lia.
  - intros Hlists. split.
    + destruct fuel as [|fuel]; [lia|].
      change (visit PlainTransformer (S fuel) (VRef (root_of t)) s)
        with (generic_visit PlainTransformer (visit PlainTransformer fuel)
                (VRef (root_of t)) s).
      apply plain_transformer_generic; [exact Htree|exact Hlists|lia].
    + apply plain_transformer_generic; [exact Htree|exact Hlists|lia].
  - destruct (_fix_fills t s root_coords fuel Htree Hnd) as (s' & Hrun & _); [lia|].
    unfold fix_missing_locations, returns.
    change (_fix fuel s (VRef (root_of t)) 1 0 1 0)
      with (_fix fuel s (VRef (root_of t))
                 (c_lineno root_coords) (c_col_offset root_coords)
                 (c_end_lineno root_coords) (c_end_col_offset root_coords)).
    rewrite Hrun. simpl. eauto.
  - pose proof (walk_tree s t fuel Htree Hfuel) as Hwalk.
    assert (NoDup (breadth_first t)) as Hnd'.
    { rewrite (breadth_first_nodes t). apply NoDup_fmap; [|exact Hnd].
      by intros x y [= ->]. }
    destruct (increment_loop_spec delta fuel s _ _ Hwalk Hnd') as (s' & Hrun & _).
    unfold increment_lineno, returns. rewrite Hrun. simpl. eauto.
Qed.

Lemma traversal_never_raises_witness :
  returns (walk 4 located_store (VRef 1%positive))
  /\ visit PlainVisitor 4 (VRef 1%positive) located_store
     = Ok (VRef 1%positive, located_store)
  /\ visit PlainTransformer 4 (VRef 1%positive) located_store
     = Ok (VRef 1%positive, located_store)
  /\ (exists segment,
        get_source_segment located_store ("abc" +:+ String newline "def")
          (VRef 2%positive) false
        = Ok (Some segment))
  /\ returns (fix_missing_locations 4 located_store (VRef 1%positive))
  /\ returns (increment_lineno 4 located_store (VRef 1%positive) 3).
Proof.
  assert (is_tree located_store chain_shape) as Htree.
  { split.
    - repeat (constructor; [reflexivity|]); repeat constructor.
    - solve_NoDup. }
  assert (length (nodes chain_shape) < 4)%nat as Hfuel by (vm_compute; lia).
  assert (no_node_in_lists located_store chain_shape) as Hlists.
  { intros a n name v l items Ha Hn Hname Hv Hl.
    apply elem_of_cons in Ha as [->|Ha].
    - injection Hn as <-.
      repeat (apply elem_of_cons in Hname as [->|Hname]);
        try (by apply elem_of_nil in Hname);
        injection Hv as <-; try discriminate.
      injection Hl as <- <-. repeat constructor.
    - apply elem_of_cons in Ha as [->|Ha].
      + injection Hn as <-. by apply elem_of_nil in Hname.
      + apply elem_of_cons in Ha as [->|Ha]; [|by apply elem_of_nil in Ha].
        injection Hn as <-. by apply elem_of_nil in Hname. }
  destruct (traversal_never_raises located_store chain_shape 4 3 Htree Hfuel)
    as (Hnodes & Hwalk & Hvisit & _ & Htransform & Hfix & Hinc).
  destruct (Hnodes 2%positive) as (n & Hn & _ & _ & _ & _ & _ & Hmissing & Hsegment).
  { simpl. apply list_elem_of_further, list_elem_of_further, list_elem_of_here. }
  change (located_store !! 2%positive)
    with (Some (ONode (leaf "Name" (Some 1) (Some 1) (Some 2) (Some 2)))) in Hn.
  injection Hn as <-.
  destruct (Hsegment 1 1 2 2 ("abc" +:+ String newline "def") false
              eq_refl eq_refl eq_refl eq_refl ltac:(lia)) as (Hwithin & _).
  destruct (Htransform Hlists) as [Htransformer _].
  split; [exact Hwalk|]. split; [exact Hvisit|]. split; [exact Htransformer|].
  split; [apply Hwithin; vm_compute; discriminate|].
  split; assumption.
Defined.

End BasisProofs.
(** * Properties of the schema parser *)

Module ClassgenProofs.
Import Classgen ClassgenSpec.

(** ** Characters and patterns *)

Lemma word_not_space (c : ascii) : is_word c = true -> is_space c = false.
Proof. destruct c as [[] [] [] [] [] [] [] []]; vm_compute; congruence. Qed.

Lemma skip_space_at_word (c : ascii) (t : string) :
  is_space c = false -> skip_space (String c t) = String c t.
Proof. intros H. simpl. by rewrite H. Qed.

Lemma span_word_app (w t : string) :
  all_word w = true -> word_ends t -> span_word (w +:+ t) = (w, t).
Proof.
  induction w as [|c w IH]; simpl; intros Hw Ht.
  - destruct t as [|c t]; [reflexivity|]. simpl in *. by rewrite Ht.
  - apply andb_prop in Hw as [Hc Hw]. rewrite Hc, (IH Hw Ht). reflexivity.
Qed.

Lemma word_app (w t : string) :
  is_name w -> word_ends t -> word (w +:+ t) = Some (w, t).
Proof.
  intros [Hne Hw] Ht. unfold word. rewrite (span_word_app w t Hw Ht).
  destruct w; [contradiction|reflexivity].
Qed.

Lemma name_head (w t : string) :
  is_name w -> exists c r, w +:+ t = String c r /\ is_word c = true.
Proof.
  intros [Hne Hw]. destruct w as [|c w]; [contradiction|].
  simpl in Hw. apply andb_prop in Hw as [Hc _]. simpl. eauto.
Qed.

Lemma skip_space_name (w t : string) :
  is_name w -> skip_space (w +:+ t) = w +:+ t.
Proof.
  intros Hw. destruct (name_head w t Hw) as (c & r & -> & Hc).
  apply skip_space_at_word, word_not_space, Hc.
Qed.

(** The marker group is one of the three characters, or unmatched. *)
Lemma match_field_symbol (t type_name field_name rest : string) (symbol : option ascii) :
  match_field t = Some (type_name, symbol, field_name, rest) ->
  exists m, symbol = marker_symbol m.
Proof.
  unfold match_field. destruct (word (skip_space t)) as [[tn t1]|]; simpl; [|discriminate].
  destruct t1 as [|c t1].
  - discriminate.
  - destruct (decide (c = "?"%char \/ c = "*"%char \/ c = "+"%char)) as [Hc|Hc].
    + destruct t1 as [|c1 t1]; [discriminate|].
      destruct (is_space c1); [|discriminate].
      destruct (word (skip_space t1)) as [[fn t2]|]; simpl; [|discriminate].
      intros [= <- <- <- <-].
      destruct Hc as [->|[->| ->]];
        [by exists Question | by exists Star | by exists Plus].
    + destruct (is_space c); [|discriminate].
      destruct (word (skip_space t1)) as [[fn t2]|]; simpl; [|discriminate].
      intros [= <- <- <- <-]. by exists NoMarker.
Qed.

(** The pattern of [getField] on a type name, a marker, a space and a field
    name. *)
Lemma match_field_text (type_name field_name rest : string) (m : marker) :
  is_name type_name -> is_name field_name -> word_ends rest ->
  match_field (type_name +:+ marker_text m +:+ " " +:+ field_name +:+ rest)
  = Some (type_name, marker_symbol m, field_name, skip_space rest).
Proof.
  intros Ht Hf Hr. unfold match_field.
  rewrite (skip_space_name _ _ Ht).
  rewrite (word_app type_name _ Ht); [|by destruct m].
  simpl.
  destruct m; simpl;
    change ("" +:+ field_name +:+ rest) with (field_name +:+ rest);
    rewrite (skip_space_name _ _ Hf), (word_app field_name rest Hf Hr);
    reflexivity.
Qed.

(** C8: the flags of every parsed field are those of the marker the pattern
    matched: none gives neither flag, [?] gives [can_none] only, [*] gives
    both, [+] gives [can_many] only; and on the text of a type name, a marker,
    a space and a field name, [getField] returns the field with these
    flags. *)
Theorem getField_marker_flags :
  (forall (mod_raw rest : string) (field : Field),
     getField mod_raw = Ok (field, rest) ->
     exists m type_name field_name,
       match_field mod_raw = Some (type_name, marker_symbol m, field_name, rest)
       /\ field = mkField type_name field_name (fst (marker_flags m)) (snd (marker_flags m)))
  /\ (forall (type_name field_name rest : string) (m : marker),
        is_name type_name -> is_name field_name -> word_ends rest ->
        getField (type_name +:+ marker_text m +:+ " " +:+ field_name +:+ rest)
        = Ok (mkField type_name field_name (fst (marker_flags m)) (snd (marker_flags m)),
              skip_space rest)).
Proof.
  split.
  - intros mod_raw rest field. unfold getField, p_bind, p_expect, p_ret.
    destruct (match_field mod_raw) as [[[[tn symbol] fn] rest']|] eqn:E;
      simpl; [|discriminate].
    intros [= <- <-].
    destruct (match_field_symbol _ _ _ _ _ E) as [m ->].
    exists m, tn, fn. split; [reflexivity|]. by destruct m.
  - intros tn fn rest m Ht Hf Hr. unfold getField, p_bind, p_expect, p_ret.
    rewrite (match_field_text tn fn rest m Ht Hf Hr). simpl. by destruct m.
Qed.

Lemma getField_marker_flags_witness :
  getField "expr* args, int n"
  = Ok (mkField "expr" "args" true true, ", int n")
  /\ exists m tn fn,
       match_field "stmt+ body)" = Some (tn, marker_symbol m, fn, ")")
       /\ mkField "stmt" "body" false true
          = mkField tn fn (fst (marker_flags m)) (snd (marker_flags m)).
Proof.
  split.
  - apply (proj2 getField_marker_flags "expr" "args" ", int n" Star).
    + split; [discriminate|reflexivity].
    + split; [discriminate|reflexivity].
    + reflexivity.
  - apply (proj1 getField_marker_flags "stmt+ body)" ")"
             (mkField "stmt" "body" false true)).
    reflexivity.
Defined.

(** ** Every pattern consumes text *)

Lemma skip_space_length (t : string) : (len (skip_space t) <= len t)%nat.
Proof.
  induction t as [|c t IH]; simpl; [lia|].
  destruct (is_space c); simpl; lia.
Qed.

Lemma span_word_length (t w r : string) :
  span_word t = (w, r) -> len t = (len w + len r)%nat.
Proof.
  revert w r. induction t as [|c t IH]; simpl; intros w r.
  - intros [= <- <-]. reflexivity.
  - destruct (is_word c).
    + destruct (span_word t) as [w' r'] eqn:E. intros [= <- <-].
      simpl. rewrite (IH w' r' eq_refl). reflexivity.
    + intros [= <- <-]. reflexivity.
Qed.

Lemma word_length (t w r : string) :
  word t = Some (w, r) -> (len r < len t)%nat.
Proof.
  unfold word. destruct (span_word t) as [w' r'] eqn:E.
  apply span_word_length in E.
  destruct w' as [|c w']; [discriminate|].
  intros [= <- <-]. simpl in E. lia.
Qed.

Lemma char_length (c : ascii) (t r : string) :
  char c t = Some r -> len t = S (len r).
Proof.
  destruct t as [|c' t]; simpl; [discriminate|].
  destruct (decide (c' = c)); [|discriminate]. by intros [= ->].
Qed.

Lemma literal_length (l t r : string) :
  literal l t = Some r -> (len r <= len t)%nat.
Proof.
  revert t. induction l as [|c l IH]; simpl; intros t.
  - intros [= ->]. lia.
  - destruct t as [|c' t]; [discriminate|].
    destruct (decide (c' = c)); [|discriminate].
    intros H. apply IH in H. simpl. lia.
Qed.

Lemma token_length (c : ascii) (t r : string) :
  token c t = Some r -> (len r < len t)%nat.
Proof.
  unfold token. destruct (char c (skip_space t)) as [r'|] eqn:E; simpl; [|discriminate].
  intros [= <-]. apply char_length in E.
  pose proof (skip_space_length t). pose proof (skip_space_length r'). lia.
Qed.

Lemma match_field_length (t : string) (groups : string * option ascii * string) (r : string) :
  match_field t = Some (groups, r) -> (len r < len t)%nat.
Proof.
  unfold match_field.
  destruct (word (skip_space t)) as [[tn t1]|] eqn:E1; simpl; [|discriminate].
  apply word_length in E1. pose proof (skip_space_length t) as H0.
  assert (forall symbol u,
            match u with
            | String c rest =>
                if is_space c
                then word (skip_space rest)
                       ≫= (λ '(field_name, t), Some (tn, symbol, field_name, skip_space t))
                else None
            | EmptyString => None
            end = Some (groups, r) -> (len r < len u)%nat) as Hrest.
  { intros symbol [|c u]; [discriminate|].
    destruct (is_space c); [|discriminate].
    destruct (word (skip_space u)) as [[fn t2]|] eqn:E2; simpl; [|discriminate].
    intros [= <- <-]. apply word_length in E2.
    pose proof (skip_space_length u). pose proof (skip_space_length t2). lia. }
  destruct t1 as [|c t1].
  - discriminate.
  - destruct (decide (c = "?"%char \/ c = "*"%char \/ c = "+"%char)).
    + intros H. apply Hrest in H. simpl in *. lia.
    + intros H. apply (Hrest None (String c t1)) in H. simpl in *. lia.
Qed.

Lemma match_name_length (t name r : string) :
  match_name t = Some (name, r) -> (len r < len t)%nat.
Proof.
  unfold match_name.
  destruct (word (skip_space t)) as [[w t1]|] eqn:E; simpl; [|discriminate].
  intros [= <- <-]. apply word_length in E.
  pose proof (skip_space_length t). pose proof (skip_space_length t1). lia.
Qed.

Lemma match_typedef_length (t name r : string) :
  match_typedef t = Some (name, r) -> (len r < len t)%nat.
Proof.
  unfold match_typedef.
  destruct (word (skip_space t)) as [[w t1]|] eqn:E; simpl; [|discriminate].
  destruct (char "=" (skip_space t1)) as [t2|] eqn:E2; simpl; [|discriminate].
  intros [= <- <-]. apply word_length in E. apply char_length in E2.
  pose proof (skip_space_length t). pose proof (skip_space_length t1).
  pose proof (skip_space_length t2). lia.
Qed.

Lemma match_attributes_length (t r : string) :
  match_attributes t = Some r -> (len r <= len t)%nat.
Proof.
  unfold match_attributes.
  destruct (literal "attributes" (skip_space t)) as [t1|] eqn:E; simpl; [|discriminate].
  intros [= <-]. apply literal_length in E.
  pose proof (skip_space_length t). pose proof (skip_space_length t1). lia.
Qed.

Lemma getField_consuming (mod_raw : string) : consuming getField mod_raw.
Proof.
  unfold consuming, getField, p_bind, p_expect, p_ret.
  destruct (match_field mod_raw) as [[[[tn symbol] fn] rest]|] eqn:E; simpl.
  - split; [discriminate|]. intros a r [= <- <-].
    by apply match_field_length in E.
  - split; [discriminate|]. discriminate.
Qed.

#[local] Arguments getFields_loop : simpl never.
#[local] Arguments getSumType_loop : simpl never.

Lemma getFields_loop_consuming (fuel : nat) (fields : list Field) (mod_raw : string) :
  (len mod_raw < fuel)%nat -> consuming (getFields_loop fuel fields) mod_raw.
Proof.
  revert fields mod_raw. induction fuel as [|fuel IH]; intros fields mod_raw Hfuel; [lia|].
  destruct (getField_consuming mod_raw) as [Hd Hc].
  unfold consuming, getFields_loop; fold getFields_loop. unfold p_bind.
  destruct (getField mod_raw) as [[field r1]| |] eqn:E; simpl.
  - specialize (Hc field r1 eq_refl).
    destruct (token "," r1) as [r2|] eqn:E2.
    + apply token_length in E2.
      destruct (IH (fields ++ [field]) r2) as [Hd2 Hc2]; [lia|].
      split; [exact Hd2|]. intros a rest H. apply Hc2 in H. lia.
    + split; [discriminate|]. intros a rest [= <- <-]. exact Hc.
  - split; discriminate.
  - contradiction.
Qed.

Lemma getFields_consuming (mod_raw : string) : consuming getFields mod_raw.
Proof.
  unfold consuming, getFields, p_bind, p_expect, unit_groups, p_ret.
  destruct (token "(" mod_raw) as [r1|] eqn:E1; simpl; [|split; discriminate].
  apply token_length in E1.
  destruct (getFields_loop_consuming (S (len r1)) [] r1) as [Hd Hc]; [lia|].
  destruct (getFields_loop (S (len r1)) [] r1) as [[fields r2]| |] eqn:E2; simpl.
  - specialize (Hc fields r2 eq_refl).
    destruct (token ")" r2) as [r3|] eqn:E3; simpl; [|split; discriminate].
    apply token_length in E3. split; [discriminate|].
    intros a rest [= <- <-]. lia.
  - split; discriminate.
  - contradiction.
Qed.

Lemma getConstructor_consuming (mod_raw : string) : consuming getConstructor mod_raw.
Proof.
  unfold consuming, getConstructor, p_bind, p_expect, p_raise, p_context, p_ret.
  destruct (match_name mod_raw) as [[name r1]|] eqn:E1; simpl; [|split; discriminate].
  apply match_name_length in E1.
  destruct (starts_upper name); simpl; [|split; discriminate].
  destruct (token "(" r1) as [r2|] eqn:E2.
  - destruct (getFields_consuming r1) as [Hd Hc].
    destruct (getFields r1) as [[fields r3]| |] eqn:E3; simpl.
    + specialize (Hc fields r3 eq_refl). split; [discriminate|].
      intros a rest [= <- <-]. lia.
    + split; discriminate.
    + contradiction.
  - split; [discriminate|]. intros a rest [= <- <-]. exact E1.
Qed.

Lemma getSumType_loop_consuming (fuel : nat) (ctors : list Constructor) (mod_raw : string) :
  (len mod_raw < fuel)%nat -> consuming (getSumType_loop fuel ctors) mod_raw.
Proof.
  revert ctors mod_raw. induction fuel as [|fuel IH]; intros ctors mod_raw Hfuel; [lia|].
  destruct (getConstructor_consuming mod_raw) as [Hd Hc].
  unfold consuming, getSumType_loop; fold getSumType_loop. unfold p_bind.
  destruct (getConstructor mod_raw) as [[ctor r1]| |] eqn:E; simpl.
  - specialize (Hc ctor r1 eq_refl).
    destruct (token "|" r1) as [r2|] eqn:E2.
    + apply token_length in E2.
      destruct (IH (ctors ++ [ctor]) r2) as [Hd2 Hc2]; [lia|].
      split; [exact Hd2|]. intros a rest H. apply Hc2 in H. lia.
    + split; [discriminate|]. intros a rest [= <- <-]. exact Hc.
  - split; discriminate.
  - contradiction.
Qed.

Lemma getSumType_consuming (mod_raw : string) : consuming getSumType mod_raw.
Proof.
  unfold consuming, getSumType, p_bind, p_ret.
  destruct (getSumType_loop_consuming (S (len mod_raw)) [] mod_raw) as [Hd Hc]; [lia|].
  destruct (getSumType_loop (S (len mod_raw)) [] mod_raw) as [[ctors r1]| |] eqn:E1; simpl.
  - specialize (Hc ctors r1 eq_refl).
    destruct (match_attributes r1) as [r2|] eqn:E2.
    + apply match_attributes_length in E2.
      destruct (getFields_consuming r2) as [Hd2 Hc2].
      destruct (getFields r2) as [[attribs r3]| |] eqn:E3; simpl.
      * specialize (Hc2 attribs r3 eq_refl). split; [discriminate|].
        intros a rest [= <- <-]. lia.
      * split; discriminate.
      * contradiction.
    + split; [discriminate|]. intros a rest [= <- <-]. exact Hc.
  - split; discriminate.
  - contradiction.
Qed.

(** A type definition that parses carries the name of its header. *)
Lemma getTypeDef_consuming (type_name mod_raw : string) :
  consuming (getTypeDef type_name) mod_raw
  /\ forall typedef rest,
       getTypeDef type_name mod_raw = Ok (typedef, rest) -> typedef_name typedef = type_name.
Proof.
  unfold consuming, getTypeDef, p_bind, p_raise, p_ret.
  destruct (bool_decide (type_name = "AST") || bool_decide (type_name ∈ _default_types));
    [repeat split; discriminate|].
  destruct (match_open mod_raw) as [r0|].
  - destruct (getFields_consuming mod_raw) as [Hd Hc].
    destruct (getFields mod_raw) as [[fields r1]| |] eqn:E; simpl.
    + specialize (Hc fields r1 eq_refl).
      repeat split; [discriminate| |]; by intros a rest [= <- <-].
    + repeat split; discriminate.
    + contradiction.
  - destruct (getSumType_consuming mod_raw) as [Hd Hc].
    destruct (getSumType mod_raw) as [[type r1]| |] eqn:E; simpl.
    + specialize (Hc type r1 eq_refl).
      repeat split; [discriminate| |]; by intros a rest [= <- <-].
    + repeat split; discriminate.
    + contradiction.
Qed.

Lemma p_context_Ok {A : Type} (msg : string) (m : P A) (mod_raw : string) (r : A * string) :
  p_context msg m mod_raw = Ok r <-> m mod_raw = Ok r.
Proof. unfold p_context. destruct (m mod_raw); split; congruence. Qed.

Lemma p_context_Diverge {A : Type} (msg : string) (m : P A) (mod_raw : string) :
  p_context msg m mod_raw = Diverge <-> m mod_raw = Diverge.
Proof. unfold p_context. destruct (m mod_raw); split; congruence. Qed.

(** ** The main loop *)

(** The fuel that [ParseAsdl] gives the main loop is enough: the loop ends. *)
Lemma typedefs_loop_ends (fuel : nat) (mod_raw : string) (defined : gset string)
    (mod_body : list TypeDef) :
  (len mod_raw < fuel)%nat -> typedefs_loop fuel mod_raw defined mod_body <> Diverge.
Proof.
  revert mod_raw defined mod_body.
  induction fuel as [|fuel IH]; intros mod_raw defined mod_body Hfuel; [lia|].
  simpl. destruct (decide (strip mod_raw = "")); [discriminate|].
  destruct (match_typedef mod_raw) as [[name r1]|] eqn:E1; [|discriminate].
  apply match_typedef_length in E1.
  destruct (decide (name ∈ defined)); [discriminate|].
  destruct (getTypeDef_consuming name r1) as [[Hd Hc] _].
  destruct (p_context _ (getTypeDef name) r1) as [[typedef r2]| |] eqn:E2; simpl.
  - apply p_context_Ok in E2. apply Hc in E2. apply IH. lia.
  - discriminate.
  - apply p_context_Diverge in E2. contradiction.
Qed.

(** X10: [ParseAsdl] ends on every text, with a module or with an
    exception: each round of its three loops takes one character or more
    off the text that is left, so none of them goes on for ever. *)
Theorem ParseAsdl_ends (asdl_string : string) : ParseAsdl asdl_string <> Diverge.
Proof.
  unfold ParseAsdl.
  destruct (match_module (strip_comments false asdl_string)) as [[name mod_raw]|];
    [|discriminate].
  pose proof (typedefs_loop_ends (S (len mod_raw)) mod_raw ∅ []) as H.
  destruct (typedefs_loop (S (len mod_raw)) mod_raw ∅ []); simpl;
    [discriminate|discriminate|].
  exfalso. apply H; [lia|reflexivity].
Qed.




#[local] Arguments typedefs_loop : simpl never.

Lemma typedefs_loop_round (fuel : nat) (mod_raw : string) (defined : gset string)
    (mod_body : list TypeDef) :
  typedefs_loop (S fuel) mod_raw defined mod_body
  = if decide (strip mod_raw = "") then Ok mod_body
    else
      match match_typedef mod_raw with
      | None => Raise (Exc "expected type definition")
      | Some (type_name, mod_raw) =>
          if decide (type_name ∈ defined)
          then Raise (Exc ("cannot define type '" +:+ type_name +:+ "' twice."))
          else
            let! r := p_context ("in typedef of '" +:+ type_name +:+ "'")
                        (getTypeDef type_name) mod_raw in
            typedefs_loop fuel r.2 ({[type_name]} ∪ defined) (mod_body ++ [r.1])
      end.
Proof.
  unfold typedefs_loop; fold typedefs_loop.
  destruct (decide (strip mod_raw = "")); [reflexivity|].
  destruct (match_typedef mod_raw) as [[name r1]|]; [|reflexivity].
  destruct (decide (name ∈ defined)); [reflexivity|].
  destruct (p_context _ (getTypeDef name) r1) as [[typedef r2]| |]; reflexivity.
Qed.









(** ** The module that is returned *)

Lemma span_word_all_word (t w r : string) :
  span_word t = (w, r) -> all_word w = true.
Proof.
  revert w r. induction t as [|c t IH]; simpl; intros w r.
  - by intros [= <- <-].
  - destruct (is_word c) eqn:Ec.
    + destruct (span_word t) as [w' r'] eqn:E. intros [= <- <-].
      simpl. rewrite Ec. exact (IH w' r' eq_refl).
    + by intros [= <- <-].
Qed.

Lemma word_is_name (t w r : string) : word t = Some (w, r) -> is_name w.
Proof.
  unfold word. destruct (span_word t) as [w' r'] eqn:E.
  apply span_word_all_word in E.
  destruct w' as [|c w']; [discriminate|].
  intros [= <- <-]. by split.
Qed.

Lemma match_field_names (t type_name field_name rest : string) (symbol : option ascii) :
  match_field t = Some (type_name, symbol, field_name, rest) ->
  is_name type_name /\ is_name field_name.
Proof.
  unfold match_field.
  destruct (word (skip_space t)) as [[tn t1]|] eqn:E1; simpl; [|discriminate].
  apply word_is_name in E1.
  destruct t1 as [|c t1]; [discriminate|].
  destruct (decide (c = "?"%char \/ c = "*"%char \/ c = "+"%char)) as [Hc|Hc].
  - destruct t1 as [|c1 t1]; [discriminate|].
    destruct (is_space c1); [|discriminate].
    destruct (word (skip_space t1)) as [[fn t2]|] eqn:E2; simpl; [|discriminate].
    apply word_is_name in E2. by intros [= <- <- <- <-].
  - destruct (is_space c); [|discriminate].
    destruct (word (skip_space t1)) as [[fn t2]|] eqn:E2; simpl; [|discriminate].
    apply word_is_name in E2. by intros [= <- <- <- <-].
Qed.

Lemma getField_ok (mod_raw rest : string) (field : Field) :
  getField mod_raw = Ok (field, rest) -> field_ok field.
Proof.
  unfold getField, p_bind, p_expect, p_ret.
  destruct (match_field mod_raw) as [[[[tn symbol] fn] r]|] eqn:E; simpl; [|discriminate].
  apply match_field_names in E. by intros [= <- <-].
Qed.

Lemma getFields_loop_ok (fuel : nat) (fields result_fields : list Field)
    (mod_raw rest : string) :
  Forall field_ok fields ->
  getFields_loop fuel fields mod_raw = Ok (result_fields, rest) ->
  result_fields <> [] /\ Forall field_ok result_fields.
Proof.
  revert fields mod_raw. induction fuel as [|fuel IH]; intros fields mod_raw Hall;
    [discriminate|].
  unfold getFields_loop; fold getFields_loop. unfold p_bind.
  destruct (getField mod_raw) as [[field r1]| |] eqn:E; simpl; [|discriminate|discriminate].
  apply getField_ok in E.
  assert (Forall field_ok (fields ++ [field])) as Hall'.
  { apply Forall_app. split; [exact Hall|by constructor]. }
  destruct (token "," r1) as [r2|].
  - by apply IH.
  - intros [= <- <-]. split; [|exact Hall']. by destruct fields.
Qed.

Lemma getFields_ok (mod_raw rest : string) (fields : list Field) :
  getFields mod_raw = Ok (fields, rest) -> fields <> [] /\ Forall field_ok fields.
Proof.
  unfold getFields, p_bind, p_expect, unit_groups, p_ret.
  destruct (token "(" mod_raw) as [r1|]; simpl; [|discriminate].
  destruct (getFields_loop (S (len r1)) [] r1) as [[fs r2]| |] eqn:E; simpl;
    [|discriminate|discriminate].
  apply getFields_loop_ok in E; [|constructor].
  destruct (token ")" r2) as [r3|]; simpl; [|discriminate].
  by intros [= <- <-].
Qed.

Lemma match_name_is_name (t name rest : string) :
  match_name t = Some (name, rest) -> is_name name.
Proof.
  unfold match_name.
  destruct (word (skip_space t)) as [[w t1]|] eqn:E; simpl; [|discriminate].
  apply word_is_name in E. by intros [= <- <-].
Qed.

Lemma match_typedef_is_name (t name rest : string) :
  match_typedef t = Some (name, rest) -> is_name name.
Proof.
  unfold match_typedef.
  destruct (word (skip_space t)) as [[w t1]|] eqn:E; simpl; [|discriminate].
  apply word_is_name in E.
  destruct (char "=" (skip_space t1)) as [t2|]; simpl; [|discriminate].
  by intros [= <- <-].
Qed.

Lemma match_module_is_name (t name mod_raw : string) :
  match_module t = Some (name, mod_raw) -> is_name name.
Proof.
  unfold match_module.
  destruct (literal "module" (skip_space t)) as [t1|]; simpl; [|discriminate].
  destruct t1 as [|c t1]; [discriminate|].
  destruct (is_space c); [|discriminate].
  destruct (word (skip_space t1)) as [[w t2]|] eqn:E; simpl; [|discriminate].
  apply word_is_name in E.
  destruct (char "{" (skip_space t2)) as [t3|]; simpl; [|discriminate].
  destruct (body_to_close (skip_space t3)) as [body|]; simpl; [|discriminate].
  by intros [= <- <-].
Qed.

Lemma getConstructor_ok (mod_raw rest : string) (ctor : Constructor) :
  getConstructor mod_raw = Ok (ctor, rest) -> ctor_ok ctor.
Proof.
  unfold getConstructor, p_bind, p_expect, p_raise, p_context, p_ret.
  destruct (match_name mod_raw) as [[name r1]|] eqn:E1; simpl; [|discriminate].
  apply match_name_is_name in E1.
  destruct (starts_upper name) eqn:Eup; simpl; [|discriminate].
  destruct (token "(" r1) as [r2|].
  - destruct (getFields r1) as [[fields r3]| |] eqn:E3; simpl; [|discriminate|discriminate].
    apply getFields_ok in E3 as [_ Hall]. by intros [= <- <-].
  - intros [= <- <-]. split; [exact E1|split; [exact Eup|constructor]].
Qed.

Lemma getSumType_loop_ok (fuel : nat) (ctors result_ctors : list Constructor)
    (mod_raw rest : string) :
  Forall ctor_ok ctors ->
  getSumType_loop fuel ctors mod_raw = Ok (result_ctors, rest) ->
  result_ctors <> [] /\ Forall ctor_ok result_ctors.
Proof.
  revert ctors mod_raw. induction fuel as [|fuel IH]; intros ctors mod_raw Hall;
    [discriminate|].
  unfold getSumType_loop; fold getSumType_loop. unfold p_bind.
  destruct (getConstructor mod_raw) as [[ctor r1]| |] eqn:E; simpl;
    [|discriminate|discriminate].
  apply getConstructor_ok in E.
  assert (Forall ctor_ok (ctors ++ [ctor])) as Hall'.
  { apply Forall_app. split; [exact Hall|by constructor]. }
  destruct (token "|" r1) as [r2|].
  - by apply IH.
  - intros [= <- <-]. split; [|exact Hall']. by destruct ctors.
Qed.

Lemma getSumType_ok (mod_raw rest : string) (type : AbstractType) :
  getSumType mod_raw = Ok (type, rest) -> type_ok type.
Proof.
  unfold getSumType, p_bind, p_ret.
  destruct (getSumType_loop (S (len mod_raw)) [] mod_raw) as [[ctors r1]| |] eqn:E1; simpl;
    [|discriminate|discriminate].
  apply getSumType_loop_ok in E1 as [Hne Hall]; [|constructor].
  destruct (match_attributes r1) as [r2|].
  - destruct (getFields r2) as [[attribs r3]| |] eqn:E3; simpl; [|discriminate|discriminate].
    apply getFields_ok in E3 as [_ Hattribs]. by intros [= <- <-].
  - intros [= <- <-]. by repeat split.
Qed.

Lemma getTypeDef_ok (type_name mod_raw rest : string) (typedef : TypeDef) :
  is_name type_name ->
  getTypeDef type_name mod_raw = Ok (typedef, rest) -> typedef_ok typedef.
Proof.
  intros Hname. unfold getTypeDef, p_bind, p_raise, p_ret.
  destruct (bool_decide (type_name = "AST")) eqn:East; [discriminate|].
  destruct (bool_decide (type_name ∈ _default_types)) eqn:Edef; [discriminate|].
  apply bool_decide_eq_false in East, Edef. simpl.
  destruct (match_open mod_raw) as [r0|].
  - destruct (getFields mod_raw) as [[fields r1]| |] eqn:E; simpl;
      [|discriminate|discriminate].
    apply getFields_ok in E. by intros [= <- <-].
  - destruct (getSumType mod_raw) as [[type r1]| |] eqn:E; simpl;
      [|discriminate|discriminate].
    apply getSumType_ok in E. by intros [= <- <-].
Qed.

Lemma typedefs_loop_ok (fuel : nat) (mod_raw : string) (defined : gset string)
    (mod_body result_body : list TypeDef) :
  Forall typedef_ok mod_body ->
  typedefs_loop fuel mod_raw defined mod_body = Ok result_body ->
  Forall typedef_ok result_body.
Proof.
  revert mod_raw defined mod_body.
  induction fuel as [|fuel IH]; intros mod_raw defined mod_body Hall; [discriminate|].
  rewrite typedefs_loop_round.
  destruct (decide (strip mod_raw = "")); [by intros [= <-]|].
  destruct (match_typedef mod_raw) as [[name r1]|] eqn:E1; [|discriminate].
  apply match_typedef_is_name in E1.
  destruct (decide (name ∈ defined)) as [|Hnew]; [discriminate|].
  destruct (p_context _ (getTypeDef name) r1) as [[typedef r2]| |] eqn:E;
    simpl; [|discriminate|discriminate].
  apply p_context_Ok in E. apply (getTypeDef_ok _ _ _ _ E1) in E.
  apply IH. apply Forall_app. split; [exact Hall|by constructor].
Qed.

(** X11: in a module that [ParseAsdl] returns, the name of the module, of
    every type, of every constructor and of every field, and the type of
    every field, are words of one or more [\w]; no type is called [AST] or
    as a built-in type; every constructor name starts with an uppercase
    letter; a product type has one field or more and a sum type one
    constructor or more. *)
Theorem ParseAsdl_well_formed (asdl_string : string) (m : AsdlModule) :
  ParseAsdl asdl_string = Ok m -> module_ok m.
Proof.
  unfold ParseAsdl.
  destruct (match_module (strip_comments false asdl_string)) as [[name mod_raw]|] eqn:E;
    [|discriminate].
  apply match_module_is_name in E.
  destruct (typedefs_loop (S (len mod_raw)) mod_raw ∅ []) as [mod_body| |] eqn:Eloop;
    simpl; [|discriminate|discriminate].
  apply typedefs_loop_ok in Eloop; [|constructor].
  by intros [= <-].
Qed.

Lemma ParseAsdl_well_formed_witness :
  module_ok
    (mkModule "M"
       [mkTypeDef "expr"
          (SumType [mkConstructor "Num" [mkField "int" "n" false false];
                    mkConstructor "Nil" []]
                   [mkField "int" "lineno" true false]);
        mkTypeDef "pair" (ProductType [mkField "expr" "items" true true])]).
Proof.
  apply (ParseAsdl_well_formed
           "module M { expr = Num(int n) | Nil attributes (int? lineno) pair = (expr* items) }").
  vm_compute. reflexivity.
Defined.

(** ** The exceptions *)

Lemma getField_raises (mod_raw : string) (e : Exception) :
  getField mod_raw = Raise e -> e = Exc "expected field".
Proof.
  unfold getField, p_bind, p_expect, p_ret.
  destruct (match_field mod_raw) as [[[[tn symbol] fn] r]|]; simpl; [discriminate|].
  by intros [= <-].
Qed.

Lemma getFields_loop_raises (fuel : nat) (fields : list Field) (mod_raw : string)
    (e : Exception) :
  getFields_loop fuel fields mod_raw = Raise e -> e = Exc "expected field".
Proof.
  revert fields mod_raw. induction fuel as [|fuel IH]; intros fields mod_raw; [discriminate|].
  unfold getFields_loop; fold getFields_loop. unfold p_bind.
  destruct (getField mod_raw) as [[field r1]| |] eqn:E; simpl; [| |discriminate].
  - destruct (token "," r1) as [r2|]; [apply IH|discriminate].
  - intros [= <-]. by apply getField_raises in E.
Qed.

(** A field list raises for its opening parenthesis only where there is
    none. *)
Lemma getFields_raises (mod_raw : string) (e : Exception) :
  getFields mod_raw = Raise e ->
  (token "(" mod_raw = None /\ e = Exc "expected left parenthesis to begin field list.")
  \/ field_error e.
Proof.
  unfold getFields, p_bind, p_expect, unit_groups, p_ret.
  destruct (token "(" mod_raw) as [r1|]; simpl; [|intros [= <-]; by left].
  destruct (getFields_loop (S (len r1)) [] r1) as [[fs r2]| |] eqn:E; simpl;
    [| |discriminate].
  - destruct (token ")" r2) as [r3|]; simpl; [discriminate|].
    intros [= <-]. right. by right.
  - intros [= <-]. apply getFields_loop_raises in E. right. by left.
Qed.

Lemma getConstructor_raises (mod_raw : string) (e : Exception) :
  getConstructor mod_raw = Raise e -> ctor_error e.
Proof.
  unfold getConstructor, p_bind, p_expect, p_raise, p_context, p_ret.
  destruct (match_name mod_raw) as [[name r1]|] eqn:E1; simpl;
    [|intros [= <-]; by left].
  apply match_name_is_name in E1.
  destruct (starts_upper name) eqn:Eup; simpl; [|intros [= <-]; right; by left].
  destruct (token "(" r1) as [r2|] eqn:E2; [|discriminate].
  destruct (getFields r1) as [[fields r3]|cause|] eqn:E3; simpl;
    [discriminate| |discriminate].
  intros [= <-]. right. right. exists name, cause.
  split; [exact E1|]. split; [exact Eup|]. split; [reflexivity|].
  apply getFields_raises in E3 as [[Hnone _]|Hfield]; [congruence|exact Hfield].
Qed.

Lemma getSumType_loop_raises (fuel : nat) (ctors : list Constructor) (mod_raw : string)
    (e : Exception) :
  getSumType_loop fuel ctors mod_raw = Raise e -> ctor_error e.
Proof.
  revert ctors mod_raw. induction fuel as [|fuel IH]; intros ctors mod_raw; [discriminate|].
  unfold getSumType_loop; fold getSumType_loop. unfold p_bind.
  destruct (getConstructor mod_raw) as [[ctor r1]| |] eqn:E; simpl; [| |discriminate].
  - destruct (token "|" r1) as [r2|]; [apply IH|discriminate].
  - intros [= <-]. by apply getConstructor_raises in E.
Qed.

Lemma match_open_token (t r : string) :
  match_open t = Some r -> token "(" t = Some (skip_space r).
Proof. unfold match_open, token. by intros ->. Qed.

Lemma getTypeDef_raises (type_name mod_raw : string) (e : Exception) :
  getTypeDef type_name mod_raw = Raise e -> typedef_error e.
Proof.
  unfold getTypeDef, p_bind, p_raise, p_ret.
  destruct (bool_decide (type_name = "AST") || bool_decide (type_name ∈ _default_types));
    [intros [= <-]; by left|].
  destruct (match_open mod_raw) as [r0|] eqn:Eopen.
  - destruct (getFields mod_raw) as [[fields r1]| |] eqn:E; simpl;
      [discriminate| |discriminate].
    intros [= <-]. apply match_open_token in Eopen.
    apply getFields_raises in E as [[Hnone _]|Hfield]; [congruence|].
    right. right. by left.
  - unfold getSumType, p_bind, p_ret.
    destruct (getSumType_loop (S (len mod_raw)) [] mod_raw) as [[ctors r1]| |] eqn:E1; simpl;
      [| |discriminate].
    + destruct (match_attributes r1) as [r2|]; [|discriminate].
      destruct (getFields r2) as [[attribs r3]| |] eqn:E3; simpl;
        [discriminate| |discriminate].
      intros [= <-]. apply getFields_raises in E3 as [[_ ->]|Hfield].
      * right. by left.
      * right. right. by left.
    + intros [= <-]. apply getSumType_loop_raises in E1. right. right. right. exact E1.
Qed.

Lemma typedefs_loop_raises (fuel : nat) (mod_raw : string) (defined : gset string)
    (mod_body : list TypeDef) (e : Exception) :
  typedefs_loop fuel mod_raw defined mod_body = Raise e -> parse_error e.
Proof.
  revert mod_raw defined mod_body.
  induction fuel as [|fuel IH]; intros mod_raw defined mod_body; [discriminate|].
  rewrite typedefs_loop_round.
  destruct (decide (strip mod_raw = "")); [discriminate|].
  destruct (match_typedef mod_raw) as [[name r1]|] eqn:E1;
    [|intros [= <-]; right; by left].
  apply match_typedef_is_name in E1.
  destruct (decide (name ∈ defined)) as [|Hnew].
  { intros [= <-]. right. right. exists name. split; [exact E1|by left]. }
  unfold p_context.
  destruct (getTypeDef name r1) as [[typedef r2]|cause|] eqn:E; simpl; [apply IH| |discriminate].
  intros [= <-]. apply getTypeDef_raises in E.
  right. right. exists name. split; [exact E1|]. right. by exists cause.
Qed.

(** X12: every exception of [ParseAsdl] is one of three kinds: the two
    plain ones for a missing module statement and for a missing type
    definition; the one that names a type defined twice; and the one that
    names the type in whose definition an error occurred and carries that
    error as its cause.  The cause is the redefinition of a basic type, a
    field-list error, a constructor-name error, or the exception that names
    a constructor and carries the error of its field list, which is never
    the one for a missing opening parenthesis. *)
Theorem ParseAsdl_raises (asdl_string : string) (e : Exception) :
  ParseAsdl asdl_string = Raise e -> parse_error e.
Proof.
  unfold ParseAsdl.
  destruct (match_module (strip_comments false asdl_string)) as [[name mod_raw]|];
    [|intros [= <-]; by left].
  destruct (typedefs_loop (S (len mod_raw)) mod_raw ∅ []) as [mod_body|e'|] eqn:Eloop;
    simpl; [discriminate| |discriminate].
  intros [= <-]. by apply typedefs_loop_raises in Eloop.
Qed.

Lemma ParseAsdl_raises_witness :
  parse_error
    (ExcFrom "in typedef of 'expr'"
       (ExcFrom "in ctor of 'Num'"
          (Exc "expected right parenthesis to close field list."))).
Proof.
  apply (ParseAsdl_raises "module M { expr = Num(int n | Nil }").
  vm_compute. reflexivity.
Defined.

(** ** Comments *)

Lemma strip_comments_outside (c c' : ascii) (t : string) :
  strip_comments false (String c (String c' t))
  = if decide (c = "-"%char /\ c' = "-"%char) then strip_comments true (String c' t)
    else String c (strip_comments false (String c' t)).
Proof. reflexivity. Qed.

Lemma strip_comments_inside (c : ascii) (t : string) :
  strip_comments true (String c t)
  = if decide (c = Basis.newline) then String c (strip_comments false t)
    else strip_comments true t.
Proof. reflexivity. Qed.

Lemma strip_comments_head (c : ascii) (t : string) :
  c <> "-"%char ->
  strip_comments false (String c t) = String c (strip_comments false t).
Proof.
  intros Hc. destruct t as [|c' t]; [reflexivity|].
  rewrite strip_comments_outside.
  destruct (decide (c = "-"%char /\ c' = "-"%char)) as [[? _]|]; [contradiction|reflexivity].
Qed.

Lemma strip_comments_dash (b : bool) (t : string) :
  strip_comments b (String "-" (String "-" t)) = strip_comments true t.
Proof. by destruct b. Qed.

Lemma has_comment_cons (c : ascii) (t : string) :
  has_comment t = false ->
  (c = "-"%char -> forall t', t <> String "-" t') ->
  has_comment (String c t) = false.
Proof.
  intros Ht Hhead. destruct t as [|c' t]; [reflexivity|].
  change (bool_decide (c = "-"%char /\ c' = "-"%char) || has_comment (String c' t) = false).
  rewrite Ht, orb_false_r. apply bool_decide_eq_false. intros [-> ->].
  by apply (Hhead eq_refl t).
Qed.

Lemma strip_comments_no_comment (t : string) (b : bool) :
  has_comment (strip_comments b t) = false.
Proof.
  revert b. induction t as [|c t IH]; intros b; [by destruct b|].
  destruct b.
  - rewrite strip_comments_inside.
    destruct (decide (c = Basis.newline)) as [->|]; [|apply IH].
    apply has_comment_cons; [apply IH|]. discriminate.
  - destruct t as [|c' t]; [reflexivity|].
    rewrite strip_comments_outside.
    destruct (decide (c = "-"%char /\ c' = "-"%char)) as [|Hno]; [apply IH|].
    apply has_comment_cons; [apply IH|].
    intros -> t' Ht'.
    assert (c' <> "-"%char) as Hc' by (intros ->; by apply Hno).
    rewrite (strip_comments_head c' t Hc') in Ht'. congruence.
Qed.

Lemma strip_comments_none (t : string) :
  has_comment t = false -> strip_comments false t = t.
Proof.
  induction t as [|c t IH]; [reflexivity|].
  destruct t as [|c' t]; [reflexivity|].
  intros H.
  change (bool_decide (c = "-"%char /\ c' = "-"%char) || has_comment (String c' t) = false)
    in H.
  apply orb_false_iff in H as [Hc Ht]. apply bool_decide_eq_false in Hc.
  rewrite strip_comments_outside.
  destruct (decide (c = "-"%char /\ c' = "-"%char)); [contradiction|].
  by rewrite (IH Ht).
Qed.

(** Inside a comment the rest of the line is dropped. *)
Lemma strip_comments_rest_of_line (l : string) :
  BasisSpec.no_newline l -> strip_comments true l = "".
Proof.
  induction l as [|c l IH]; [reflexivity|]. intros [Hc Hl].
  rewrite strip_comments_inside.
  destruct (decide (c = Basis.newline)); [contradiction|by apply IH].
Qed.

Lemma strip_comments_line (b : bool) (l rest : string) :
  BasisSpec.no_newline l ->
  strip_comments b (l +:+ String Basis.newline rest)
  = strip_comments b l +:+ String Basis.newline (strip_comments false rest).
Proof.
  revert b. induction l as [|c l IH]; intros b Hl.
  - change ("" +:+ String Basis.newline rest) with (String Basis.newline rest).
    destruct b.
    + rewrite strip_comments_inside.
      destruct (decide (Basis.newline = Basis.newline)); [reflexivity|contradiction].
    + by rewrite strip_comments_head.
  - destruct Hl as [Hc Hl]. rewrite BasisProofs.append_cons. destruct b.
    + rewrite !strip_comments_inside.
      destruct (decide (c = Basis.newline)); [contradiction|by apply IH].
    + destruct l as [|c' l].
      * change ("" +:+ String Basis.newline rest) with (String Basis.newline rest).
        rewrite strip_comments_outside.
        destruct (decide (c = "-"%char /\ Basis.newline = "-"%char))
          as [[_ ?]|]; [discriminate|].
        by rewrite strip_comments_head.
      * rewrite BasisProofs.append_cons, !strip_comments_outside.
        destruct (decide (c = "-"%char /\ c' = "-"%char)).
        -- rewrite <- BasisProofs.append_cons. by apply IH.
        -- rewrite (BasisProofs.append_cons c). f_equal.
           rewrite <- BasisProofs.append_cons. by apply IH.
Qed.

(** Up to the first two dashes the text is kept. *)
Lemma strip_comments_prefix (a t : string) :
  has_comment (a +:+ "-") = false ->
  strip_comments false (a +:+ "--" +:+ t) = a +:+ strip_comments true t.
Proof.
  intros Ha. induction a as [|x a IH].
  - change ("" +:+ "--" +:+ t) with (String "-" (String "-" t)).
    by rewrite strip_comments_dash.
  - rewrite BasisProofs.append_cons in Ha. rewrite !BasisProofs.append_cons.
    destruct a as [|y a].
    + change ("" +:+ "-") with "-" in Ha.
      change (bool_decide (x = "-"%char /\ "-"%char = "-"%char) || has_comment "-" = false)
        in Ha.
      apply orb_false_iff in Ha as [Hx _]. apply bool_decide_eq_false in Hx.
      rewrite strip_comments_head by (intros ->; by apply Hx).
      f_equal; by apply IH.
    + rewrite BasisProofs.append_cons in Ha.
      change (bool_decide (x = "-"%char /\ y = "-"%char)
              || has_comment (String y (a +:+ "-")) = false) in Ha.
      apply orb_false_iff in Ha as [Hx Ha]. apply bool_decide_eq_false in Hx.
      rewrite BasisProofs.append_cons, strip_comments_outside.
      destruct (decide (x = "-"%char /\ y = "-"%char)); [contradiction|].
      f_equal. rewrite <- BasisProofs.append_cons. apply IH.
      by rewrite BasisProofs.append_cons.
Qed.

(** X13: the text that [ParseAsdl] goes on with after taking the comments
    out has no two dashes in a row left, and a text without two dashes in a
    row is kept as it is; so taking the comments out beforehand does not
    change what [ParseAsdl] returns or raises. *)
Theorem strip_comments_removes (asdl_string : string) :
  has_comment (strip_comments false asdl_string) = false
  /\ (has_comment asdl_string = false -> strip_comments false asdl_string = asdl_string)
  /\ ParseAsdl (strip_comments false asdl_string) = ParseAsdl asdl_string.
Proof.
  split; [apply strip_comments_no_comment|]. split; [apply strip_comments_none|].
  unfold ParseAsdl.
  by rewrite (strip_comments_none _ (strip_comments_no_comment asdl_string false)).
Qed.

(** X14: a comment runs from the first two dashes of a line to the end of
    that line and no further.  Where [a] has no two dashes in a row and
    does not end with a dash, and [c] is free of newline characters, of the
    text [a--c] the part [a] is left, and of [a--c] followed by a newline
    and more text, [a], the newline and what is left of that text. *)
Theorem strip_comments_by_line (a c rest : string) :
  has_comment (a +:+ "-") = false ->
  BasisSpec.no_newline c ->
  strip_comments false (a +:+ "--" +:+ c) = a
  /\ strip_comments false (a +:+ "--" +:+ c +:+ String Basis.newline rest)
     = a +:+ String Basis.newline (strip_comments false rest).
Proof.
  intros Ha Hc. rewrite !strip_comments_prefix by exact Ha.
  rewrite strip_comments_line by exact Hc.
  rewrite (strip_comments_rest_of_line c Hc).
  split; [apply BasisProofs.append_nil_r|reflexivity].
Qed.

Lemma strip_comments_by_line_witness :
  strip_comments false ("A = B " +:+ "--" +:+ " the - type")
  = "A = B "
  /\ strip_comments false
       ("A = B " +:+ "--" +:+ " the - type" +:+ String Basis.newline "C = D -- E")
     = "A = B " +:+ String Basis.newline (strip_comments false "C = D -- E").
Proof.
  apply (strip_comments_by_line "A = B " " the - type" "C = D -- E").
  - reflexivity.
  - simpl. repeat split; discriminate.
Defined.

(** ** The module statement *)

Lemma contains_skip_space (t : string) (c : ascii) :
  contains (skip_space t) c = true -> contains t c = true.
Proof.
  induction t as [|c' t IH]; simpl; [done|].
  destruct (is_space c'); [|done].
  intros H. rewrite (IH H). apply orb_true_r.
Qed.

Lemma contains_span_word (t w r : string) (c : ascii) :
  span_word t = (w, r) -> contains r c = true -> contains t c = true.
Proof.
  revert w r. induction t as [|c' t IH]; simpl; intros w r.
  - by intros [= <- <-].
  - destruct (is_word c').
    + destruct (span_word t) as [w' r'] eqn:E. intros [= <- <-] H.
      rewrite (IH w' r' eq_refl H). apply orb_true_r.
    + by intros [= <- <-].
Qed.

Lemma contains_word (t w r : string) (c : ascii) :
  word t = Some (w, r) -> contains r c = true -> contains t c = true.
Proof.
  unfold word. destruct (span_word t) as [w' r'] eqn:E.
  destruct w'; [discriminate|]. intros [= <- <-]. by apply (contains_span_word _ _ _ _ E).
Qed.

Lemma contains_char (c' : ascii) (t r : string) (c : ascii) :
  char c' t = Some r -> contains r c = true -> contains t c = true.
Proof.
  destruct t as [|x t]; simpl; [discriminate|].
  destruct (decide (x = c')); [|discriminate].
  intros [= <-] ->. apply orb_true_r.
Qed.

Lemma contains_literal (l t r : string) (c : ascii) :
  literal l t = Some r -> contains r c = true -> contains t c = true.
Proof.
  revert t. induction l as [|x l IH]; intros t; simpl; [by intros [= <-]|].
  destruct t as [|y t]; [discriminate|].
  destruct (decide (y = x)); [|discriminate].
  intros H Hr. simpl. rewrite (IH t H Hr). apply orb_true_r.
Qed.

Lemma contains_body_to_close (t body : string) :
  body_to_close t = Some body -> contains t "}" = true.
Proof.
  revert body. induction t as [|c t IH]; intros body; simpl; [discriminate|].
  destruct (body_to_close t) as [body'|].
  - intros _. rewrite (IH body' eq_refl). apply orb_true_r.
  - destruct (bool_decide (c = "}"%char)); [reflexivity|discriminate].
Qed.

Lemma contains_strip_comments (b : bool) (t : string) (c : ascii) :
  contains (strip_comments b t) c = true -> contains t c = true.
Proof.
  revert b. induction t as [|x t IH]; intros b; [by destruct b|].
  destruct b.
  - rewrite strip_comments_inside. simpl.
    destruct (decide (x = Basis.newline)); simpl.
    + intros H. apply orb_true_iff in H as [->|H]; [reflexivity|].
      rewrite (IH false H). apply orb_true_r.
    + intros H. rewrite (IH true H). apply orb_true_r.
  - destruct t as [|y t]; [done|].
    rewrite strip_comments_outside.
    destruct (decide (x = "-"%char /\ y = "-"%char)).
    + intros H. change (bool_decide (x = c) || contains (String y t) c = true).
      rewrite (IH true H). apply orb_true_r.
    + intros H. change (bool_decide (x = c) || contains (String y t) c = true).
      change (bool_decide (x = c) || contains (strip_comments false (String y t)) c = true)
        in H.
      apply orb_true_iff in H as [->|H]; [reflexivity|].
      rewrite (IH false H). apply orb_true_r.
Qed.

Lemma match_module_closed (t name mod_raw : string) :
  match_module t = Some (name, mod_raw) -> contains t "}" = true.
Proof.
  unfold match_module.
  destruct (literal "module" (skip_space t)) as [t1|] eqn:E1; simpl; [|discriminate].
  destruct t1 as [|c t1]; [discriminate|].
  destruct (is_space c); [|discriminate].
  destruct (word (skip_space t1)) as [[w t2]|] eqn:E2; simpl; [|discriminate].
  destruct (char "{" (skip_space t2)) as [t3|] eqn:E3; simpl; [|discriminate].
  destruct (body_to_close (skip_space t3)) as [body|] eqn:E4; simpl; [|discriminate].
  intros _.
  apply contains_skip_space, (contains_literal _ _ _ _ E1).
  simpl. apply orb_true_iff. right.
  apply contains_skip_space, (contains_word _ _ _ _ E2).
  apply contains_skip_space, (contains_char _ _ _ _ E3).
  apply contains_skip_space, (contains_body_to_close _ _ E4).
Qed.

(** X15: a text with no closing brace in it, the empty text among them,
    is refused with the exception for a missing module statement, whatever
    else it holds. *)
Theorem ParseAsdl_needs_closing_brace (asdl_string : string) :
  contains asdl_string "}" = false ->
  ParseAsdl asdl_string = Raise (Exc "missing module statement").
Proof.
  intros Hnone. unfold ParseAsdl.
  destruct (match_module (strip_comments false asdl_string)) as [[name mod_raw]|] eqn:E;
    [|reflexivity].
  apply match_module_closed, contains_strip_comments in E. congruence.
Qed.

Lemma ParseAsdl_needs_closing_brace_witness :
  ParseAsdl "module M { expr = Num(int n)" = Raise (Exc "missing module statement").
Proof. apply ParseAsdl_needs_closing_brace. reflexivity. Defined.

(** ** The class generator *)

(** The keys of the dictionary of classes are the built-in type names. *)
Lemma default_types_keys : _default_types_items.*1 = _default_types.
Proof. reflexivity. Qed.

Lemma GetTypeName_quoted (name : string) :
  name ∉ _default_types -> GetTypeName name = "'" +:+ name +:+ "'".
Proof.
  intros Hname. unfold GetTypeName. simpl.
  repeat (destruct (decide _) as [->|_];
          [exfalso; apply Hname; unfold _default_types; set_solver|]).
  reflexivity.
Qed.

(** X17: the annotation that [ToParam] and [ToAssign] write for a field
    read by [getField] follows the marker of the field: none gives the class
    [T], [?] gives [T | None], and [*] and [+] give the same [list[T]],
    [can_many] going before [can_none]; [T] is the name of the field's type
    in quotes unless it is a built-in type. *)
Theorem ToParam_marker (mod_raw rest : string) (field : Field) :
  getField mod_raw = Ok (field, rest) ->
  exists m,
    match_field mod_raw
    = Some (type_name field, marker_symbol m, field_name field, rest)
    /\ ToParam field
       = field_name field +:+ ": " +:+ marker_annotation m (GetTypeName (type_name field))
    /\ ToAssign field
       = "self." +:+ field_name field +:+ ": "
         +:+ marker_annotation m (GetTypeName (type_name field))
         +:+ " = " +:+ field_name field
    /\ (type_name field ∉ _default_types ->
        GetTypeName (type_name field) = "'" +:+ type_name field +:+ "'").
Proof.
  unfold getField, p_bind, p_expect, p_ret.
  destruct (match_field mod_raw) as [[[[tn symbol] fn] rest']|] eqn:E;
    simpl; [|discriminate].
  intros [= <- <-].
  destruct (match_field_symbol _ _ _ _ _ E) as [m ->].
  exists m. split; [reflexivity|].
  split; [|split; [|apply GetTypeName_quoted]]; by destruct m.
Qed.

Lemma ToParam_marker_witness :
  exists m,
    match_field "expr* args, int n"
    = Some (type_name (mkField "expr" "args" true true), marker_symbol m,
            field_name (mkField "expr" "args" true true), ", int n")
    /\ ToParam (mkField "expr" "args" true true)
       = field_name (mkField "expr" "args" true true) +:+ ": "
         +:+ marker_annotation m (GetTypeName (type_name (mkField "expr" "args" true true)))
    /\ ToAssign (mkField "expr" "args" true true)
       = "self." +:+ field_name (mkField "expr" "args" true true) +:+ ": "
         +:+ marker_annotation m (GetTypeName (type_name (mkField "expr" "args" true true)))
         +:+ " = " +:+ field_name (mkField "expr" "args" true true)
    /\ (type_name (mkField "expr" "args" true true) ∉ _default_types ->
        GetTypeName (type_name (mkField "expr" "args" true true))
        = "'" +:+ type_name (mkField "expr" "args" true true) +:+ "'").
Proof.
  apply (ToParam_marker "expr* args, int n" ", int n" (mkField "expr" "args" true true)).
  reflexivity.
Defined.

Lemma contains_app (a b : string) (c : ascii) :
  contains (a +:+ b) c = contains a c || contains b c.
Proof.
  induction a as [|x a IH]; [reflexivity|].
  rewrite BasisProofs.append_cons. simpl. by rewrite IH, orb_assoc.
Qed.

Lemma rstrip_blank (t : string) (c : ascii) :
  rstrip t = "" -> contains t c = true -> is_space c = true.
Proof.
  induction t as [|x t IH]; simpl; [discriminate|].
  destruct (rstrip t) as [|y r]; [|discriminate].
  destruct (is_space x) eqn:Ex; [|discriminate].
  intros _ H. apply orb_true_iff in H as [H|H].
  - apply bool_decide_eq_true in H. by subst c.
  - by apply IH.
Qed.

Lemma strip_blank (t : string) (c : ascii) :
  strip t = "" -> contains t c = true -> is_space c = true.
Proof.
  unfold strip. induction t as [|x t IH]; simpl; [discriminate|].
  destruct (is_space x) eqn:Ex.
  - intros Hs H. apply orb_true_iff in H as [H|H].
    + apply bool_decide_eq_true in H. by subst c.
    + by apply IH.
  - intros Hs H. by apply (rstrip_blank (String x t)).
Qed.

Lemma ToParam_colon (field : Field) : contains (ToParam field) ":" = true.
Proof.
  unfold ToParam. rewrite contains_app. apply orb_true_iff. by right.
Qed.

Lemma join_contains (sep l : string) (rest : list string) (c : ascii) :
  contains l c = true -> contains (Basis.join sep (l :: rest)) c = true.
Proof.
  intros H. destruct rest as [|l' rest]; [exact H|].
  simpl. by rewrite contains_app, H.
Qed.

(** The parameters of a class with fields are never blank. *)
Lemma params_not_blank (fields : list Field) :
  fields <> [] -> strip (Basis.join ", " (ToParam <$> fields)) <> "".
Proof.
  destruct fields as [|field fields]; [done|]. intros _ Hblank.
  apply (strip_blank _ ":") in Hblank; [discriminate|].
  rewrite fmap_cons. apply join_contains, ToParam_colon.
Qed.

(** X18: the class of a constructor that has fields, in a sum type that
    has attributes, takes the parameters of the class of the sum type
    first, as [GenAbstractClass] writes them, and its own after them, and
    hands the attributes to [super().__init__] by name in the same order.
    The branch of [GenDataClass] that would take the bare attribute names
    for parameters is never run, since the parameters of one field or more
    are not blank. *)
Theorem GenDataClass_with_attributes (name parent : string) (fields attribs : list Field) :
  fields <> [] -> attribs <> [] ->
  GenDataClass name fields parent attribs
  = "class " +:+ name +:+ "(" +:+ parent +:+ "):" +:+ nl +:+ tab
    +:+ "def __init__(self, "
    +:+ Basis.join ", " (ToParam <$> attribs) +:+ ", "
    +:+ Basis.join ", " (ToParam <$> fields) +:+ "):" +:+ nl +:+ tab +:+ tab
    +:+ "super().__init__(" +:+ Basis.join ", " (field_name <$> attribs) +:+ ")"
    +:+ nl +:+ tab +:+ tab
    +:+ "self._fields = ("
    +:+ Basis.join ", " ((fun x => dq +:+ field_name x +:+ dq) <$> fields) +:+ ",)"
    +:+ Basis.join "" ((fun x => nl +:+ tab +:+ tab +:+ x) <$> (ToAssign <$> fields))
  /\ GenAbstractClass parent attribs
     = "class " +:+ parent +:+ "(AST):" +:+ nl +:+ tab
       +:+ "def __init__(self, "
       +:+ Basis.join ", " (ToParam <$> attribs) +:+ "):" +:+ nl +:+ tab +:+ tab
       +:+ "self._attribs = ("
       +:+ Basis.join ", " ((fun x => dq +:+ field_name x +:+ dq) <$> attribs) +:+ ",)"
       +:+ nl +:+ tab +:+ tab
       +:+ Basis.join (nl +:+ tab +:+ tab) (ToAssign <$> attribs).
Proof.
  intros Hfields Hattribs.
  pose proof (params_not_blank fields Hfields) as Hparams.
  assert (length fields <> 0%nat) as Hf by (by destruct fields).
  assert (length attribs <> 0%nat) as Ha by (by destruct attribs).
  split.
  - unfold GenDataClass.
    destruct (decide (length fields = 0%nat)); [done|].
    destruct (decide (0 < length fields)%nat); [|lia].
    destruct (decide (0 < length attribs)%nat); [|lia].
    cbn [fst snd].
    destruct (decide (strip (Basis.join ", " (ToParam <$> fields)) = "")); [done|].
    cbn [Basis.join]. rewrite !BasisProofs.append_assoc. reflexivity.
  - unfold GenAbstractClass.
    destruct (decide (length attribs = 0%nat)); [done|reflexivity].
Qed.

Lemma GenDataClass_with_attributes_witness :
  GenDataClass "Num" [mkField "int" "n" false false] "expr"
    [mkField "int" "lineno" true false]
  = "class Num(expr):" +:+ nl +:+ tab
    +:+ "def __init__(self, lineno: int | None, n: int):" +:+ nl +:+ tab +:+ tab
    +:+ "super().__init__(lineno)" +:+ nl +:+ tab +:+ tab
    +:+ "self._fields = (" +:+ dq +:+ "n" +:+ dq +:+ ",)"
    +:+ nl +:+ tab +:+ tab +:+ "self.n: int = n".
Proof.
  rewrite (proj1 (GenDataClass_with_attributes "Num" "expr"
                    [mkField "int" "n" false false]
                    [mkField "int" "lineno" true false]
                    ltac:(discriminate) ltac:(discriminate))).
  reflexivity.
Defined.

Lemma foldl_append {A : Type} (f : string -> A -> string) (l : list A) :
  (forall a b x, f (a +:+ b) x = a +:+ f b x) ->
  forall a b, foldl f (a +:+ b) l = a +:+ foldl f b l.
Proof.
  intros Hf. induction l as [|x l IH]; intros a b; [reflexivity|].
  simpl. by rewrite Hf, IH.
Qed.

Lemma gen_typedef_append (a b : string) (typedef : TypeDef) :
  gen_typedef (a +:+ b) typedef = a +:+ gen_typedef b typedef.
Proof.
  unfold gen_typedef. destruct (type_def typedef) as [fields|ctors attribs].
  - by rewrite !BasisProofs.append_assoc.
  - rewrite !BasisProofs.append_assoc. apply foldl_append.
    intros a' b' ctor. by rewrite !BasisProofs.append_assoc.
Qed.

(** X19: [AsdlToPy] raises what [ParseAsdl] raises, and otherwise
    returns the text of the library file after its first line, with the
    generated classes after it; the generated text is the same whatever the
    library file holds. *)
Theorem AsdlToPy_appends (basis asdl_string : string) :
  AsdlToPy basis asdl_string
  = match AsdlToPy "" asdl_string with
    | Ok generated => Ok (after_first_line basis +:+ generated)
    | Raise e => Raise e
    | Diverge => Diverge
    end
  /\ forall e, ParseAsdl asdl_string = Raise e -> AsdlToPy basis asdl_string = Raise e.
Proof.
  unfold AsdlToPy. destruct (ParseAsdl asdl_string) as [asdl|e|]; simpl.
  - split; [|discriminate]. f_equal.
    rewrite <- (foldl_append gen_typedef _ gen_typedef_append). reflexivity.
  - split; [reflexivity|]. by intros e' [= <-].
  - split; [reflexivity|discriminate].
Qed.

End ClassgenProofs.
